(** * Cheetah arithmetic kernels (libspu/mpc/cheetah/arithmetic.cc)

    A shallow embedding of the two-party arithmetic-sharing kernels of the
    Cheetah backend.  Every kernel is run by both parties, each with its own
    rank and its own shares; a kernel is therefore embedded as a program of
    ONE party that issues calls to the interactive sub-protocols, and a joint
    run pairs the calls of the two parties and answers them with the ideal
    functionality of each sub-protocol. *)

From Stdlib Require Import String Ascii.
From Stdlib Require Import ZArith List Lia Bool Setoid Morphisms.
Import ListNotations.
Local Open Scope Z_scope.

(** ** Ring values *)

(** Modelled from the spec: the field tags of libspu/core are not part of the
    sources; the rings are Z_2^k for the supported widths 32, 64 and 128. *)
Inductive FieldType : Type := FM32 | FM64 | FM128.

(** Modelled from the spec: [SizeOf(field)] is the element size in bytes. *)
Definition SizeOf (field : FieldType) : Z :=
  match field with FM32 => 4 | FM64 => 8 | FM128 => 16 end.

Definition FieldType_eqb (a b : FieldType) : bool :=
  match a, b with
  | FM32, FM32 | FM64, FM64 | FM128, FM128 => true
  | _, _ => false
  end.

(** Ring width in bits and the modulus 2^k. *)
Definition bits (field : FieldType) : Z := SizeOf field * 8.
Definition modulus (field : FieldType) : Z := 2 ^ bits field.

(** Arithmetic of the unsigned type [u2k]: every result wraps mod 2^k. *)
Definition wrap (field : FieldType) (z : Z) : Z := z mod modulus field.

(** Sharing kinds carried by an array's element type. *)
Inductive Ty : Type :=
| RingTy (field : FieldType)
| AShrTy (field : FieldType)
| BShrTy (field : FieldType) (nbits : Z)
| Priv2kTy (field : FieldType) (owner : Z).

Definition Ty_field (t : Ty) : FieldType :=
  match t with
  | RingTy f | AShrTy f | BShrTy f _ | Priv2kTy f _ => f
  end.

(** [eltype().as<Priv2kTy>()]: a null pointer unless the type is private. *)
Definition as_Priv2kTy (t : Ty) : option Z :=
  match t with Priv2kTy _ owner => Some owner | _ => None end.

(** [NdArrayRef]: element type, shape, and the elements in row-major order. *)
Record NdArrayRef : Type := mkNdArrayRef {
  eltype : Ty;
  shape : list Z;
  data : list Z
}.

Definition calcNumel (shp : list Z) : Z := fold_right Z.mul 1 shp.
Definition numel (x : NdArrayRef) : Z := calcNumel (shape x).
Definition elsize (x : NdArrayRef) : Z := SizeOf (Ty_field (eltype x)).
Definition ndim (x : NdArrayRef) : Z := Z.of_nat (length (shape x)).
Definition field_of (x : NdArrayRef) : FieldType := Ty_field (eltype x).

(** [a.numel()] where a local variable named [numel] is in scope. *)
Definition numel_of (x : NdArrayRef) : Z := numel x.

(** An array is well formed when its buffer holds exactly [numel] elements. *)
Definition wf (x : NdArrayRef) : Prop :=
  Z.of_nat (length (data x)) = numel x.

Definition in_ring (k : Z) (x : NdArrayRef) : Prop :=
  Forall (fun v => 0 <= v < 2 ^ k) (data x).

(** [NdArrayRef(eltype, shape)].  The source leaves the fresh buffer
    uninitialised; the model fills it with zeros, and the statements below
    about a fresh array that is not empty speak of its shape only. *)
Definition NdArrayRef_new (t : Ty) (shp : list Z) : NdArrayRef :=
  mkNdArrayRef t shp (repeat 0 (Z.to_nat (calcNumel shp))).

Definition as_ (x : NdArrayRef) (t : Ty) : NdArrayRef :=
  mkNdArrayRef t (shape x) (data x).

Definition reshape (x : NdArrayRef) (shp : list Z) : NdArrayRef :=
  mkNdArrayRef (eltype x) shp (data x).

(** [x.slice({b}, {e}, {1})] of a flat array. *)
Definition slice1 (x : NdArrayRef) (b e : Z) : NdArrayRef :=
  mkNdArrayRef (eltype x) [e - b]
    (firstn (Z.to_nat (e - b)) (skipn (Z.to_nat b) (data x))).

Fixpoint zipWith {A B C : Type} (f : A -> B -> C) (l : list A) (m : list B)
  : list C :=
  match l, m with
  | a :: l', b :: m' => f a b :: zipWith f l' m'
  | _, _ => []
  end.

Fixpoint list_eqb {A : Type} (eqb : A -> A -> bool) (l m : list A) : bool :=
  match l, m with
  | [], [] => true
  | a :: l', b :: m' => eqb a b && list_eqb eqb l' m'
  | _, _ => false
  end.

Definition Shape_eqb : list Z -> list Z -> bool := list_eqb Z.eqb.

(** Modelled from the spec: libspu/mpc/utils/ring_ops.h is not part of the
    sources; the ring operations are element-wise add/sub/mul mod 2^k and
    zero fill on flat buffers. *)
Definition ring_binop (op : Z -> Z -> Z) (x y : NdArrayRef) : NdArrayRef :=
  mkNdArrayRef (eltype x) (shape x)
    (zipWith (fun a b => wrap (field_of x) (op a b)) (data x) (data y)).

Definition ring_add : NdArrayRef -> NdArrayRef -> NdArrayRef := ring_binop Z.add.
Definition ring_sub : NdArrayRef -> NdArrayRef -> NdArrayRef := ring_binop Z.sub.
Definition ring_mul : NdArrayRef -> NdArrayRef -> NdArrayRef := ring_binop Z.mul.

Definition ring_zeros (field : FieldType) (shp : list Z) : NdArrayRef :=
  mkNdArrayRef (RingTy field) shp (repeat 0 (Z.to_nat (calcNumel shp))).

(** ** Calls to the collaborators *)

Inductive SignType : Type := Unknown | Positive | Negative.

(** [TruncateProtocol::Meta]. *)
Record Meta : Type := mkMeta {
  signed_arith : bool;
  sign : SignType;
  shift_bits : Z;
  use_heuristic : bool
}.

(** The primary connection of the communicator, and the duplicated one
    handed out by [CheetahMulState::duplx]. *)
Inductive Conn : Type := Primary | Duplicate.

Definition Conn_eqb (a b : Conn) : bool :=
  match a, b with
  | Primary, Primary | Duplicate, Duplicate => true
  | _, _ => false
  end.

(** One constructor per collaborator entry point used by the kernels. *)
Inductive Call : Type :=
| TruncateProtocol_Compute (inp : NdArrayRef) (meta : Meta)
| CompareProtocol_Compute (inp : NdArrayRef) (greater_than : bool)
| EqualProtocol_Compute (inp : NdArrayRef) (nbits : Z)
| PrivateMulxSend (inp : NdArrayRef)
| PrivateMulxRecv (inp0 inp1 : NdArrayRef)
| MulOLE (inp : NdArrayRef) (conn : Conn) (evaluator : bool)
| MulShare (x y : NdArrayRef) (conn : Conn) (evaluator : bool)
| DotOLE (inp : NdArrayRef) (conn : Conn) (dim3 : Z * Z * Z) (is_lhs : bool)
| BatchDotOLE (inp : NdArrayRef) (conn : Conn) (dim4 : Z * Z * Z * Z)
    (is_lhs : bool)
| TakeCachedBeaver (field : FieldType) (numel : Z)
| allReduce_ADD (s : NdArrayRef)
| duplx.

Definition Result (c : Call) : Type :=
  match c with
  | TakeCachedBeaver _ _ => (NdArrayRef * NdArrayRef * NdArrayRef)%type
  | duplx => Conn
  | _ => NdArrayRef
  end.

(** The program of one party: it returns, fails an [SPU_ENFORCE], or issues
    a call and continues with its answer. *)
Inductive Proto (A : Type) : Type :=
| Ret (a : A)
| Abort
| Do (c : Call) (k : Result c -> Proto A).

Arguments Ret {A} a.
Arguments Abort {A}.
Arguments Do {A} c k.

Fixpoint bind {A B : Type} (p : Proto A) (f : A -> Proto B) : Proto B :=
  match p with
  | Ret a => f a
  | Abort => Abort
  | Do c k => Do c (fun r => bind (k r) f)
  end.

Definition call (c : Call) : Proto (Result c) := Do c Ret.

Definition SPU_ENFORCE {A : Type} (b : bool) (k : Proto A) : Proto A :=
  if b then k else Abort.

Declare Scope proto_scope.
Delimit Scope proto_scope with proto.
Notation "x <- p ;; q" := (bind p (fun x => q))
  (at level 61, p at next level, right associativity) : proto_scope.
Notation "' pat <- p ;; q" := (bind p (fun x => match x with pat => q end))
  (at level 61, pat pattern, p at next level, right associativity)
  : proto_scope.
Local Open Scope proto_scope.

(** The calls a party issues, in order, when its calls are answered by
    [ans]. *)
Fixpoint trace {A : Type} (ans : forall c, Result c) (p : Proto A)
  : list Call :=
  match p with
  | Do c k => c :: trace ans (k (ans c))
  | _ => []
  end.

(** What the kernel reads from [KernelEvalContext] and the process. *)
Record KernelEvalContext : Type := mkCtx {
  getRank : Z;
  getDefaultField : FieldType;
  OLEBatchSize : Z;
  getenv_SPU_BB_SET_IEQUAL_BITS : option string
}.

(** Modelled from the spec: libspu/mpc/cheetah/tiled_dispatch.h is not part
    of the sources; the dispatch glue applies the function to the input
    (tile by tile over the OT instances) and returns the joined result. *)
Definition DispatchUnaryFunc {A : Type} (ctx : KernelEvalContext)
  (x : NdArrayRef) (f : NdArrayRef -> Proto A) : Proto A := f x.

Definition DispatchBinaryFunc {A : Type} (ctx : KernelEvalContext)
  (x y : NdArrayRef) (f : NdArrayRef -> NdArrayRef -> Proto A) : Proto A :=
  f x y.

(** ** The kernels

    Each [proc] follows its C++ body statement by statement.  Two things
    are left out because they return nothing and touch no operand:
    [LazyInitKeys], and the fetching of the protocol objects from the
    context.  A [std::async] task is independent of the code that runs
    between its launch and its [get()]; its call is issued at the launch
    point and its answer used where [get()] is. *)

Module TruncA.

(** [TruncA::proc]. *)
Definition proc (ctx : KernelEvalContext) (x : NdArrayRef) (bits : Z)
  (sign : SignType) : Proto NdArrayRef :=
  let n := numel x in
  let out := NdArrayRef_new (eltype x) (shape x) in
  if n =? 0 then Ret out
  else
    DispatchUnaryFunc ctx x (fun input =>
      let meta := {| signed_arith := true;
                     sign := sign;
                     shift_bits := bits;
                     use_heuristic := true |} in
      call (TruncateProtocol_Compute input meta)).

End TruncA.

(** [pforeach(0, numel, ...)] writing one array from another, element by
    element. *)
Definition pforeach_map (f : Z -> Z) (dst src : NdArrayRef) : NdArrayRef :=
  mkNdArrayRef (eltype dst) (shape dst) (map f (data src)).

Definition pforeach_zip (f : Z -> Z -> Z) (dst src : NdArrayRef)
  : NdArrayRef :=
  mkNdArrayRef (eltype dst) (shape dst) (zipWith f (data dst) (data src)).

Module MsbA2B.

(** The adjusted operand handed to the Millionaire protocol. *)
Definition adjust (field : FieldType) (rank : Z) (mask : Z) (v : Z) : Z :=
  if rank =? 0 then Z.land v mask
  else Z.land (wrap field (mask - v)) mask.

(** [MsbA2B::proc]; [nbits_] is the member of the kernel object. *)
Definition proc (nbits_ : Z) (ctx : KernelEvalContext) (x : NdArrayRef)
  : Proto NdArrayRef :=
  let numel := numel x in
  let field := getDefaultField ctx in
  let nbits := if nbits_ =? 0 then SizeOf field * 8 else nbits_ in
  let shft := nbits - 1 in
  SPU_ENFORCE (nbits <=? 8 * SizeOf field) (
    let out := NdArrayRef_new (eltype x) (shape x) in
    if numel =? 0 then Ret (as_ out (BShrTy field 1))
    else
      let rank := getRank ctx in
      let mask := wrap field (Z.shiftl 1 shft - 1) in
      let adjusted := ring_zeros field (shape x) in
      let adjusted := pforeach_map (adjust field rank mask) adjusted x in
      carry_bit <- DispatchUnaryFunc ctx adjusted (fun input =>
                     call (CompareProtocol_Compute input true)) ;;
      let carry_bit := as_ carry_bit (eltype x) in
      let carry_bit :=
        pforeach_zip (fun c v => Z.lxor c (Z.shiftr v shft)) carry_bit x in
      Ret (as_ carry_bit (BShrTy field 1))).

End MsbA2B.

Module EqualAA.

(** [EqualAA::proc]; [nbits_] is the member set by the constructor
    [EqualAA(nbits)]. *)
Definition proc (nbits_ : Z) (ctx : KernelEvalContext) (x y : NdArrayRef)
  : Proto NdArrayRef :=
  SPU_ENFORCE (Shape_eqb (shape x) (shape y)) (
    let numel := numel x in
    let field := getDefaultField ctx in
    let nbits := if nbits_ =? 0 then SizeOf field * 8 else nbits_ in
    SPU_ENFORCE (nbits <=? 8 * SizeOf field) (
      let eq_bit := NdArrayRef_new (eltype x) (shape x) in
      if numel =? 0 then Ret (as_ eq_bit (BShrTy field 1))
      else
        let rank := getRank ctx in
        let adjusted := if rank =? 0 then ring_sub x y else ring_sub y x in
        r <- DispatchUnaryFunc ctx adjusted (fun input =>
               call (EqualProtocol_Compute input nbits)) ;;
        Ret (as_ r (BShrTy field 1)))).

End EqualAA.

(** [std::strtol(s, &pEnd, 10)] of the C library with a 64-bit [long]:
    leading white space, an optional sign, then decimal digits; the value
    saturates at LONG_MIN / LONG_MAX; without any digit nothing is consumed
    and the value is 0.  The second component is what [pEnd] points to. *)
Definition isspace (c : ascii) : bool :=
  let n := Z.of_N (N_of_ascii c) in
  (n =? 32) || ((9 <=? n) && (n <=? 13)).

Definition isdigit (c : ascii) : bool :=
  let n := Z.of_N (N_of_ascii c) in
  (48 <=? n) && (n <=? 57).

Fixpoint skip_space (s : string) : string :=
  match s with
  | String c s' => if isspace c then skip_space s' else s
  | EmptyString => s
  end.

Fixpoint strtol_digits (acc : Z) (s : string) : Z * string :=
  match s with
  | String c s' =>
      if isdigit c
      then strtol_digits (10 * acc + (Z.of_N (N_of_ascii c) - 48)) s'
      else (acc, s)
  | EmptyString => (acc, s)
  end.

Definition LONG_MAX : Z := 2 ^ 63 - 1.
Definition LONG_MIN : Z := - 2 ^ 63.

Definition strtol (nptr : string) : Z * string :=
  let s := skip_space nptr in
  let '(neg, s1) :=
    match s with
    | String "-"%char s' => (true, s')
    | String "+"%char s' => (false, s')
    | _ => (false, s)
    end in
  match s1 with
  | String c _ =>
      if isdigit c
      then
        let '(v, pEnd) := strtol_digits 0 s1 in
        let v := if neg then - v else v in
        (Z.max LONG_MIN (Z.min LONG_MAX v), pEnd)
      else (0, nptr)
  | EmptyString => (0, nptr)
  end.

(** [*pEnd == 0]: the parse stopped at the terminating NUL. *)
Definition at_NUL (pEnd : string) : bool :=
  match pEnd with
  | EmptyString => true
  | String c _ => (N_of_ascii c =? 0)%N
  end.

(** Conversion of an integer value to the 32-bit [int]. *)
Definition to_int (z : Z) : Z := (z + 2 ^ 31) mod 2 ^ 32 - 2 ^ 31.

Module EqualAP.

(** The significant-bit hint read from the environment. *)
Definition iequal_bits (ctx : KernelEvalContext) (x : NdArrayRef) : Z :=
  let iequal_bits := 0 in
  match getenv_SPU_BB_SET_IEQUAL_BITS ctx with
  | Some env_str =>
      let '(bits, pEnd) := strtol env_str in
      if at_NUL pEnd
      then Z.min (to_int (elsize x * 8)) (Z.max (to_int bits) 0)
      else iequal_bits
  | None => iequal_bits
  end.

(** [EqualAP::proc]. *)
Definition proc (ctx : KernelEvalContext) (x y : NdArrayRef)
  : Proto NdArrayRef :=
  let iequal_bits := iequal_bits ctx x in
  let field := getDefaultField ctx in
  if 0 =? getRank ctx
  then EqualAA.proc iequal_bits ctx x (ring_zeros field (shape x))
  else EqualAA.proc iequal_bits ctx x y.

End EqualAP.

Module MulA1BV.

(** [MulA1BV::proc]. *)
Definition proc (ctx : KernelEvalContext) (ashr bshr : NdArrayRef)
  : Proto NdArrayRef :=
  let rank := getRank ctx in
  SPU_ENFORCE (Shape_eqb (shape ashr) (shape bshr)) (
    let numel := numel ashr in
    match as_Priv2kTy (eltype bshr) with
    | None => Abort
    | Some owner =>
        let out := NdArrayRef_new (eltype ashr) (shape ashr) in
        if numel =? 0 then Ret out
        else if negb (rank =? owner)
        then
          r <- DispatchUnaryFunc ctx ashr (fun input =>
                 call (PrivateMulxSend input)) ;;
          Ret (as_ r (eltype ashr))
        else
          r <- DispatchBinaryFunc ctx ashr bshr (fun input0 input1 =>
                 call (PrivateMulxRecv input0 input1)) ;;
          Ret (as_ r (eltype ashr))
    end).

End MulA1BV.

Module MulAV.

(** [MulAV::proc]. *)
Definition proc (ctx : KernelEvalContext) (x y : NdArrayRef)
  : Proto NdArrayRef :=
  SPU_ENFORCE (Shape_eqb (shape x) (shape y)) (
    let numel := numel x in
    if numel =? 0 then Ret (NdArrayRef_new (eltype x) (shape x))
    else
      let rank := getRank ctx in
      match as_Priv2kTy (eltype y) with
      | None => Abort
      | Some owner =>
          let fx := reshape x [numel] in
          if negb (rank =? owner)
          then
            out <- call (MulOLE fx Primary true) ;;
            Ret (as_ (reshape out (shape x)) (eltype x))
          else
            let fy := reshape y [numel] in
            out <- call (MulOLE fy Primary false) ;;
            let out := ring_add out (ring_mul fx fy) in
            Ret (as_ (reshape out (shape x)) (eltype x))
      end).

End MulAV.

(** [std::memcpy] of [n] elements of [src] into [dst] at element offset
    [off]. *)
Definition memcpy (dst : list Z) (off : Z) (src : list Z) (n : Z) : list Z :=
  firstn (Z.to_nat off) dst ++ firstn (Z.to_nat n) src
    ++ skipn (Z.to_nat (off + n)) dst.

Definition with_data (x : NdArrayRef) (d : list Z) : NdArrayRef :=
  mkNdArrayRef (eltype x) (shape x) d.

(** 64-bit signed arithmetic of [int64_t], wrap-around written out. *)
Definition to_int64 (z : Z) : Z := (z + 2 ^ 63) mod 2 ^ 64 - 2 ^ 63.

Module MulAA.

(** [MulAA::mulWithBeaver]: the two masked differences are opened one after
    the other by [vmap]. *)
Definition mulWithBeaver (ctx : KernelEvalContext) (x y : NdArrayRef)
  : Proto NdArrayRef :=
  let numel := numel x in
  if numel =? 0 then Ret (NdArrayRef_new (eltype x) (shape x))
  else
    let field := getDefaultField ctx in
    '(a, b, c) <- call (TakeCachedBeaver field numel) ;;
    SPU_ENFORCE (numel_of a =? numel) (
      let a := reshape a (shape x) in
      let b := reshape b (shape x) in
      let c := reshape c (shape x) in
      x_a <- call (allReduce_ADD (ring_sub x a)) ;;
      y_b <- call (allReduce_ADD (ring_sub y b)) ;;
      let z := ring_add (ring_mul x_a b) (ring_mul y_b a) in
      let z := ring_add z c in
      let z := if getRank ctx =? 0 then ring_add z (ring_mul x_a y_b)
               else z in
      Ret (as_ z (eltype x))).

(** [MulAA::mulDirectly]: the second half runs as a task over the duplicated
    connection, the first half over the primary one; the two output slices
    are copied into the output one after the other. *)
Definition mulDirectly (ctx : KernelEvalContext) (x y : NdArrayRef)
  : Proto NdArrayRef :=
  let fx := reshape x [numel x] in
  let fy := reshape y [numel y] in
  let n := numel fx in
  let nhalf := n / 2 in
  let rank := getRank ctx in
  dupx <- call duplx ;;
  task <- call (MulShare (slice1 fx nhalf n) (slice1 fy nhalf n) dupx
                  (rank =? 0)) ;;
  out_slice0 <- call (MulShare (slice1 fx 0 nhalf) (slice1 fy 0 nhalf)
                        Primary (negb (rank =? 0))) ;;
  let out_slice1 := task in
  let out := NdArrayRef_new (eltype x) (shape x) in
  let offset := 0 in
  let out := with_data out
               (memcpy (data out) offset (data out_slice0)
                  (numel out_slice0)) in
  let offset := offset + numel out_slice0 in
  let out := with_data out
               (memcpy (data out) offset (data out_slice1)
                  (numel out_slice1)) in
  Ret out.

(** [MulAA::proc]. *)
Definition proc (ctx : KernelEvalContext) (x y : NdArrayRef)
  : Proto NdArrayRef :=
  SPU_ENFORCE (Shape_eqb (shape x) (shape y)) (
    let batch_sze := OLEBatchSize ctx in
    let numel := numel x in
    if numel >=? to_int64 (2 * batch_sze) then mulDirectly ctx x y
    else mulWithBeaver ctx x y).

End MulAA.

Module SquareA.

(** [SquareA::proc]: [mul1] is assigned only when the input is split. *)
Definition proc (ctx : KernelEvalContext) (x : NdArrayRef)
  : Proto NdArrayRef :=
  let numel := numel x in
  if numel =? 0 then Ret (NdArrayRef_new (eltype x) (shape x))
  else
    let rank := getRank ctx in
    let fx := reshape x [numel] in
    let nhalf := if numel <=? 8192 then numel else numel / 2 in
    subtask <- call (MulOLE (slice1 fx 0 nhalf) Primary (rank =? 0)) ;;
    mul1 <- ((if nhalf <? numel
             then
               dupx <- call duplx ;;
               m <- call (MulOLE (slice1 fx nhalf numel) dupx (rank =? 1)) ;;
               Ret (Some (m : NdArrayRef))
             else Ret None) : Proto (option NdArrayRef)) ;;
    let mul0 := subtask in
    let x0x1 := NdArrayRef_new (eltype x) [numel] in
    let x0x1 := with_data x0x1 (memcpy (data x0x1) 0 (data mul0) nhalf) in
    let x0x1 :=
      match mul1 with
      | Some mul1 =>
          with_data x0x1
            (memcpy (data x0x1) nhalf (data mul1) (numel_of mul1))
      | None => x0x1
      end in
    let x0x1 := ring_add x0x1 x0x1 in
    let x0x1 := reshape x0x1 (shape x) in
    Ret (as_ (ring_add x0x1 (ring_mul x x)) (eltype x)).

End SquareA.

(** Modelled from the spec: [ring_mmul] of libspu/mpc/utils/ring_ops.h is not
    part of the sources; it is the (M,K) x (K,N) matrix product mod 2^k of
    two row-major buffers. *)
Definition ring_mmul (x y : NdArrayRef) : NdArrayRef :=
  let M := nth 0 (shape x) 0 in
  let K := nth 1 (shape x) 0 in
  let N := nth 1 (shape y) 0 in
  let at_ (l : list Z) (i : nat) := nth i l 0 in
  let dot (i j : nat) :=
    fold_right Z.add 0
      (map (fun k => at_ (data x) (i * Z.to_nat K + k)%nat
                     * at_ (data y) (k * Z.to_nat N + j)%nat)
         (seq 0 (Z.to_nat K))) in
  mkNdArrayRef (eltype x) [M; N]
    (flat_map (fun i => map (fun j => wrap (field_of x) (dot i j))
                          (seq 0 (Z.to_nat N)))
       (seq 0 (Z.to_nat M))).

(** [x.shape()[i]]. *)
Definition shape_at (x : NdArrayRef) (i : nat) : Z := nth i (shape x) 0.

(** [x.slice({b,0,0}, {b+1,r,c}, strides).reshape({r, c})]: batch slice [b]
    of a (B, r, c) array. *)
Definition batch_slice (x : NdArrayRef) (b : nat) (r c : Z) : NdArrayRef :=
  mkNdArrayRef (eltype x) [r; c]
    (firstn (Z.to_nat (r * c)) (skipn (b * Z.to_nat (r * c))%nat (data x))).

(** The loop over the batch dimension: slice [b] of the output receives the
    product of slice [b] of the operands. *)
Definition batch_mmul (x y : NdArrayRef) (dim4 : Z * Z * Z * Z)
  : NdArrayRef :=
  let '(B, M, K, N) := dim4 in
  mkNdArrayRef (eltype x) [B; M; N]
    (flat_map (fun b => data (ring_mmul (batch_slice x b M K)
                                        (batch_slice y b K N)))
       (seq 0 (Z.to_nat B))).

Module MatMulAA.

(** [MatMulAA::proc]. *)
Definition proc (ctx : KernelEvalContext) (x y : NdArrayRef)
  : Proto NdArrayRef :=
  if (0 =? numel x) || (0 =? numel y)
  then Ret (NdArrayRef_new (eltype x) [shape_at x 0; shape_at y 1])
  else
    let rank := getRank ctx in
    let dim3 := (shape_at x 0, shape_at x 1, shape_at y 1) in
    let conn := Primary in
    dupx <- call duplx ;;
    task <- ((if rank =? 0 then call (DotOLE x dupx dim3 true)
              else call (DotOLE y dupx dim3 false)) : Proto NdArrayRef) ;;
    x1y0 <- ((if rank =? 0 then call (DotOLE y conn dim3 false)
              else call (DotOLE x conn dim3 true)) : Proto NdArrayRef) ;;
    let ret := ring_mmul x y in
    let ret := ring_add ret x1y0 in
    Ret (as_ (ring_add ret task) (eltype x)).

End MatMulAA.

Module BatchMatMulAV.

(** [BatchMatMulAV::proc]. *)
Definition proc (ctx : KernelEvalContext) (x y : NdArrayRef)
  : Proto NdArrayRef :=
  if (0 =? numel x) || (0 =? numel y)
  then Ret (NdArrayRef_new (eltype x) [shape_at x 0; shape_at y 1])
  else
    SPU_ENFORCE ((ndim x =? 3) && (ndim y =? 3)) (
    SPU_ENFORCE (shape_at x 0 =? shape_at y 0) (
    SPU_ENFORCE (shape_at x 2 =? shape_at y 1) (
      let rank := getRank ctx in
      match as_Priv2kTy (eltype y) with
      | None => Abort
      | Some owner =>
          let dim4 :=
            (shape_at x 0, shape_at x 1, shape_at x 2, shape_at y 2) in
          if negb (rank =? owner)
          then
            out <- call (BatchDotOLE x Primary dim4 true) ;;
            Ret (as_ out (eltype x))
          else
            out <- call (BatchDotOLE y Primary dim4 false) ;;
            let out := ring_add out (batch_mmul x y dim4) in
            Ret (as_ out (eltype x))
      end))).

(** [evaluate]: the shape checks on the operands, then [proc]. *)
Definition evaluate (ctx : KernelEvalContext) (lhs rhs : NdArrayRef)
  : Proto NdArrayRef :=
  SPU_ENFORCE (ndim lhs =? ndim rhs) (
  SPU_ENFORCE (shape_at lhs 0 =? shape_at rhs 0) (
  SPU_ENFORCE (shape_at lhs 2 =? shape_at rhs 1) (
    proc ctx lhs rhs))).

End BatchMatMulAV.

Module BatchMatMulAA.

(** [BatchMatMulAA::proc]. *)
Definition proc (ctx : KernelEvalContext) (x y : NdArrayRef)
  : Proto NdArrayRef :=
  if (0 =? numel x) || (0 =? numel y)
  then Ret (NdArrayRef_new (eltype x) [shape_at x 0; shape_at y 1])
  else
    SPU_ENFORCE ((ndim x =? 3) && (ndim y =? 3)) (
    SPU_ENFORCE (shape_at x 0 =? shape_at y 0) (
    SPU_ENFORCE (shape_at x 2 =? shape_at y 1) (
      let rank := getRank ctx in
      let dim4 :=
        (shape_at x 0, shape_at x 1, shape_at x 2, shape_at y 2) in
      let conn := Primary in
      dupx <- call duplx ;;
      task <- ((if rank =? 0 then call (BatchDotOLE x dupx dim4 true)
                else call (BatchDotOLE y dupx dim4 false))
               : Proto NdArrayRef) ;;
      x1y0 <- ((if rank =? 0 then call (BatchDotOLE y conn dim4 false)
                else call (BatchDotOLE x conn dim4 true))
               : Proto NdArrayRef) ;;
      let out := batch_mmul x y dim4 in
      let out := ring_add out x1y0 in
      let out := ring_add out task in
      Ret (as_ out (eltype x))))).

Definition evaluate (ctx : KernelEvalContext) (lhs rhs : NdArrayRef)
  : Proto NdArrayRef :=
  SPU_ENFORCE (ndim lhs =? ndim rhs) (
  SPU_ENFORCE (shape_at lhs 0 =? shape_at rhs 0) (
  SPU_ENFORCE (shape_at lhs 2 =? shape_at rhs 1) (
    proc ctx lhs rhs))).

End BatchMatMulAA.

(** ** Joint runs of the two parties *)

(** The randomness of the sub-protocols: [rnd n s i] is the random value of
    slot [s], element [i], in the [n]-th joint call of a run. *)
Definition Rnd : Type := nat -> nat -> nat -> Z.

Definition masks (field : FieldType) (g : nat -> Z) (len : nat) : list Z :=
  map (fun i => wrap field (g i)) (seq 0 len).

(** An additive 2-sharing of each element of [p]: a uniformly chosen first
    share and the difference as the second. *)
Definition share_split (field : FieldType) (g : nat -> Z) (p : list Z)
  : list Z * list Z :=
  let r := masks field g (length p) in
  (r, zipWith (fun v m => wrap field (v - m)) p r).

(** An XOR 2-sharing of each bit of [p]. *)
Definition bshare_split (g : nat -> Z) (p : list Z) : list Z * list Z :=
  let r := map (fun i => g i mod 2) (seq 0 (length p)) in
  (r, zipWith Z.lxor p r).

Definition same_len (x y : NdArrayRef) : bool :=
  Nat.eqb (length (data x)) (length (data y)).

Definition shares_of (x : NdArrayRef) (t : Ty) (s : list Z * list Z)
  : NdArrayRef * NdArrayRef :=
  (mkNdArrayRef t (shape x) (fst s), mkNdArrayRef t (shape x) (snd s)).

(** Modelled from the spec: compare_prot.cc is not part of the sources.
    [Compute(input, greater_than)] returns a boolean share of 1{x > y}
    (or 1{x < y}), x being the input of rank 0 and y the input of rank 1. *)
Definition ideal_Compare (g : nat -> Z) (inp0 inp1 : NdArrayRef)
  (greater_than : bool) : NdArrayRef * NdArrayRef :=
  let bit a b := Z.b2z (if greater_than then a >? b else a <? b) in
  shares_of inp0 (BShrTy (field_of inp0) 1)
    (bshare_split g (zipWith bit (data inp0) (data inp1))).

(** Modelled from the spec: equal_prot.h/.cc are not part of the sources.
    [Compute(input, nbits)] returns a boolean share of 1{x == y} over the
    first [nbits] bits of the two inputs. *)
Definition ideal_Equal (g : nat -> Z) (inp0 inp1 : NdArrayRef) (nbits : Z)
  : NdArrayRef * NdArrayRef :=
  let bit a b := Z.b2z (a mod 2 ^ nbits =? b mod 2 ^ nbits) in
  shares_of inp0 (BShrTy (field_of inp0) 1)
    (bshare_split g (zipWith bit (data inp0) (data inp1))).

(** Modelled from the spec: the vector OLE engine is not part of the
    sources.  [MulOLE] produces an additive sharing of the element-wise
    product of the two parties' vectors. *)
Definition ideal_MulOLE (g : nat -> Z) (inp0 inp1 : NdArrayRef)
  : NdArrayRef * NdArrayRef :=
  shares_of inp0 (RingTy (field_of inp0))
    (share_split (field_of inp0) g (zipWith Z.mul (data inp0) (data inp1))).

(** Modelled from the spec: [MulShare] of the vector OLE engine produces an
    additive sharing of (x0 + x1) * (y0 + y1), element-wise. *)
Definition ideal_MulShare (g : nat -> Z) (x0 y0 x1 y1 : NdArrayRef)
  : NdArrayRef * NdArrayRef :=
  shares_of x0 (RingTy (field_of x0))
    (share_split (field_of x0) g
       (zipWith Z.mul (zipWith Z.add (data x0) (data x1))
                      (zipWith Z.add (data y0) (data y1)))).

(** Modelled from the spec: the private multiply of the OT base produces an
    additive sharing of (a0 + a1) * b, where [b] is known to the receiver. *)
Definition ideal_PrivateMulx (g : nat -> Z) (a_send a_recv b : NdArrayRef)
  : NdArrayRef * NdArrayRef :=
  shares_of a_send (RingTy (field_of a_send))
    (share_split (field_of a_send) g
       (zipWith Z.mul (zipWith Z.add (data a_send) (data a_recv)) (data b))).

(** Modelled from the spec: the correlation-material cache is not part of
    the sources.  [TakeCachedBeaver(field, numel)] hands each party its
    shares of a triple (a, b, c) with c = a * b; the cache is taken to hold
    enough material. *)
Definition ideal_Beaver (rnd : nat -> nat -> Z) (field : FieldType) (n : Z)
  : (NdArrayRef * NdArrayRef * NdArrayRef)
    * (NdArrayRef * NdArrayRef * NdArrayRef) :=
  let len := Z.to_nat n in
  let arr d := mkNdArrayRef (RingTy field) [n] d in
  let a0 := masks field (rnd 0%nat) len in
  let a1 := masks field (rnd 1%nat) len in
  let b0 := masks field (rnd 2%nat) len in
  let b1 := masks field (rnd 3%nat) len in
  let c := zipWith Z.mul (zipWith Z.add a0 a1) (zipWith Z.add b0 b1) in
  let cs := share_split field (rnd 4%nat) c in
  ((arr a0, arr b0, arr (fst cs)), (arr a1, arr b1, arr (snd cs))).

(** The answer of a pair of matching calls, one from each party; [None] when
    the two parties do not issue matching calls.  The truncation and matrix
    OLE protocols have no joint semantics here: no statement below runs them
    jointly. *)
Definition joint (rnd : Rnd) (n : nat) (c0 c1 : Call)
  : option (Result c0 * Result c1) :=
  match c0, c1 return option (Result c0 * Result c1) with
  | CompareProtocol_Compute i0 g0, CompareProtocol_Compute i1 g1 =>
      if Bool.eqb g0 g1 && same_len i0 i1
      then Some (ideal_Compare (rnd n 0%nat) i0 i1 g0) else None
  | EqualProtocol_Compute i0 nb0, EqualProtocol_Compute i1 nb1 =>
      if (nb0 =? nb1) && (nb0 <=? bits (field_of i0)) && same_len i0 i1
      then Some (ideal_Equal (rnd n 0%nat) i0 i1 nb0) else None
  | MulOLE i0 k0 e0, MulOLE i1 k1 e1 =>
      if Conn_eqb k0 k1 && xorb e0 e1 && same_len i0 i1
      then Some (ideal_MulOLE (rnd n 0%nat) i0 i1) else None
  | MulShare x0 y0 k0 e0, MulShare x1 y1 k1 e1 =>
      if Conn_eqb k0 k1 && xorb e0 e1 && same_len x0 x1 && same_len y0 y1
         && same_len x0 y0
      then Some (ideal_MulShare (rnd n 0%nat) x0 y0 x1 y1) else None
  | PrivateMulxSend a0, PrivateMulxRecv a1 b =>
      if same_len a0 a1 && same_len a1 b
      then Some (ideal_PrivateMulx (rnd n 0%nat) a0 a1 b) else None
  | PrivateMulxRecv a0 b, PrivateMulxSend a1 =>
      if same_len a0 a1 && same_len a0 b
      then let '(s, r) := ideal_PrivateMulx (rnd n 0%nat) a1 a0 b in
           Some (r, s)
      else None
  | TakeCachedBeaver f0 n0, TakeCachedBeaver f1 n1 =>
      if FieldType_eqb f0 f1 && (n0 =? n1)
      then Some (ideal_Beaver (rnd n) f0 n0) else None
  | allReduce_ADD s0, allReduce_ADD s1 =>
      if same_len s0 s1
      then Some (ring_add s0 s1, ring_add s0 s1) else None
  | duplx, duplx => Some (Duplicate, Duplicate)
  | _, _ => None
  end.

(** Both parties run their program; call [n] of one is paired with call [n]
    of the other.  [None]: a party failed, or the calls did not match. *)
Fixpoint run2 {A : Type} (rnd : Rnd) (n : nat) (p0 p1 : Proto A)
  : option (A * A) :=
  match p0, p1 with
  | Ret a0, Ret a1 => Some (a0, a1)
  | Do c0 k0, Do c1 k1 =>
      match joint rnd n c0 c1 with
      | Some (r0, r1) => run2 rnd (S n) (k0 r0) (k1 r1)
      | None => None
      end
  | _, _ => None
  end.

(** Reconstruction of an arithmetic sharing and of a boolean sharing. *)
Definition reconstruct (field : FieldType) (s : NdArrayRef * NdArrayRef)
  : list Z :=
  zipWith (fun a b => wrap field (a + b)) (data (fst s)) (data (snd s)).

Definition reconstructB (s : NdArrayRef * NdArrayRef) : list Z :=
  zipWith Z.lxor (data (fst s)) (data (snd s)).

(** The context of each party in a two-party run. *)
Definition party (rank : Z) (field : FieldType) (batch : Z)
  (env : option string) : KernelEvalContext :=
  mkCtx rank field batch env.

(** ** Vocabulary of the statements *)

(** An answerer for traces of a single party: empty arrays and the duplicate
    connection. *)
Definition no_answer (c : Call) : Result c :=
  let e := mkNdArrayRef (RingTy FM64) [0] [] in
  match c return Result c with
  | TakeCachedBeaver _ _ => (e, e, e)
  | duplx => Duplicate
  | _ => e
  end.

(** A flat array holding the elements [d]. *)
Definition vec (t : Ty) (d : list Z) : NdArrayRef :=
  mkNdArrayRef t [Z.of_nat (length d)] d.

(** Calls of the direct-OLE multiplication. *)
Definition is_MulShare (c : Call) : bool :=
  match c with MulShare _ _ _ _ => true | _ => false end.

(** Number of Beaver triples (elements) taken from the cache by a trace. *)
Fixpoint beaver_taken (t : list Call) : Z :=
  match t with
  | TakeCachedBeaver _ n :: t' => n + beaver_taken t'
  | _ :: t' => beaver_taken t'
  | [] => 0
  end.

(** The value a single party returns when its calls are answered by
    [ans]. *)
Fixpoint result {A : Type} (ans : forall c, Result c) (p : Proto A)
  : option A :=
  match p with
  | Ret a => Some a
  | Abort => None
  | Do c k => result ans (k (ans c))
  end.

(** Calls of the communicator. *)
Definition is_allReduce (c : Call) : bool :=
  match c with allReduce_ADD _ => true | _ => false end.

(** Congruence modulo the ring modulus. *)
Definition eqw (field : FieldType) (a b : Z) : Prop :=
  wrap field a = wrap field b.

(** The two parties hold an arithmetic sharing over [field]: arrays of one
    shape whose buffers have the size of the shape. *)
Definition sharing (field : FieldType) (x0 x1 : NdArrayRef) : Prop :=
  eltype x0 = AShrTy field /\ eltype x1 = AShrTy field
  /\ shape x1 = shape x0 /\ wf x0 /\ wf x1.

(** The shared value: x = (x0 + x1) mod 2^k, element by element. *)
Definition plain (field : FieldType) (x0 x1 : NdArrayRef) : list Z :=
  zipWith (fun a b => wrap field (a + b)) (data x0) (data x1).

(** A table-shaped array: element [i] is [F i]. *)
Abbreviation tab t shp n F := (mkNdArrayRef t shp (map F (seq 0 n))).

(** The product of the two shared values, (x * y) mod 2^k. *)
Definition product (field : FieldType) (x0 x1 y0 y1 : NdArrayRef) : list Z :=
  zipWith (fun a b => wrap field (a * b)) (plain field x0 x1)
    (plain field y0 y1).

(** One concrete randomness, for the examples. *)
Definition rnd_example : Rnd :=
  fun n s i => Z.of_nat (7 * n + 3 * s + i) + 12345.

(** The most significant bit of [v mod 2^k]. *)
Definition msb (k : Z) (v : Z) : Z :=
  Z.b2z (Z.testbit (v mod 2 ^ k) (k - 1)).


(** ** Kernels with a matrix operand held in full by one party *)

Module MatMulVVS.

(** [MatMulVVS::proc].  [x.eltype().as<Priv2kTy>()] is dereferenced
    unchecked; on an operand that is not private the dereference of the null
    pointer is taken as a failure of the call.  [DotOLE] without a
    connection argument runs over the primary connection. *)
Definition proc (ctx : KernelEvalContext) (x y : NdArrayRef)
  : Proto NdArrayRef :=
  let out_type := AShrTy (getDefaultField ctx) in
  if (0 =? numel x) || (0 =? numel y)
  then Ret (NdArrayRef_new out_type [shape_at x 0; shape_at y 1])
  else
    let self_rank := getRank ctx in
    match as_Priv2kTy (eltype x) with
    | None => Abort
    | Some lhs_owner =>
        let dim3 := (shape_at x 0, shape_at x 1, shape_at y 1) in
        if self_rank =? lhs_owner
        then r <- call (DotOLE x Primary dim3 true) ;; Ret (as_ r out_type)
        else r <- call (DotOLE y Primary dim3 false) ;; Ret (as_ r out_type)
    end.

End MatMulVVS.

Module MatMulAV.

(** [MatMulAV::proc]. *)
Definition proc (ctx : KernelEvalContext) (x y : NdArrayRef)
  : Proto NdArrayRef :=
  if (0 =? numel x) || (0 =? numel y)
  then Ret (NdArrayRef_new (eltype x) [shape_at x 0; shape_at y 1])
  else
    let rank := getRank ctx in
    match as_Priv2kTy (eltype y) with
    | None => Abort
    | Some owner =>
        let dim3 := (shape_at x 0, shape_at x 1, shape_at y 1) in
        if rank =? owner
        then
          out <- call (DotOLE y Primary dim3 false) ;;
          let local := ring_mmul x y in
          let out := ring_add out local in
          Ret (as_ out (eltype x))
        else
          out <- call (DotOLE x Primary dim3 true) ;;
          Ret (as_ out (eltype x))
    end.

End MatMulAV.

(** ** Joint runs with the matrix OLE engine *)

(** Modelled from the spec: the matrix OLE engine is not part of the
    sources.  [DotOLE(operand, conn, dim3, is_lhs)] produces an additive
    sharing of the (M,K) x (K,N) product of the operand passed with
    [is_lhs] set and the operand passed by the other party. *)
Definition ideal_DotOLE (g : nat -> Z) (lhs rhs : NdArrayRef)
  (dim3 : Z * Z * Z) : NdArrayRef * NdArrayRef :=
  let '(M, K, N) := dim3 in
  let p := ring_mmul (reshape lhs [M; K]) (reshape rhs [K; N]) in
  shares_of p (RingTy (field_of lhs))
    (share_split (field_of lhs) g (data p)).

(** Modelled from the spec: the batched variant produces an additive sharing
    of the (B,M,K) x (B,K,N) product, batch slice by batch slice. *)
Definition ideal_BatchDotOLE (g : nat -> Z) (lhs rhs : NdArrayRef)
  (dim4 : Z * Z * Z * Z) : NdArrayRef * NdArrayRef :=
  let p := batch_mmul lhs rhs dim4 in
  shares_of p (RingTy (field_of lhs))
    (share_split (field_of lhs) g (data p)).

Definition dim3_eqb (a b : Z * Z * Z) : bool :=
  let '(a0, a1, a2) := a in
  let '(b0, b1, b2) := b in
  (a0 =? b0) && (a1 =? b1) && (a2 =? b2).

Definition dim4_eqb (a b : Z * Z * Z * Z) : bool :=
  let '(a0, a1, a2, a3) := a in
  let '(b0, b1, b2, b3) := b in
  (a0 =? b0) && (a1 =? b1) && (a2 =? b2) && (a3 =? b3).

(** The buffer holds [n] elements. *)
Definition has_len (x : NdArrayRef) (n : Z) : bool :=
  Z.of_nat (length (data x)) =? n.

(** The answer of a pair of matrix OLE calls: the two parties must name the
    same connection and dimensions, exactly one of them passes the left
    operand, and each operand has the size the dimensions give it. *)
Definition joint_matrix (rnd : Rnd) (n : nat) (c0 c1 : Call)
  : option (Result c0 * Result c1) :=
  match c0, c1 return option (Result c0 * Result c1) with
  | DotOLE i0 k0 d0 l0, DotOLE i1 k1 d1 l1 =>
      let '(M, K, N) := d0 in
      let lhs := if l0 then i0 else i1 in
      let rhs := if l0 then i1 else i0 in
      if Conn_eqb k0 k1 && dim3_eqb d0 d1 && xorb l0 l1
         && has_len lhs (M * K) && has_len rhs (K * N)
      then Some (ideal_DotOLE (rnd n 0%nat) lhs rhs d0) else None
  | BatchDotOLE i0 k0 d0 l0, BatchDotOLE i1 k1 d1 l1 =>
      let '(B, M, K, N) := d0 in
      let lhs := if l0 then i0 else i1 in
      let rhs := if l0 then i1 else i0 in
      if Conn_eqb k0 k1 && dim4_eqb d0 d1 && xorb l0 l1
         && has_len lhs (B * M * K) && has_len rhs (B * K * N)
      then Some (ideal_BatchDotOLE (rnd n 0%nat) lhs rhs d0) else None
  | _, _ => None
  end.

(** [joint] extended to the matrix OLE calls. *)
Definition joint_dot (rnd : Rnd) (n : nat) (c0 c1 : Call)
  : option (Result c0 * Result c1) :=
  match joint_matrix rnd n c0 c1 with
  | Some r => Some r
  | None => joint rnd n c0 c1
  end.

(** The joint run of the two parties over [joint_dot]. *)
Fixpoint run2_dot {A : Type} (rnd : Rnd) (n : nat) (p0 p1 : Proto A)
  : option (A * A) :=
  match p0, p1 with
  | Ret a0, Ret a1 => Some (a0, a1)
  | Do c0 k0, Do c1 k1 =>
      match joint_dot rnd n c0 c1 with
      | Some (r0, r1) => run2_dot rnd (S n) (k0 r0) (k1 r1)
      | None => None
      end
  | _, _ => None
  end.

(** A matrix given by its row-major buffer. *)
Definition matrix (t : Ty) (rows cols : Z) (d : list Z) : NdArrayRef :=
  mkNdArrayRef t [rows; cols] d.

(** The plaintext product of two shared matrices: the product mod 2^k of
    the element-wise sums of the shares. *)
Definition mat_product (field : FieldType) (M K N : Z)
  (x0 x1 y0 y1 : list Z) : list Z :=
  data (ring_mmul
          (matrix (RingTy field) M K
             (zipWith (fun a b => wrap field (a + b)) x0 x1))
          (matrix (RingTy field) K N
             (zipWith (fun a b => wrap field (a + b)) y0 y1))).

(** Entry (i, j) of the product of a matrix with [k] columns and a matrix
    with [n] columns, the matrices given by their row-major lookups. *)
Definition dotp (k n : nat) (A B : nat -> Z) (i j : nat) : Z :=
  fold_right Z.add 0
    (map (fun t => A (i * k + t)%nat * B (t * n + j)%nat) (seq 0 k)).

(** A batch of matrices given by its row-major buffer. *)
Definition tensor3 (t : Ty) (batches rows cols : Z) (d : list Z)
  : NdArrayRef :=
  mkNdArrayRef t [batches; rows; cols] d.

(** Entry [q] of the row-major buffer of a batched product of (m, k) by
    (k, n) matrices: batch q / (m n), row and column from q mod (m n). *)
Definition bdotp (m k n : nat) (A B : nat -> Z) (q : nat) : Z :=
  let b := (q / (m * n))%nat in
  let idx := (q mod (m * n))%nat in
  dotp k n (fun i => A (b * (m * k) + i)%nat)
    (fun i => B (b * (k * n) + i)%nat) (idx / n)%nat (idx mod n)%nat.

(** ** What a party sees of a joint run *)

(** A call together with the answer the party receives to it. *)
Inductive Event : Type := Ev (c : Call) (r : Result c).

(** The joint run of [run2], recording for each party the calls it issues
    with the answers it receives, and the value it returns.  The calls and
    their answers are all that passes between a kernel and the other
    party. *)
Fixpoint views {A : Type} (rnd : Rnd) (n : nat) (p0 p1 : Proto A)
  : option ((list Event * A) * (list Event * A)) :=
  match p0, p1 with
  | Ret a0, Ret a1 => Some (([], a0), ([], a1))
  | Do c0 k0, Do c1 k1 =>
      match joint rnd n c0 c1 with
      | Some (r0, r1) =>
          match views rnd (S n) (k0 r0) (k1 r1) with
          | Some ((v0, a0), (v1, a1)) =>
              Some ((Ev c0 r0 :: v0, a0), (Ev c1 r1 :: v1, a1))
          | None => None
          end
      | None => None
      end
  | _, _ => None
  end.

(** The view of the party of rank [rank], and the two returned values. *)
Definition seen_by {A : Type} (rank : Z)
  (v : (list Event * A) * (list Event * A)) : list Event * A :=
  if rank =? 0 then fst v else snd v.

Definition outputs {A : Type} (v : (list Event * A) * (list Event * A))
  : A * A :=
  (snd (fst v), snd (snd v)).

(** The randomness [rnd] with every element's value moved by a fixed
    amount: a bijection on the randomness, so a uniform choice stays
    uniform. *)
Definition reshuffle (rnd : Rnd) (shift : nat -> Z) : Rnd :=
  fun n s i => rnd n s i + shift i.

(** * Properties *)

(** ** Lists and shapes *)

Lemma zipWith_app {A B C : Type} (f : A -> B -> C) (a b : list A)
  (c d : list B) :
  length a = length c ->
  zipWith f (a ++ b) (c ++ d) = zipWith f a c ++ zipWith f b d.
Proof.
  revert c; induction a as [|x a IH]; intros [|y c] H; simpl in *;
    try discriminate; auto.
  f_equal; apply IH; congruence.
Qed.

Lemma zipWith_map_seq {A B C : Type} (f : A -> B -> C) (a : nat -> A)
  (b : nat -> B) (s n : nat) :
  zipWith f (map a (seq s n)) (map b (seq s n))
  = map (fun i => f (a i) (b i)) (seq s n).
Proof.
  revert s; induction n as [|n IH]; intros s; simpl; auto.
  f_equal; apply IH.
Qed.

(** Every list is the table of its own lookup function. *)
Lemma list_as_table (l : list Z) :
  l = map (fun i => nth i l 0) (seq 0 (length l)).
Proof.
  induction l as [|a l IH]; simpl; auto.
  f_equal. rewrite <- seq_shift, map_map. exact IH.
Qed.

Lemma Shape_eqb_refl (s : list Z) : Shape_eqb s s = true.
Proof.
  induction s as [|a s IH]; simpl; auto.
  unfold Shape_eqb in *; simpl. now rewrite Z.eqb_refl, IH.
Qed.

Lemma modulus_pos (field : FieldType) : 0 < modulus field.
Proof. destruct field; reflexivity. Qed.

Lemma bits_pos (field : FieldType) : 32 <= bits field.
Proof. destruct field; unfold bits; simpl; lia. Qed.

Lemma wf_length (x : NdArrayRef) :
  wf x -> length (data x) = Z.to_nat (numel x).
Proof. unfold wf; intros H. rewrite <- H. now rewrite Nat2Z.id. Qed.

(** ** Truncation dispatch *)

(** The calls of [TruncA::proc], whatever the caller passes: none on an empty
    input, and otherwise one call of the truncate protocol whose meta has the
    heuristic flag fixed to [true]. *)
Lemma TruncA_trace (ans : forall c, Result c) (ctx : KernelEvalContext)
  (x : NdArrayRef) (bits : Z) (sign : SignType) :
  trace ans (TruncA.proc ctx x bits sign)
  = if numel x =? 0 then []
    else [TruncateProtocol_Compute x (mkMeta true sign bits true)].
Proof.
  unfold TruncA.proc, DispatchUnaryFunc.
  destruct (numel x =? 0); reflexivity.
Qed.

(** C7, as amended: the heuristic flag handed to the truncate protocol is
    fixed by the kernel.  Every call [TruncA::proc] issues is a call of the
    truncate protocol carrying the caller's shift count and sign hint,
    [signed_arith = true] and [use_heuristic = true]. *)
Theorem TruncA_use_heuristic_fixed :
  forall (ans : forall c, Result c) (ctx : KernelEvalContext)
         (x : NdArrayRef) (bits : Z) (sgn : SignType) (c : Call),
    In c (trace ans (TruncA.proc ctx x bits sgn)) ->
    exists inp meta,
      c = TruncateProtocol_Compute inp meta
      /\ use_heuristic meta = true
      /\ signed_arith meta = true
      /\ shift_bits meta = bits
      /\ sign meta = sgn.
Proof.
  intros ans ctx x bits sgn c H.
  rewrite TruncA_trace in H.
  destruct (numel x =? 0); simpl in H; [contradiction|].
  destruct H as [<- | []].
  eexists _, _; repeat split.
Qed.

Lemma TruncA_use_heuristic_fixed_witness :
  exists inp meta,
    TruncateProtocol_Compute (vec (AShrTy FM64) [40])
      (mkMeta true Unknown 3 true)
    = TruncateProtocol_Compute inp meta
    /\ use_heuristic meta = true
    /\ signed_arith meta = true
    /\ shift_bits meta = 3
    /\ sign meta = Unknown.
Proof.
  apply (TruncA_use_heuristic_fixed no_answer (party 0 FM64 8192 None)
           (vec (AShrTy FM64) [40]) 3 Unknown).
  simpl. left. reflexivity.
Defined.

(** C7 as stated fails: no caller of [TruncA::proc], whatever context, input,
    shift count and sign hint it passes, reaches the truncate protocol with
    the heuristic flag unset. *)
Lemma TruncA_exact_unreachable :
  ~ (exists (ans : forall c, Result c) (ctx : KernelEvalContext)
            (x : NdArrayRef) (bits : Z) (sgn : SignType)
            (inp : NdArrayRef) (meta : Meta),
        In (TruncateProtocol_Compute inp meta)
           (trace ans (TruncA.proc ctx x bits sgn))
        /\ use_heuristic meta = false).
Proof.
  intros (ans & ctx & x & bits & sgn & inp & meta & Hin & Hh).
  rewrite TruncA_trace in Hin.
  destruct (numel x =? 0); simpl in Hin; [contradiction|].
  destruct Hin as [E | []].
  inversion E; subst meta. discriminate Hh.
Qed.

(** ** Path selection of the shared-by-shared multiply *)

Lemma to_int64_small (z : Z) : - 2 ^ 63 <= z < 2 ^ 63 -> to_int64 z = z.
Proof.
  intros H. unfold to_int64. rewrite Z.mod_small; lia.
Qed.

Lemma mulDirectly_trace (ans : forall c, Result c) (ctx : KernelEvalContext)
  (x y : NdArrayRef) :
  exists a b c d e f,
    trace ans (MulAA.mulDirectly ctx x y)
    = [duplx; MulShare a b (ans duplx) (getRank ctx =? 0);
       MulShare c d e f].
Proof.
  unfold MulAA.mulDirectly. simpl. do 6 eexists. reflexivity.
Qed.

Lemma mulWithBeaver_trace (ans : forall c, Result c)
  (ctx : KernelEvalContext) (x y : NdArrayRef) :
  0 <= numel x ->
  let t := trace ans (MulAA.mulWithBeaver ctx x y) in
  beaver_taken t = numel x /\ existsb is_MulShare t = false
  /\ ~ In duplx t.
Proof.
  intros Hn. unfold MulAA.mulWithBeaver.
  destruct (numel x =? 0) eqn:E.
  - apply Z.eqb_eq in E. simpl. rewrite E. repeat split; auto.
  - cbn [trace bind call]. destruct (ans (TakeCachedBeaver _ _)) as [[a b] c].
    unfold SPU_ENFORCE. destruct (numel_of a =? numel x); simpl.
    + repeat split; try lia. intros [H|[H|[H|[]]]]; discriminate.
    + repeat split; try lia. intros [H|[]]; discriminate.
Qed.

(** C5: [MulAA::proc] takes the direct-OLE path (two [MulShare] calls, the
    first over the duplicated connection, no cached triple) exactly when
    numel >= 2 * OLEBatchSize, and otherwise the Beaver path, which calls no
    [MulShare] and takes numel cached triples. *)
Theorem MulAA_path_selection :
  forall (ans : forall c, Result c) (ctx : KernelEvalContext)
         (x y : NdArrayRef),
    shape x = shape y ->
    0 <= numel x ->
    - 2 ^ 62 <= OLEBatchSize ctx < 2 ^ 62 ->
    let t := trace ans (MulAA.proc ctx x y) in
    (numel x >= 2 * OLEBatchSize ctx ->
       MulAA.proc ctx x y = MulAA.mulDirectly ctx x y
       /\ existsb is_MulShare t = true /\ beaver_taken t = 0)
    /\ (numel x < 2 * OLEBatchSize ctx ->
       MulAA.proc ctx x y = MulAA.mulWithBeaver ctx x y
       /\ existsb is_MulShare t = false /\ beaver_taken t = numel x)
    /\ (existsb is_MulShare t = true <-> numel x >= 2 * OLEBatchSize ctx).
Proof.
  intros ans ctx x y Hs Hn Hb t. subst t.
  unfold MulAA.proc. rewrite Hs, Shape_eqb_refl. unfold SPU_ENFORCE.
  rewrite to_int64_small by lia.
  assert (D : forall a b c d e f,
             existsb is_MulShare
               [duplx; MulShare a b (ans duplx) (getRank ctx =? 0);
                MulShare c d e f] = true /\
             beaver_taken
               [duplx; MulShare a b (ans duplx) (getRank ctx =? 0);
                MulShare c d e f] = 0) by (intros; split; reflexivity).
  destruct (Z.geb_spec (numel x) (2 * OLEBatchSize ctx)) as [G|G].
  - destruct (mulDirectly_trace ans ctx x y) as (a & b & c & d & e & f & T).
    rewrite T. destruct (D a b c d e f) as [D1 D2].
    repeat split; auto; try lia.
  - destruct (mulWithBeaver_trace ans ctx x y Hn) as (B1 & B2 & _).
    repeat split; auto; try lia. rewrite B2. discriminate.
Qed.

Lemma MulAA_path_selection_witness :
  let ctx := party 0 FM64 2 None in
  let x := vec (AShrTy FM64) [1; 2; 3; 4] in
  let y := vec (AShrTy FM64) [5; 6; 7; 8] in
  let t := trace no_answer (MulAA.proc ctx x y) in
  (numel x >= 2 * OLEBatchSize ctx ->
     MulAA.proc ctx x y = MulAA.mulDirectly ctx x y
     /\ existsb is_MulShare t = true /\ beaver_taken t = 0)
  /\ (numel x < 2 * OLEBatchSize ctx ->
     MulAA.proc ctx x y = MulAA.mulWithBeaver ctx x y
     /\ existsb is_MulShare t = false /\ beaver_taken t = numel x)
  /\ (existsb is_MulShare t = true <-> numel x >= 2 * OLEBatchSize ctx).
Proof.
  apply (MulAA_path_selection no_answer (party 0 FM64 2 None)
           (vec (AShrTy FM64) [1; 2; 3; 4]) (vec (AShrTy FM64) [5; 6; 7; 8])).
  - reflexivity.
  - vm_compute. discriminate.
  - simpl. lia.
Defined.

(** ** Splitting of the cross term in the square kernel *)

Lemma calcNumel_1 (n : Z) : calcNumel [n] = n.
Proof. unfold calcNumel; simpl; lia. Qed.

Lemma slice1_all (x : NdArrayRef) :
  wf x -> data (slice1 (reshape x [numel x]) 0 (numel x)) = data x.
Proof.
  intros H. unfold slice1, reshape; simpl.
  rewrite Z.sub_0_r, <- (wf_length x H). apply firstn_all.
Qed.

Lemma slice1_halves (x : NdArrayRef) (h : Z) :
  wf x -> 0 <= h <= numel x ->
  data (slice1 (reshape x [numel x]) 0 h)
    ++ data (slice1 (reshape x [numel x]) h (numel x)) = data x.
Proof.
  intros H Hh. unfold slice1, reshape; simpl.
  rewrite Z.sub_0_r.
  rewrite (firstn_all2 (n := Z.to_nat (numel x - h))).
  - apply firstn_skipn.
  - rewrite length_skipn, (wf_length x H). lia.
Qed.

(** C10: with 1 <= numel <= 8192 the square kernel issues a single [MulOLE]
    call, over the primary connection, on a slice that is the whole input,
    and never acquires the duplicate connection; with numel > 8192 it issues
    one call on the first numel/2 elements and, after acquiring the duplicate
    connection, a second call over it on the remaining elements. *)
Theorem SquareA_split_threshold :
  forall (ans : forall c, Result c) (ctx : KernelEvalContext)
         (x : NdArrayRef),
    wf x ->
    let fx := reshape x [numel x] in
    let t := trace ans (SquareA.proc ctx x) in
    (1 <= numel x <= 8192 ->
       t = [MulOLE (slice1 fx 0 (numel x)) Primary (getRank ctx =? 0)]
       /\ data (slice1 fx 0 (numel x)) = data x
       /\ ~ In duplx t)
    /\ (8192 < numel x ->
       t = [MulOLE (slice1 fx 0 (numel x / 2)) Primary (getRank ctx =? 0);
            duplx;
            MulOLE (slice1 fx (numel x / 2) (numel x)) (ans duplx)
              (getRank ctx =? 1)]
       /\ data (slice1 fx 0 (numel x / 2))
            ++ data (slice1 fx (numel x / 2) (numel x)) = data x).
Proof.
  intros ans ctx x Hwf fx t. subst t fx. unfold SquareA.proc.
  split; intros Hn.
  - replace (numel x =? 0) with false by (symmetry; apply Z.eqb_neq; lia).
    replace (numel x <=? 8192) with true by (symmetry; apply Z.leb_le; lia).
    rewrite Z.ltb_irrefl. cbn [trace bind call].
    repeat split.
    + now apply slice1_all.
    + intros [H | []]; discriminate.
  - replace (numel x =? 0) with false by (symmetry; apply Z.eqb_neq; lia).
    replace (numel x <=? 8192) with false by (symmetry; apply Z.leb_gt; lia).
    replace (numel x / 2 <? numel x) with true
      by (symmetry; apply Z.ltb_lt; apply Z.div_lt; lia).
    cbn [trace bind call]. split; [reflexivity|].
    apply slice1_halves; [assumption|].
    split; [apply Z.div_pos; lia | apply Z.div_le_upper_bound; lia].
Qed.

Lemma SquareA_split_threshold_witness :
  (let x := vec (AShrTy FM64) [3; 4; 5] in
   let fx := reshape x [numel x] in
   let t := trace no_answer (SquareA.proc (party 1 FM64 8192 None) x) in
   1 <= numel x <= 8192 /\
   t = [MulOLE (slice1 fx 0 (numel x)) Primary false]
   /\ data (slice1 fx 0 (numel x)) = data x
   /\ ~ In duplx t)
  /\
  (let x := vec (AShrTy FM64) (repeat 7 (Z.to_nat 8194)) in
   let fx := reshape x [numel x] in
   let t := trace no_answer (SquareA.proc (party 1 FM64 8192 None) x) in
   8192 < numel x /\
   t = [MulOLE (slice1 fx 0 (numel x / 2)) Primary false;
        duplx;
        MulOLE (slice1 fx (numel x / 2) (numel x)) Duplicate true]
   /\ data (slice1 fx 0 (numel x / 2))
        ++ data (slice1 fx (numel x / 2) (numel x)) = data x).
Proof.
  split.
  - assert (W : wf (vec (AShrTy FM64) [3; 4; 5])) by reflexivity.
    assert (N : 1 <= numel (vec (AShrTy FM64) [3; 4; 5]) <= 8192)
      by (vm_compute; split; discriminate).
    split; [exact N|].
    exact (proj1 (SquareA_split_threshold no_answer
                    (party 1 FM64 8192 None) _ W) N).
  - assert (W : wf (vec (AShrTy FM64) (repeat 7 (Z.to_nat 8194))))
      by (vm_compute; reflexivity).
    assert (N : 8192 < numel (vec (AShrTy FM64) (repeat 7 (Z.to_nat 8194))))
      by (vm_compute; reflexivity).
    split; [exact N|].
    exact (proj2 (SquareA_split_threshold no_answer
                    (party 1 FM64 8192 None) _ W) N).
Defined.

(** ** Routing of a private operand *)

(** The calls of one party in the kernels mixing a share with a private
    operand, whatever answers it receives.  [MulA1BV]: the non-owner issues
    exactly the private-multiply send call on its arithmetic share, and its
    whole program is the same for every content of the private operand; the
    owner issues exactly the receive call.  [MulAV]: the non-owner issues
    exactly one OLE call, as evaluator, on its own share and returns the OLE
    share; the owner issues the OLE call on the private value as
    non-evaluator and adds the local product of its share and the private
    value.  Neither kernel issues a communicator call of its own. *)
Lemma private_operand_calls :
  forall (ans : forall c, Result c) (ctx : KernelEvalContext)
         (x y : NdArrayRef) (field : FieldType) (owner : Z),
    eltype y = Priv2kTy field owner ->
    shape x = shape y ->
    numel x <> 0 ->
    let fx := reshape x [numel x] in
    let fy := reshape y [numel x] in
    (getRank ctx <> owner ->
       trace ans (MulA1BV.proc ctx x y) = [PrivateMulxSend x]
       /\ (forall y', eltype y' = eltype y -> shape y' = shape y ->
             MulA1BV.proc ctx x y' = MulA1BV.proc ctx x y)
       /\ trace ans (MulAV.proc ctx x y) = [MulOLE fx Primary true]
       /\ (forall y', eltype y' = eltype y -> shape y' = shape y ->
             MulAV.proc ctx x y' = MulAV.proc ctx x y)
       /\ result ans (MulAV.proc ctx x y)
          = Some (as_ (reshape (ans (MulOLE fx Primary true)) (shape x))
                    (eltype x)))
    /\ (getRank ctx = owner ->
       trace ans (MulA1BV.proc ctx x y) = [PrivateMulxRecv x y]
       /\ trace ans (MulAV.proc ctx x y) = [MulOLE fy Primary false]
       /\ result ans (MulAV.proc ctx x y)
          = Some (as_ (reshape
                         (ring_add (ans (MulOLE fy Primary false))
                            (ring_mul fx fy))
                         (shape x))
                    (eltype x)))
    /\ existsb is_allReduce (trace ans (MulA1BV.proc ctx x y)) = false
    /\ existsb is_allReduce (trace ans (MulAV.proc ctx x y)) = false.
Proof.
  intros ans ctx x y field owner Ht Hs Hn fx fy. subst fx fy.
  apply Z.eqb_neq in Hn.
  assert (Hsh : Shape_eqb (shape x) (shape y) = true)
    by (rewrite Hs; apply Shape_eqb_refl).
  assert (I1 : forall y', eltype y' = eltype y -> shape y' = shape y ->
                 getRank ctx <> owner ->
                 MulA1BV.proc ctx x y' = MulA1BV.proc ctx x y
                 /\ MulAV.proc ctx x y' = MulAV.proc ctx x y).
  { intros y' Hty Hsy Hr.
    unfold MulA1BV.proc, MulAV.proc, DispatchUnaryFunc, DispatchBinaryFunc,
      SPU_ENFORCE.
    rewrite Hty, Hsy, Hsh, Ht, Hn. cbn [as_Priv2kTy].
    destruct (Z.eqb_spec (getRank ctx) owner) as [E|E]; [contradiction|].
    split; reflexivity. }
  unfold MulA1BV.proc, MulAV.proc, DispatchUnaryFunc, DispatchBinaryFunc,
    SPU_ENFORCE in *.
  rewrite Hsh, Ht, Hn in *. cbn [as_Priv2kTy] in *.
  destruct (Z.eqb_spec (getRank ctx) owner) as [E|E]; cbn [negb] in *.
  - repeat split; try reflexivity; intros; contradiction.
  - repeat split; try reflexivity; try (intros; contradiction).
    + intros y' Hty Hsy. now apply I1.
    + intros y' Hty Hsy. now apply I1.
Qed.


(** ** Matrix products with an empty operand *)

(** The 2-D kernel: an empty operand gives an (M, N) array and no call. *)
Lemma MatMulAA_empty (ans : forall c, Result c) (ctx : KernelEvalContext)
  (x y : NdArrayRef) (M K N : Z) :
  shape x = [M; K] -> shape y = [K; N] ->
  numel x = 0 \/ numel y = 0 ->
  exists r, MatMulAA.proc ctx x y = Ret r
            /\ shape r = [M; N]
            /\ trace ans (MatMulAA.proc ctx x y) = [].
Proof.
  intros Hx Hy H0. unfold MatMulAA.proc.
  assert (E : (0 =? numel x) || (0 =? numel y) = true).
  { apply orb_true_iff. destruct H0 as [H|H]; rewrite H; auto. }
  rewrite E. eexists; repeat split.
  unfold shape_at; rewrite Hx, Hy; reflexivity.
Qed.

(** The batched kernels: an empty operand gives no call either, but the
    array returned has the 2-D shape (x.shape[0], y.shape[1]) = (B, K). *)
Lemma BatchMatMul_empty (ans : forall c, Result c) (ctx : KernelEvalContext)
  (x y : NdArrayRef) (B M K N : Z) :
  shape x = [B; M; K] -> shape y = [B; K; N] ->
  numel x = 0 \/ numel y = 0 ->
  (exists r, BatchMatMulAA.evaluate ctx x y = Ret r
             /\ shape r = [B; K] /\ shape r <> [B; M; N]
             /\ trace ans (BatchMatMulAA.evaluate ctx x y) = [])
  /\ (exists r, BatchMatMulAV.evaluate ctx x y = Ret r
             /\ shape r = [B; K] /\ shape r <> [B; M; N]
             /\ trace ans (BatchMatMulAV.evaluate ctx x y) = []).
Proof.
  intros Hx Hy H0.
  assert (E : (0 =? numel x) || (0 =? numel y) = true).
  { apply orb_true_iff. destruct H0 as [H|H]; rewrite H; auto. }
  unfold BatchMatMulAA.evaluate, BatchMatMulAV.evaluate,
    BatchMatMulAA.proc, BatchMatMulAV.proc, SPU_ENFORCE, ndim, shape_at.
  rewrite Hx, Hy, E. cbn [length nth]. rewrite !Z.eqb_refl.
  split; eexists; repeat split; simpl; discriminate.
Qed.

(** C6 at a failing input: x of shape (2,3,0) and y of shape (2,0,5), both
    empty.  Both batched kernels return without any call, but the array they
    return has shape (2,0), not the (2,3,5) of the product; the 2-D kernel
    on (3,0) x (0,5) returns shape (3,5). *)
Theorem BatchMatMul_empty_shape_mismatch :
  let ctx := party 0 FM64 8192 None in
  let x := mkNdArrayRef (AShrTy FM64) [2; 3; 0] [] in
  let y := mkNdArrayRef (AShrTy FM64) [2; 0; 5] [] in
  let yv := mkNdArrayRef (Priv2kTy FM64 1) [2; 0; 5] [] in
  let x2 := mkNdArrayRef (AShrTy FM64) [3; 0] [] in
  let y2 := mkNdArrayRef (AShrTy FM64) [0; 5] [] in
  numel x = 0
  /\ option_map shape (result no_answer (BatchMatMulAA.evaluate ctx x y))
     = Some [2; 0]
  /\ option_map shape (result no_answer (BatchMatMulAV.evaluate ctx x yv))
     = Some [2; 0]
  /\ trace no_answer (BatchMatMulAA.evaluate ctx x y) = []
  /\ trace no_answer (BatchMatMulAV.evaluate ctx x yv) = []
  /\ option_map shape (result no_answer (MatMulAA.proc ctx x2 y2))
     = Some [3; 5]
  /\ trace no_answer (MatMulAA.proc ctx x2 y2) = [].
Proof. repeat split. Qed.

(** The branch of [BatchMatMulAA::proc] for operands that are not empty
    allocates its output with shape (B, M, N). *)
Lemma BatchMatMulAA_nonempty_shape :
  let ctx := party 0 FM64 8192 None in
  let x := mkNdArrayRef (AShrTy FM64) [1; 2; 1] [3; 4] in
  let y := mkNdArrayRef (AShrTy FM64) [1; 1; 2] [5; 6] in
  option_map shape (result no_answer (BatchMatMulAA.evaluate ctx x y))
  = Some [1; 2; 2].
Proof. reflexivity. Qed.

(** ** The significant-bit hint of the plaintext equality *)

Lemma to_int_small (z : Z) : - 2 ^ 31 <= z < 2 ^ 31 -> to_int z = z.
Proof. intros H. unfold to_int. rewrite Z.mod_small; lia. Qed.

Lemma elsize_bits (x : NdArrayRef) :
  to_int (elsize x * 8) = elsize x * 8 /\ 32 <= elsize x * 8 <= 128.
Proof.
  unfold elsize. destruct (Ty_field (eltype x)); simpl; split;
    try reflexivity; lia.
Qed.

(** The variable is absent: the hint stays 0. *)
Lemma iequal_bits_absent (ctx : KernelEvalContext) (x : NdArrayRef) :
  getenv_SPU_BB_SET_IEQUAL_BITS ctx = None -> EqualAP.iequal_bits ctx x = 0.
Proof. unfold EqualAP.iequal_bits. now intros ->. Qed.

(** The parse stops before the end of the value: the hint stays 0. *)
Lemma iequal_bits_trailing (ctx : KernelEvalContext) (x : NdArrayRef)
  (s : string) :
  getenv_SPU_BB_SET_IEQUAL_BITS ctx = Some s ->
  at_NUL (snd (strtol s)) = false ->
  EqualAP.iequal_bits ctx x = 0.
Proof.
  unfold EqualAP.iequal_bits. intros -> H.
  destruct (strtol s) as [v r]. simpl in H. now rewrite H.
Qed.

(** Whatever the variable holds, the hint lies in [0, 8 * elsize]. *)
Lemma iequal_bits_range (ctx : KernelEvalContext) (x : NdArrayRef) :
  0 <= EqualAP.iequal_bits ctx x <= 8 * elsize x.
Proof.
  unfold EqualAP.iequal_bits.
  destruct (elsize_bits x) as [E R].
  destruct (getenv_SPU_BB_SET_IEQUAL_BITS ctx) as [s|]; [|lia].
  destruct (strtol s) as [v r]. destruct (at_NUL r); [|lia].
  rewrite E. lia.
Qed.

(** A value parsed to the end that fits the 32-bit [int] is clamped. *)
Lemma iequal_bits_clamp (ctx : KernelEvalContext) (x : NdArrayRef)
  (s : string) :
  getenv_SPU_BB_SET_IEQUAL_BITS ctx = Some s ->
  at_NUL (snd (strtol s)) = true ->
  - 2 ^ 31 <= fst (strtol s) < 2 ^ 31 ->
  EqualAP.iequal_bits ctx x = Z.min (8 * elsize x) (Z.max (fst (strtol s)) 0).
Proof.
  unfold EqualAP.iequal_bits. intros -> H Hv.
  destruct (strtol s) as [v r]. cbn [fst snd] in *. rewrite H.
  destruct (elsize_bits x) as [E _]. rewrite E, to_int_small by lia.
  now rewrite (Z.mul_comm 8).
Qed.

(** C9 at a failing input: the value 4294967301 (2^32 + 5) parses to the
    end, the clamp of the parsed value into [0, 64] is 64, and the hint the
    kernel computes is 5, because the parsed [long] is narrowed to [int]
    before the clamp. *)
Theorem iequal_bits_narrowed_before_clamp :
  let ctx := party 0 FM64 8192 (Some "4294967301"%string) in
  let x := vec (AShrTy FM64) [2; 7] in
  strtol "4294967301" = (4294967301, EmptyString)
  /\ Z.min (8 * elsize x) (Z.max 4294967301 0) = 64
  /\ EqualAP.iequal_bits ctx x = 5.
Proof. repeat split. Qed.

(** ** Arithmetic modulo 2^k *)

#[local] Instance eqw_equiv (field : FieldType) : Equivalence (eqw field).
Proof. unfold eqw; split; congruence. Qed.

#[local] Instance add_eqw (field : FieldType) :
  Proper (eqw field ==> eqw field ==> eqw field) Z.add.
Proof.
  unfold eqw, wrap; intros a b H c d H'.
  rewrite (Zplus_mod a), (Zplus_mod b). now rewrite H, H'.
Qed.

#[local] Instance sub_eqw (field : FieldType) :
  Proper (eqw field ==> eqw field ==> eqw field) Z.sub.
Proof.
  unfold eqw, wrap; intros a b H c d H'.
  rewrite (Zminus_mod a), (Zminus_mod b). now rewrite H, H'.
Qed.

#[local] Instance mul_eqw (field : FieldType) :
  Proper (eqw field ==> eqw field ==> eqw field) Z.mul.
Proof.
  unfold eqw, wrap; intros a b H c d H'.
  rewrite (Zmult_mod a), (Zmult_mod b). now rewrite H, H'.
Qed.

Lemma wrap_eqw (field : FieldType) (a : Z) : eqw field (wrap field a) a.
Proof. unfold eqw, wrap. apply Zmod_mod. Qed.

(** Closes [wrap f a = wrap f b] when [a] and [b] agree as polynomials once
    the inner reductions are dropped. *)
Ltac wrap_ring :=
  match goal with
  | |- wrap ?f ?a = wrap ?f ?b => change (eqw f a b)
  end;
  repeat setoid_rewrite wrap_eqw;
  match goal with
  | |- eqw ?f ?a ?b => replace a with b by ring; reflexivity
  end.


Lemma FieldType_eqb_refl (field : FieldType) :
  FieldType_eqb field field = true.
Proof. now destruct field. Qed.

(** ** Sharings *)

Lemma sharing_tab (field : FieldType) (x0 x1 : NdArrayRef) :
  sharing field x0 x1 ->
  exists (n : nat) (X0 X1 : nat -> Z),
    calcNumel (shape x0) = Z.of_nat n
    /\ x0 = tab (AShrTy field) (shape x0) n X0
    /\ x1 = tab (AShrTy field) (shape x0) n X1.
Proof.
  intros (T0 & T1 & S & W0 & W1).
  exists (length (data x0)), (fun i => nth i (data x0) 0),
    (fun i => nth i (data x1) 0).
  unfold wf, numel in *.
  assert (L : length (data x1) = length (data x0)).
  { rewrite S in W1. lia. }
  split; [lia|]. split.
  - rewrite <- list_as_table. destruct x0; simpl in *; congruence.
  - rewrite <- L, <- list_as_table. destruct x1; simpl in *; congruence.
Qed.

Lemma share_split_tab (field : FieldType) (g : nat -> Z) (n : nat)
  (P : nat -> Z) :
  share_split field g (map P (seq 0 n))
  = (map (fun i => wrap field (g i)) (seq 0 n),
     map (fun i => wrap field (P i - wrap field (g i))) (seq 0 n)).
Proof.
  unfold share_split, masks. rewrite length_map, length_seq.
  now rewrite zipWith_map_seq.
Qed.

Lemma bshare_split_tab (g : nat -> Z) (n : nat) (P : nat -> Z) :
  bshare_split g (map P (seq 0 n))
  = (map (fun i => g i mod 2) (seq 0 n),
     map (fun i => Z.lxor (P i) (g i mod 2)) (seq 0 n)).
Proof.
  unfold bshare_split. rewrite length_map, length_seq.
  now rewrite zipWith_map_seq.
Qed.

Lemma same_len_tab (t t' : Ty) (s s' : list Z) (n : nat) (F G : nat -> Z) :
  same_len (tab t s n F) (tab t' s' n G) = true.
Proof.
  unfold same_len; simpl. rewrite !length_map. apply Nat.eqb_refl.
Qed.

Lemma ring_binop_tab (op : Z -> Z -> Z) (t t' : Ty) (s s' : list Z)
  (n : nat) (F G : nat -> Z) :
  ring_binop op (tab t s n F) (tab t' s' n G)
  = tab t s n (fun i => wrap (Ty_field t) (op (F i) (G i))).
Proof.
  unfold ring_binop, field_of; cbn [eltype shape data].
  now rewrite zipWith_map_seq.
Qed.

Lemma reconstruct_tab (field : FieldType) (t t' : Ty) (s s' : list Z)
  (n : nat) (F G : nat -> Z) :
  reconstruct field (tab t s n F, tab t' s' n G)
  = map (fun i => wrap field (F i + G i)) (seq 0 n).
Proof.
  unfold reconstruct; cbn [fst snd data]. now rewrite zipWith_map_seq.
Qed.

Lemma reconstructB_tab (t t' : Ty) (s s' : list Z) (n : nat)
  (F G : nat -> Z) :
  reconstructB (tab t s n F, tab t' s' n G)
  = map (fun i => Z.lxor (F i) (G i)) (seq 0 n).
Proof.
  unfold reconstructB; cbn [fst snd data]. now rewrite zipWith_map_seq.
Qed.

Lemma plain_tab (field : FieldType) (t t' : Ty) (s s' : list Z) (n : nat)
  (F G : nat -> Z) :
  plain field (tab t s n F) (tab t' s' n G)
  = map (fun i => wrap field (F i + G i)) (seq 0 n).
Proof. unfold plain; cbn [data]. now rewrite zipWith_map_seq. Qed.

(** Normalisation of the ring operations on table-shaped arrays. *)
Ltac tabs :=
  unfold ring_add, ring_sub, ring_mul, reshape, as_, with_data;
  cbn [eltype shape data fst snd Ty_field];
  repeat (rewrite ring_binop_tab; cbn [eltype shape data Ty_field]).

(** ** The shared-by-shared multiply *)

Lemma mulWithBeaver_tab (field : FieldType) (rnd : Rnd) (k : nat)
  (batch : Z) (env0 env1 : option string) (shp : list Z) (n : nat)
  (X0 X1 Y0 Y1 : nat -> Z) :
  calcNumel shp = Z.of_nat n ->
  exists s,
    run2 rnd k
      (MulAA.mulWithBeaver (party 0 field batch env0)
         (tab (AShrTy field) shp n X0) (tab (AShrTy field) shp n Y0))
      (MulAA.mulWithBeaver (party 1 field batch env1)
         (tab (AShrTy field) shp n X1) (tab (AShrTy field) shp n Y1))
    = Some s
    /\ reconstruct field s
       = map (fun i => wrap field (wrap field (X0 i + X1 i)
                                   * wrap field (Y0 i + Y1 i))) (seq 0 n).
Proof.
  intros Hn. unfold MulAA.mulWithBeaver.
  unfold numel. cbn [shape]. rewrite Hn.
  destruct (Z.of_nat n =? 0) eqn:E.
  - apply Z.eqb_eq in E. assert (n = 0%nat) by lia. subst n.
    eexists; split; [reflexivity|].
    unfold reconstruct, NdArrayRef_new; cbn [data fst snd].
    rewrite Hn. reflexivity.
  - cbn [run2 bind call joint getDefaultField party getRank].
    rewrite FieldType_eqb_refl, Z.eqb_refl. cbn [andb].
    unfold ideal_Beaver. rewrite Nat2Z.id. unfold masks.
    rewrite !zipWith_map_seq. rewrite share_split_tab.
    cbn [fst snd bind]. unfold SPU_ENFORCE, numel_of, numel. cbn [shape].
    rewrite calcNumel_1, Z.eqb_refl.
    cbn [run2 bind call joint]. tabs. rewrite ?same_len_tab.
    cbn [run2 bind call joint Z.eqb]. tabs.
    eexists; split; [reflexivity|]. rewrite reconstruct_tab.
    apply map_ext; intros i. wrap_ring.
Qed.

Lemma map_seq_shift (F : nat -> Z) (h s m : nat) :
  map F (seq (s + h) m) = map (fun i => F (h + i)%nat) (seq s m).
Proof.
  revert s; induction m as [|m IH]; intros s; simpl; auto.
  f_equal; [f_equal; lia | apply (IH (S s))].
Qed.

Lemma skipn_tab (F : nat -> Z) (h n : nat) :
  (h <= n)%nat ->
  skipn h (map F (seq 0 n)) = map (fun i => F (h + i)%nat) (seq 0 (n - h)).
Proof.
  intros H. rewrite skipn_map, skipn_seq. apply map_seq_shift.
Qed.

Lemma firstn_seq_le (s h n : nat) :
  (h <= n)%nat -> firstn h (seq s n) = seq s h.
Proof.
  revert s n; induction h as [|h IH]; intros s [|n] H; simpl; auto;
    try lia.
  f_equal. apply IH. lia.
Qed.

Lemma firstn_tab (F : nat -> Z) (h n : nat) :
  (h <= n)%nat -> firstn h (map F (seq 0 n)) = map F (seq 0 h).
Proof.
  intros H. now rewrite firstn_map, firstn_seq_le.
Qed.

Lemma map_seq_split (P : nat -> Z) (h n : nat) :
  (h <= n)%nat ->
  map P (seq 0 n)
  = map P (seq 0 h) ++ map (fun i => P (h + i)%nat) (seq 0 (n - h)).
Proof.
  intros H. rewrite <- (firstn_skipn h (map P (seq 0 n))).
  now rewrite firstn_tab, skipn_tab.
Qed.

Lemma memcpy_whole (d s : list Z) (z : Z) :
  z = Z.of_nat (length s) -> length d = length s -> memcpy d 0 s z = s.
Proof.
  intros -> L. unfold memcpy. rewrite Z.add_0_l, Nat2Z.id. simpl.
  rewrite firstn_all, <- L, skipn_all. apply app_nil_r.
Qed.

Lemma memcpy_concat (d s1 s2 : list Z) (za zo zb : Z) :
  za = Z.of_nat (length s1) -> zo = za -> zb = Z.of_nat (length s2) ->
  length d = (length s1 + length s2)%nat ->
  memcpy (memcpy d 0 s1 za) zo s2 zb = s1 ++ s2.
Proof.
  intros -> -> -> L. unfold memcpy.
  rewrite Z.add_0_l, <- Nat2Z.inj_add, !Nat2Z.id. simpl.
  rewrite !firstn_all.
  rewrite firstn_app, firstn_all, Nat.sub_diag, firstn_O, app_nil_r.
  rewrite skipn_all2; [now rewrite app_nil_r|].
  rewrite length_app, length_skipn. lia.
Qed.

Lemma slice1_tab_lo (t : Ty) (s : list Z) (n h : nat) (F : nat -> Z) (z : Z) :
  (h <= n)%nat -> z = Z.of_nat h ->
  slice1 (tab t s n F) 0 z = tab t [z - 0] h F.
Proof.
  intros H ->. unfold slice1; cbn [eltype data]. rewrite Z.sub_0_r, Nat2Z.id.
  simpl skipn. now rewrite firstn_tab.
Qed.

Lemma slice1_tab_hi (t : Ty) (s : list Z) (n h : nat) (F : nat -> Z) (z : Z) :
  (h <= n)%nat -> z = Z.of_nat h ->
  slice1 (tab t s n F) z (Z.of_nat n)
  = tab t [Z.of_nat n - z] (n - h) (fun i => F (h + i)%nat).
Proof.
  intros H ->. unfold slice1; cbn [eltype data].
  rewrite <- Nat2Z.inj_sub, !Nat2Z.id by assumption.
  rewrite skipn_tab by assumption. f_equal.
  apply firstn_all2. rewrite length_map, length_seq. lia.
Qed.

Lemma mulDirectly_tab (field : FieldType) (rnd : Rnd) (k : nat)
  (batch : Z) (env0 env1 : option string) (shp : list Z) (n : nat)
  (X0 X1 Y0 Y1 : nat -> Z) :
  calcNumel shp = Z.of_nat n ->
  exists s,
    run2 rnd k
      (MulAA.mulDirectly (party 0 field batch env0)
         (tab (AShrTy field) shp n X0) (tab (AShrTy field) shp n Y0))
      (MulAA.mulDirectly (party 1 field batch env1)
         (tab (AShrTy field) shp n X1) (tab (AShrTy field) shp n Y1))
    = Some s
    /\ reconstruct field s
       = map (fun i => wrap field (wrap field (X0 i + X1 i)
                                   * wrap field (Y0 i + Y1 i))) (seq 0 n).
Proof.
  intros Hn. unfold MulAA.mulDirectly.
  unfold numel. cbn [shape reshape eltype data]. rewrite Hn, calcNumel_1.
  set (h := Z.to_nat (Z.of_nat n / 2)).
  assert (Hh : Z.of_nat n / 2 = Z.of_nat h).
  { unfold h. rewrite Z2Nat.id; [reflexivity | apply Z.div_pos; lia]. }
  assert (Hle : (h <= n)%nat).
  { apply Nat2Z.inj_le. rewrite <- Hh. apply Z.div_le_upper_bound; lia. }
  unfold reshape; cbn [eltype data].
  rewrite !(slice1_tab_lo _ _ n h) by assumption.
  rewrite !(slice1_tab_hi _ _ n h) by assumption.
  cbn [run2 bind call joint getRank party Conn_eqb Z.eqb xorb negb andb].
  rewrite !same_len_tab. cbn [andb].
  unfold ideal_MulShare, field_of. cbn [eltype data Ty_field shares_of].
  rewrite !zipWith_map_seq, !share_split_tab.
  cbn [run2 bind call joint getRank party Conn_eqb Z.eqb xorb negb andb fst snd].
  eexists; split; [reflexivity|].
  unfold reconstruct, with_data, NdArrayRef_new. cbn [fst snd data shape eltype].
  rewrite !calcNumel_1, Hn, Nat2Z.id.
  rewrite !memcpy_concat;
    rewrite ?length_map, ?length_seq, ?repeat_length; try lia.
  rewrite zipWith_app by now rewrite !length_map.
  rewrite !zipWith_map_seq.
  rewrite (map_seq_split _ h n) by assumption.
  f_equal; apply map_ext; intros i; wrap_ring.
Qed.

Lemma product_tab (field : FieldType) (t0 t1 t2 t3 : Ty)
  (s0 s1 s2 s3 : list Z) (n : nat) (X0 X1 Y0 Y1 : nat -> Z) :
  product field (tab t0 s0 n X0) (tab t1 s1 n X1) (tab t2 s2 n Y0)
    (tab t3 s3 n Y1)
  = map (fun i => wrap field (wrap field (X0 i + X1 i)
                              * wrap field (Y0 i + Y1 i))) (seq 0 n).
Proof.
  unfold product. rewrite !plain_tab. now rewrite zipWith_map_seq.
Qed.

(** Two sharings of one shape, in table form over one index range. *)
Lemma sharing_pair_tab (field : FieldType) (x0 x1 y0 y1 : NdArrayRef) :
  sharing field x0 x1 -> sharing field y0 y1 -> shape y0 = shape x0 ->
  exists (shp : list Z) (n : nat) (X0 X1 Y0 Y1 : nat -> Z),
    calcNumel shp = Z.of_nat n
    /\ x0 = tab (AShrTy field) shp n X0 /\ x1 = tab (AShrTy field) shp n X1
    /\ y0 = tab (AShrTy field) shp n Y0 /\ y1 = tab (AShrTy field) shp n Y1.
Proof.
  intros Hx Hy Hs.
  destruct (sharing_tab field x0 x1 Hx) as (n & X0 & X1 & Hn & E0 & E1).
  destruct (sharing_tab field y0 y1 Hy) as (m & Y0 & Y1 & Hm & F0 & F1).
  rewrite Hs in Hm, F0, F1.
  assert (m = n) by lia. subst m.
  exists (shape x0), n, X0, X1, Y0, Y1. auto.
Qed.

(** C1: for every field, every randomness of the sub-protocols and all
    sharings (x0, x1), (y0, y1) of one shape, the joint run of
    [MulAA::mulDirectly], of [MulAA::mulWithBeaver] and of [MulAA::proc]
    returns output shares whose sum mod 2^k is (x * y) mod 2^k, where
    x = (x0 + x1) mod 2^k and y = (y0 + y1) mod 2^k; the reconstructed
    outputs of the two paths are identical. *)
Theorem MulAA_reconstructs_product :
  forall (field : FieldType) (rnd : Rnd) (k : nat) (batch : Z)
         (env0 env1 : option string) (x0 x1 y0 y1 : NdArrayRef),
    sharing field x0 x1 -> sharing field y0 y1 -> shape y0 = shape x0 ->
    let P0 := party 0 field batch env0 in
    let P1 := party 1 field batch env1 in
    exists sd sb sp,
      run2 rnd k (MulAA.mulDirectly P0 x0 y0) (MulAA.mulDirectly P1 x1 y1)
      = Some sd
      /\ run2 rnd k (MulAA.mulWithBeaver P0 x0 y0)
           (MulAA.mulWithBeaver P1 x1 y1) = Some sb
      /\ run2 rnd k (MulAA.proc P0 x0 y0) (MulAA.proc P1 x1 y1) = Some sp
      /\ reconstruct field sd = product field x0 x1 y0 y1
      /\ reconstruct field sb = product field x0 x1 y0 y1
      /\ reconstruct field sp = product field x0 x1 y0 y1
      /\ reconstruct field sd = reconstruct field sb.
Proof.
  intros field rnd k batch env0 env1 x0 x1 y0 y1 Hx Hy Hs P0 P1.
  destruct (sharing_pair_tab field x0 x1 y0 y1 Hx Hy Hs)
    as (shp & n & X0 & X1 & Y0 & Y1 & Hn & -> & -> & -> & ->).
  destruct (mulDirectly_tab field rnd k batch env0 env1 shp n X0 X1 Y0 Y1 Hn)
    as (sd & Rd & Ed).
  destruct (mulWithBeaver_tab field rnd k batch env0 env1 shp n X0 X1 Y0 Y1
              Hn) as (sb & Rb & Eb).
  rewrite product_tab. subst P0 P1.
  assert (Rp : exists sp,
             run2 rnd k
               (MulAA.proc (party 0 field batch env0)
                  (tab (AShrTy field) shp n X0) (tab (AShrTy field) shp n Y0))
               (MulAA.proc (party 1 field batch env1)
                  (tab (AShrTy field) shp n X1) (tab (AShrTy field) shp n Y1))
             = Some sp /\ (sp = sd \/ sp = sb)).
  { unfold MulAA.proc, SPU_ENFORCE, numel. cbn [shape OLEBatchSize party].
    rewrite Shape_eqb_refl.
    destruct (calcNumel shp >=? to_int64 (2 * batch)); eauto. }
  destruct Rp as (sp & Rp & Ep).
  exists sd, sb, sp. repeat split; auto; try congruence.
  destruct Ep; subst sp; assumption.
Qed.

Lemma MulAA_reconstructs_product_witness :
  let x0 := vec (AShrTy FM64) [400] in
  let x1 := vec (AShrTy FM64) [600] in
  let y0 := vec (AShrTy FM64) [500] in
  let y1 := vec (AShrTy FM64) [499] in
  let P0 := party 0 FM64 8192 None in
  let P1 := party 1 FM64 8192 None in
  product FM64 x0 x1 y0 y1 = [999000]
  /\ exists sd sb sp,
      run2 rnd_example 0 (MulAA.mulDirectly P0 x0 y0)
        (MulAA.mulDirectly P1 x1 y1) = Some sd
      /\ run2 rnd_example 0 (MulAA.mulWithBeaver P0 x0 y0)
           (MulAA.mulWithBeaver P1 x1 y1) = Some sb
      /\ run2 rnd_example 0 (MulAA.proc P0 x0 y0) (MulAA.proc P1 x1 y1)
         = Some sp
      /\ reconstruct FM64 sd = product FM64 x0 x1 y0 y1
      /\ reconstruct FM64 sb = product FM64 x0 x1 y0 y1
      /\ reconstruct FM64 sp = product FM64 x0 x1 y0 y1
      /\ reconstruct FM64 sd = reconstruct FM64 sb.
Proof.
  split; [reflexivity|].
  apply (MulAA_reconstructs_product FM64 rnd_example 0 8192 None None
           (vec (AShrTy FM64) [400]) (vec (AShrTy FM64) [600])
           (vec (AShrTy FM64) [500]) (vec (AShrTy FM64) [499]));
    unfold sharing, wf; repeat split; reflexivity.
Defined.

(** ** The square kernel *)

Lemma map_seq_cases (A B : nat -> Z) (h n : nat) :
  (h <= n)%nat ->
  map A (seq 0 h) ++ map B (seq 0 (n - h))
  = map (fun i => if (i <? h)%nat then A i else B (i - h)%nat) (seq 0 n).
Proof.
  intros H. rewrite (map_seq_split _ h n) by assumption. f_equal.
  - apply map_ext_in. intros i Hi. apply in_seq in Hi.
    destruct (Nat.ltb_spec i h); [reflexivity | lia].
  - apply map_ext. intros i.
    destruct (Nat.ltb_spec (h + i) h); [lia|]. f_equal; lia.
Qed.

Lemma SquareA_tab (field : FieldType) (rnd : Rnd) (k : nat)
  (batch : Z) (env0 env1 : option string) (shp : list Z) (n : nat)
  (X0 X1 : nat -> Z) :
  calcNumel shp = Z.of_nat n ->
  exists s C0 C1,
    run2 rnd k
      (SquareA.proc (party 0 field batch env0) (tab (AShrTy field) shp n X0))
      (SquareA.proc (party 1 field batch env1) (tab (AShrTy field) shp n X1))
    = Some s
    /\ (forall i, wrap field (C0 i + C1 i) = wrap field (X0 i * X1 i))
    /\ data (fst s)
       = map (fun i => wrap field (wrap field (C0 i + C0 i)
                                   + wrap field (X0 i * X0 i))) (seq 0 n)
    /\ data (snd s)
       = map (fun i => wrap field (wrap field (C1 i + C1 i)
                                   + wrap field (X1 i * X1 i))) (seq 0 n).
Proof.
  intros Hn. unfold SquareA.proc.
  unfold numel. cbn [shape]. rewrite Hn.
  destruct (Z.of_nat n =? 0) eqn:E.
  - apply Z.eqb_eq in E. assert (n = 0%nat) by lia. subst n.
    exists (NdArrayRef_new (AShrTy field) shp, NdArrayRef_new (AShrTy field) shp),
      (fun _ => 0), (fun i => X0 i * X1 i).
    split; [reflexivity|]. split; [intros; reflexivity|].
    unfold NdArrayRef_new; cbn [data fst snd]. rewrite Hn. split; reflexivity.
  - unfold reshape; cbn [eltype data].
    destruct (Z.of_nat n <=? 8192) eqn:L.
    + rewrite Z.ltb_irrefl.
      rewrite !(slice1_tab_lo _ _ n n) by auto.
      cbn [run2 bind call joint getRank party Conn_eqb Z.eqb xorb negb andb].
      rewrite !same_len_tab. cbn [andb].
      unfold ideal_MulOLE, field_of. cbn [eltype data Ty_field shares_of].
      rewrite !zipWith_map_seq, !share_split_tab.
      cbn [run2 bind call joint fst snd].
      unfold with_data, NdArrayRef_new. cbn [eltype shape data].
      rewrite calcNumel_1, Nat2Z.id.
      rewrite !memcpy_whole
        by (rewrite ?length_map, ?length_seq, ?repeat_length; reflexivity).
      tabs.
      eexists _, (fun i => wrap field (rnd k 0%nat i)),
        (fun i => wrap field (X0 i * X1 i - wrap field (rnd k 0%nat i))).
      split; [reflexivity|]. cbn [fst snd data].
      split; [intros i; wrap_ring|]. split; reflexivity.
    + apply Z.leb_gt in L.
      set (h := Z.to_nat (Z.of_nat n / 2)).
      assert (Hh : Z.of_nat n / 2 = Z.of_nat h).
      { unfold h. rewrite Z2Nat.id; [reflexivity | apply Z.div_pos; lia]. }
      assert (Hlt : (h < n)%nat).
      { apply Nat2Z.inj_lt. rewrite <- Hh. apply Z.div_lt; lia. }
      assert (Hle : (h <= n)%nat) by lia.
      replace (Z.of_nat n / 2 <? Z.of_nat n) with true
        by (symmetry; apply Z.ltb_lt; lia).
      rewrite !(slice1_tab_lo _ _ n h) by assumption.
      rewrite !(slice1_tab_hi _ _ n h) by assumption.
      cbn [run2 bind call joint getRank party Conn_eqb Z.eqb xorb negb andb].
      rewrite !same_len_tab. cbn [andb].
      unfold ideal_MulOLE, field_of. cbn [eltype data Ty_field shares_of].
      rewrite !zipWith_map_seq, !share_split_tab.
      cbn [run2 bind call joint fst snd Conn_eqb xorb andb Z.eqb Pos.eqb
             shares_of].
      unfold with_data, NdArrayRef_new, numel_of, numel.
      cbn [eltype shape data].
      rewrite !calcNumel_1, Nat2Z.id.
      rewrite !memcpy_concat;
        rewrite ?length_map, ?length_seq, ?repeat_length; try lia.
      rewrite !(map_seq_cases _ _ h n) by assumption.
      tabs.
      eexists _,
        (fun i => if (i <? h)%nat then wrap field (rnd k 0%nat i)
                  else wrap field (rnd (S (S k)) 0%nat (i - h)%nat)),
        (fun i => if (i <? h)%nat
                  then wrap field (X0 i * X1 i - wrap field (rnd k 0%nat i))
                  else wrap field
                         (X0 (h + (i - h))%nat * X1 (h + (i - h))%nat
                          - wrap field (rnd (S (S k)) 0%nat (i - h)%nat))).
      split; [reflexivity|]. cbn [fst snd data].
      split; [|split; reflexivity].
      intros i. destruct (Nat.ltb_spec i h) as [Hi|Hi].
      * wrap_ring.
      * replace (h + (i - h))%nat with i by lia. wrap_ring.
Qed.

(** C4: for every field, randomness and sharing (x0, x1), the joint run of
    [SquareA::proc] returns; there are cross-term shares c0, c1 (the OLE
    outputs) with c0 + c1 = x0 * x1 mod 2^k such that party i outputs
    2 * c_i + x_i^2 mod 2^k, and the sum of the two outputs mod 2^k is
    ((x0 + x1)^2) mod 2^k. *)
Theorem SquareA_reconstructs_square :
  forall (field : FieldType) (rnd : Rnd) (k : nat) (batch : Z)
         (env0 env1 : option string) (x0 x1 : NdArrayRef),
    sharing field x0 x1 ->
    exists s c0 c1,
      run2 rnd k (SquareA.proc (party 0 field batch env0) x0)
                 (SquareA.proc (party 1 field batch env1) x1) = Some s
      /\ zipWith (fun a b => wrap field (a + b)) c0 c1
         = zipWith (fun a b => wrap field (a * b)) (data x0) (data x1)
      /\ data (fst s)
         = zipWith (fun c x => wrap field (wrap field (c + c)
                                           + wrap field (x * x)))
             c0 (data x0)
      /\ data (snd s)
         = zipWith (fun c x => wrap field (wrap field (c + c)
                                           + wrap field (x * x)))
             c1 (data x1)
      /\ reconstruct field s
         = map (fun v => wrap field (v * v)) (plain field x0 x1).
Proof.
  intros field rnd k batch env0 env1 x0 x1 Hx.
  destruct (sharing_tab field x0 x1 Hx) as (n & X0 & X1 & Hn & E0 & E1).
  set (shp := shape x0) in *. clearbody shp. subst x0 x1.
  destruct (SquareA_tab field rnd k batch env0 env1 shp n X0 X1 Hn)
    as (s & C0 & C1 & R & HC & D0 & D1).
  exists s, (map C0 (seq 0 n)), (map C1 (seq 0 n)).
  split; [exact R|]. cbn [data].
  rewrite !zipWith_map_seq, plain_tab, map_map.
  split; [apply map_ext; exact HC|].
  split; [exact D0|]. split; [exact D1|].
  unfold reconstruct. rewrite D0, D1, zipWith_map_seq.
  apply map_ext; intros i. specialize (HC i).
  change (eqw field
            (wrap field (wrap field (C0 i + C0 i) + wrap field (X0 i * X0 i))
             + wrap field (wrap field (C1 i + C1 i)
                           + wrap field (X1 i * X1 i)))
            (wrap field (X0 i + X1 i) * wrap field (X0 i + X1 i))).
  change (eqw field (C0 i + C1 i) (X0 i * X1 i)) in HC.
  repeat setoid_rewrite wrap_eqw.
  replace (C0 i + C0 i + X0 i * X0 i + (C1 i + C1 i + X1 i * X1 i))
    with ((C0 i + C1 i) + (C0 i + C1 i) + X0 i * X0 i + X1 i * X1 i) by ring.
  rewrite HC.
  replace ((X0 i + X1 i) * (X0 i + X1 i))
    with (X0 i * X1 i + X0 i * X1 i + X0 i * X0 i + X1 i * X1 i) by ring.
  reflexivity.
Qed.

Lemma SquareA_reconstructs_square_witness :
  let x0 := vec (AShrTy FM64) [400; 2 ^ 63] in
  let x1 := vec (AShrTy FM64) [600; 2 ^ 63 + 3] in
  map (fun v => wrap FM64 (v * v)) (plain FM64 x0 x1) = [1000000; 9]
  /\ exists s c0 c1,
      run2 rnd_example 0 (SquareA.proc (party 0 FM64 8192 None) x0)
                         (SquareA.proc (party 1 FM64 8192 None) x1) = Some s
      /\ zipWith (fun a b => wrap FM64 (a + b)) c0 c1
         = zipWith (fun a b => wrap FM64 (a * b)) (data x0) (data x1)
      /\ data (fst s)
         = zipWith (fun c x => wrap FM64 (wrap FM64 (c + c)
                                          + wrap FM64 (x * x)))
             c0 (data x0)
      /\ data (snd s)
         = zipWith (fun c x => wrap FM64 (wrap FM64 (c + c)
                                          + wrap FM64 (x * x)))
             c1 (data x1)
      /\ reconstruct FM64 s
         = map (fun v => wrap FM64 (v * v)) (plain FM64 x0 x1).
Proof.
  split; [reflexivity|].
  apply (SquareA_reconstructs_square FM64 rnd_example 0 8192 None None
           (vec (AShrTy FM64) [400; 2 ^ 63])
           (vec (AShrTy FM64) [600; 2 ^ 63 + 3])).
  unfold sharing, wf; repeat split; reflexivity.
Defined.

(** ** Extraction of the most significant bit *)

Lemma msb_div (k v : Z) :
  1 <= k -> msb k v = (v mod 2 ^ k) / 2 ^ (k - 1).
Proof.
  intros Hk. unfold msb.
  assert (Hp : 2 ^ k = 2 * 2 ^ (k - 1)).
  { rewrite <- Z.pow_succ_r by lia. f_equal; lia. }
  assert (Hh : 0 < 2 ^ (k - 1)) by (apply Z.pow_pos_nonneg; lia).
  pose proof (Z.mod_pos_bound v (2 ^ k) ltac:(lia)) as Hv.
  set (u := v mod 2 ^ k) in *.
  rewrite Z.testbit_odd, Z.shiftr_div_pow2 by lia.
  assert (0 <= u / 2 ^ (k - 1) < 2).
  { split; [apply Z.div_pos; lia | apply Z.div_lt_upper_bound; lia]. }
  assert (C : u / 2 ^ (k - 1) = 0 \/ u / 2 ^ (k - 1) = 1) by lia.
  destruct C as [-> | ->]; reflexivity.
Qed.

Lemma split_top (h v : Z) :
  0 < h -> 0 <= v < 2 * h ->
  v = (v / h) * h + v mod h /\ (v / h = 0 \/ v / h = 1) /\ 0 <= v mod h < h.
Proof.
  intros Hh Hv.
  pose proof (Z.div_mod v h ltac:(lia)).
  pose proof (Z.mod_pos_bound v h Hh).
  assert (0 <= v / h < 2).
  { split; [apply Z.div_pos; lia | apply Z.div_lt_upper_bound; lia]. }
  repeat split; lia.
Qed.

Lemma mod_div_case (h S q t r : Z) :
  0 < h -> S = q * (2 * h) + t * h + r -> t = 0 \/ t = 1 -> 0 <= r < h ->
  (S mod (2 * h)) / h = t.
Proof.
  intros Hh HS Ht Hr.
  assert (M : S mod (2 * h) = t * h + r).
  { symmetry. apply (Z.mod_unique S (2 * h) q); [left|]; destruct Ht; subst; lia. }
  rewrite M. symmetry. apply (Z.div_unique (t * h + r) h t r); [left|]; lia.
Qed.

Lemma msb_sum (h b0 l0 b1 l1 : Z) :
  0 < h -> 0 <= l0 < h -> 0 <= l1 < h ->
  b0 = 0 \/ b0 = 1 -> b1 = 0 \/ b1 = 1 ->
  ((b0 * h + l0 + (b1 * h + l1)) mod (2 * h)) / h
  = Z.lxor (Z.lxor (Z.b2z (l0 >? h - 1 - l1)) b0) b1.
Proof.
  intros Hh H0 H1 B0 B1.
  destruct (Z.gtb_spec l0 (h - 1 - l1)) as [C|C]; cbn [Z.b2z];
    destruct B0 as [-> | ->], B1 as [-> | ->];
    match goal with
    | |- _ = ?r => let r' := eval compute in r in change r with r'
    end;
    first [ apply (mod_div_case h _ 0 _ (l0 + l1)); lia
          | apply (mod_div_case h _ 0 _ (l0 + l1 - h)); lia
          | apply (mod_div_case h _ 1 _ (l0 + l1)); lia
          | apply (mod_div_case h _ 1 _ (l0 + l1 - h)); lia ].
Qed.

(** The arithmetic of [MsbA2B]: with shares below 2^k, the carry of the low
    k-1 bits XORed with the top bits of the two shares is the top bit of the
    sum mod 2^k. *)
Lemma msb_carry (field : FieldType) (k x0 x1 : Z) :
  1 <= k <= bits field -> 0 <= x0 < 2 ^ k -> 0 <= x1 < 2 ^ k ->
  let mask := wrap field (Z.shiftl 1 (k - 1) - 1) in
  mask = 2 ^ (k - 1) - 1
  /\ Z.lxor
       (Z.lxor (Z.b2z (MsbA2B.adjust field 0 mask x0
                       >? MsbA2B.adjust field 1 mask x1))
          (Z.shiftr x0 (k - 1)))
       (Z.shiftr x1 (k - 1))
     = msb k (x0 + x1).
Proof.
  intros Hk H0 H1 mask.
  assert (Hh : 0 < 2 ^ (k - 1)) by (apply Z.pow_pos_nonneg; lia).
  assert (Hp : 2 ^ k = 2 * 2 ^ (k - 1)).
  { rewrite <- Z.pow_succ_r by lia. f_equal; lia. }
  assert (Hw : 2 ^ (k - 1) < modulus field).
  { unfold modulus. apply Z.pow_lt_mono_r; lia. }
  assert (Hm : mask = 2 ^ (k - 1) - 1).
  { unfold mask, wrap. rewrite Z.shiftl_1_l. apply Z.mod_small. lia. }
  split; [exact Hm|]. rewrite Hm.
  set (h := 2 ^ (k - 1)) in *.
  assert (Ho : h - 1 = Z.ones (k - 1)).
  { rewrite Z.ones_equiv. unfold h. lia. }
  destruct (split_top h x0 Hh ltac:(lia)) as (E0 & B0 & L0).
  destruct (split_top h x1 Hh ltac:(lia)) as (E1 & B1 & L1).
  unfold MsbA2B.adjust. cbn [Z.eqb].
  rewrite Ho, !Z.land_ones by lia. fold h. rewrite <- Ho.
  assert (A1 : wrap field (h - 1 - x1) mod h = h - 1 - x1 mod h).
  { unfold wrap. 
    assert (D : (h | modulus field)).
    { unfold h, modulus. exists (2 ^ (bits field - (k - 1))).
      rewrite <- Z.pow_add_r by lia. f_equal; lia. }
    rewrite Z.mod_mod_divide by exact D.
    symmetry. apply (Z.mod_unique _ h (- (x1 / h))); [left; lia|].
    rewrite E1 at 1. lia. }
  rewrite A1, !Z.shiftr_div_pow2 by lia. fold h.
  rewrite msb_div by lia. fold h. rewrite Hp.
  rewrite <- msb_sum by (try assumption; lia).
  f_equal. f_equal. lia.
Qed.

Lemma MsbA2B_tab (field : FieldType) (rnd : Rnd) (k : nat)
  (batch : Z) (env0 env1 : option string) (nbits_ : Z) (shp : list Z)
  (n : nat) (X0 X1 : nat -> Z) :
  calcNumel shp = Z.of_nat n ->
  let kb := if nbits_ =? 0 then bits field else nbits_ in
  1 <= kb <= bits field ->
  (forall i, (i < n)%nat -> 0 <= X0 i < 2 ^ kb) ->
  (forall i, (i < n)%nat -> 0 <= X1 i < 2 ^ kb) ->
  exists s,
    run2 rnd k
      (MsbA2B.proc nbits_ (party 0 field batch env0)
         (tab (AShrTy field) shp n X0))
      (MsbA2B.proc nbits_ (party 1 field batch env1)
         (tab (AShrTy field) shp n X1))
    = Some s
    /\ reconstructB s = map (fun i => msb kb (X0 i + X1 i)) (seq 0 n).
Proof.
  intros Hn kb Hk H0 H1. unfold MsbA2B.proc.
  cbn [getDefaultField party getRank]. fold (bits field). fold kb.
  unfold SPU_ENFORCE.
  replace (kb <=? 8 * SizeOf field) with true
    by (symmetry; apply Z.leb_le; unfold bits in Hk; lia).
  unfold numel. cbn [shape]. rewrite Hn.
  destruct (Z.of_nat n =? 0) eqn:E.
  - apply Z.eqb_eq in E. assert (n = 0%nat) by lia. subst n.
    eexists; split; [reflexivity|].
    unfold reconstructB, NdArrayRef_new, as_; cbn [data fst snd].
    rewrite Hn. reflexivity.
  - unfold DispatchUnaryFunc, pforeach_map, ring_zeros.
    cbn [eltype shape data]. rewrite !map_map.
    cbn [run2 bind call joint Bool.eqb andb].
    rewrite same_len_tab.
    unfold ideal_Compare, field_of. cbn [eltype data Ty_field shares_of].
    rewrite zipWith_map_seq, bshare_split_tab.
    cbn [run2 bind call joint fst snd shares_of].
    unfold pforeach_zip, as_. cbn [eltype shape data].
    rewrite !zipWith_map_seq.
    eexists; split; [reflexivity|]. rewrite reconstructB_tab.
    apply map_ext_in; intros i Hi. apply in_seq in Hi.
    destruct (msb_carry field kb (X0 i) (X1 i) Hk (H0 i ltac:(lia))
                (H1 i ltac:(lia))) as [_ <-].
    set (c := Z.b2z _). set (r := rnd k 0%nat i mod 2).
    set (a := Z.shiftr (X0 i) (kb - 1)). set (b := Z.shiftr (X1 i) (kb - 1)).
    rewrite (Z.lxor_comm c r), !Z.lxor_assoc.
    rewrite <- (Z.lxor_assoc a r), (Z.lxor_comm a r), !Z.lxor_assoc.
    rewrite <- (Z.lxor_assoc r r), Z.lxor_nilpotent, Z.lxor_0_l.
    rewrite <- (Z.lxor_assoc a c), (Z.lxor_comm a c), !Z.lxor_assoc.
    reflexivity.
Qed.

Lemma MsbA2B_mask (field : FieldType) (kb : Z) :
  1 <= kb <= bits field ->
  wrap field (Z.shiftl 1 (kb - 1) - 1) = 2 ^ (kb - 1) - 1.
Proof.
  intros Hk.
  assert (Hh : 0 < 2 ^ (kb - 1)) by (apply Z.pow_pos_nonneg; lia).
  assert (Hw : 2 ^ (kb - 1) < modulus field).
  { unfold modulus. apply Z.pow_lt_mono_r; lia. }
  unfold wrap. rewrite Z.shiftl_1_l. apply Z.mod_small. lia.
Qed.

Lemma in_ring_tab (kb : Z) (t : Ty) (s : list Z) (n : nat) (F : nat -> Z) :
  in_ring kb (tab t s n F) -> forall i, (i < n)%nat -> 0 <= F i < 2 ^ kb.
Proof.
  unfold in_ring; cbn [data]. intros H i Hi.
  rewrite Forall_forall in H. apply H, in_map, in_seq. lia.
Qed.

(** C2: let k be the bit count of the kernel (the ring width when [nbits_]
    is 0) and (x0, x1) shares below 2^k.  The joint run of [MsbA2B::proc]
    returns boolean shares whose XOR is the most significant bit of
    (x0 + x1) mod 2^k.  On an input that is not empty each party issues one
    call of the compare protocol, with [greater_than] set; its operand is
    x0 & (2^(k-1) - 1) at rank 0 and (2^(k-1) - 1 - x1) & (2^(k-1) - 1), the
    difference taken in the unsigned ring type, at rank 1; the output of a
    party is the answer XORed with its share shifted right by k - 1. *)
Theorem MsbA2B_reconstructs_msb :
  forall (field : FieldType) (rnd : Rnd) (k : nat) (batch : Z)
         (env0 env1 : option string) (nbits_ : Z) (x0 x1 : NdArrayRef),
    sharing field x0 x1 ->
    let kb := if nbits_ =? 0 then bits field else nbits_ in
    let mask := 2 ^ (kb - 1) - 1 in
    let P0 := party 0 field batch env0 in
    let P1 := party 1 field batch env1 in
    1 <= kb <= bits field ->
    in_ring kb x0 -> in_ring kb x1 ->
    (exists s,
        run2 rnd k (MsbA2B.proc nbits_ P0 x0) (MsbA2B.proc nbits_ P1 x1)
        = Some s
        /\ reconstructB s
           = map (msb kb) (zipWith Z.add (data x0) (data x1)))
    /\ (numel x0 <> 0 ->
        forall ans : forall c, Result c,
          let op0 := mkNdArrayRef (RingTy field) (shape x0)
                       (map (fun v => Z.land v mask) (data x0)) in
          let op1 := mkNdArrayRef (RingTy field) (shape x1)
                       (map (fun v => Z.land (wrap field (mask - v)) mask)
                          (data x1)) in
          trace ans (MsbA2B.proc nbits_ P0 x0)
          = [CompareProtocol_Compute op0 true]
          /\ trace ans (MsbA2B.proc nbits_ P1 x1)
             = [CompareProtocol_Compute op1 true]
          /\ result ans (MsbA2B.proc nbits_ P0 x0)
             = Some (mkNdArrayRef (BShrTy field 1)
                       (shape (ans (CompareProtocol_Compute op0 true)))
                       (zipWith (fun c v => Z.lxor c (Z.shiftr v (kb - 1)))
                          (data (ans (CompareProtocol_Compute op0 true)))
                          (data x0)))
          /\ result ans (MsbA2B.proc nbits_ P1 x1)
             = Some (mkNdArrayRef (BShrTy field 1)
                       (shape (ans (CompareProtocol_Compute op1 true)))
                       (zipWith (fun c v => Z.lxor c (Z.shiftr v (kb - 1)))
                          (data (ans (CompareProtocol_Compute op1 true)))
                          (data x1)))).
Proof.
  intros field rnd k batch env0 env1 nbits_ x0 x1 Hx kb mask P0 P1 Hk R0 R1.
  split.
  - destruct (sharing_tab field x0 x1 Hx) as (n & X0 & X1 & Hn & E0 & E1).
    set (shp := shape x0) in *. clearbody shp. subst x0 x1.
    destruct (MsbA2B_tab field rnd k batch env0 env1 nbits_ shp n X0 X1 Hn
                Hk (in_ring_tab _ _ _ _ _ R0) (in_ring_tab _ _ _ _ _ R1))
      as (s & Rs & Es).
    exists s. split; [exact Rs|]. rewrite Es. cbn [data].
    now rewrite zipWith_map_seq, map_map.
  - intros Hne ans op0 op1. subst op0 op1 P0 P1.
    destruct Hx as (_ & _ & Hs & _ & _).
    assert (Hne1 : numel x1 <> 0) by (unfold numel in *; now rewrite Hs).
    apply Z.eqb_neq in Hne, Hne1.
    unfold MsbA2B.proc, SPU_ENFORCE, DispatchUnaryFunc.
    cbn [getDefaultField party getRank]. fold (bits field). fold kb.
    replace (kb <=? 8 * SizeOf field) with true
      by (symmetry; apply Z.leb_le; unfold bits in Hk; lia).
    rewrite Hne, Hne1, (MsbA2B_mask field kb Hk). fold mask.
    repeat split.
Qed.
(** ** Equality *)

Lemma mod_eq_iff (m a b : Z) :
  0 < m -> (a mod m = b mod m <-> (a - b) mod m = 0).
Proof.
  intros Hm. split; intros H.
  - rewrite Zminus_mod, H, Z.sub_diag. apply Z.mod_0_l. lia.
  - apply Z.mod_divide in H; [|lia]. destruct H as [q Hq].
    replace a with (b + q * m) by lia. apply Z.mod_add. lia.
Qed.

Lemma pow2_divide_modulus (field : FieldType) (kb : Z) :
  0 <= kb <= bits field -> (2 ^ kb | modulus field).
Proof.
  intros H. unfold modulus. exists (2 ^ (bits field - kb)).
  rewrite <- Z.pow_add_r by lia. f_equal; lia.
Qed.

(** The arithmetic of [EqualAA]: x0 - y0 = y1 - x1 exactly when
    x0 + x1 = y0 + y1, modulo any power of two up to the ring modulus. *)
Lemma equal_adjust (field : FieldType) (kb x0 x1 y0 y1 : Z) :
  0 <= kb <= bits field ->
  (wrap field (x0 - y0) mod 2 ^ kb =? wrap field (y1 - x1) mod 2 ^ kb)
  = ((x0 + x1) mod 2 ^ kb =? (y0 + y1) mod 2 ^ kb).
Proof.
  intros Hk. unfold wrap.
  rewrite !Z.mod_mod_divide by now apply pow2_divide_modulus.
  assert (Hm : 0 < 2 ^ kb) by (apply Z.pow_pos_nonneg; lia).
  destruct (Z.eqb_spec ((x0 - y0) mod 2 ^ kb) ((y1 - x1) mod 2 ^ kb)) as [E|E];
    destruct (Z.eqb_spec ((x0 + x1) mod 2 ^ kb) ((y0 + y1) mod 2 ^ kb))
      as [F|F]; try reflexivity; exfalso;
    rewrite mod_eq_iff in E, F by assumption;
    [apply F | apply E];
    match goal with
    | H : ?a mod _ = 0 |- ?b mod _ = 0 => replace b with a by ring; exact H
    end.
Qed.

Lemma EqualAA_tab (field : FieldType) (rnd : Rnd) (k : nat)
  (batch : Z) (env0 env1 : option string) (nbits_ : Z) (t0 t1 : Ty)
  (shp : list Z) (n : nat) (X0 X1 Y0 Y1 : nat -> Z) :
  calcNumel shp = Z.of_nat n ->
  Ty_field t1 = field ->
  let kb := if nbits_ =? 0 then bits field else nbits_ in
  0 <= kb <= bits field ->
  exists s,
    run2 rnd k
      (EqualAA.proc nbits_ (party 0 field batch env0)
         (tab (AShrTy field) shp n X0) (tab t0 shp n Y0))
      (EqualAA.proc nbits_ (party 1 field batch env1)
         (tab (AShrTy field) shp n X1) (tab t1 shp n Y1))
    = Some s
    /\ reconstructB s
       = map (fun i => Z.b2z ((X0 i + X1 i) mod 2 ^ kb
                              =? (Y0 i + Y1 i) mod 2 ^ kb)) (seq 0 n).
Proof.
  intros Hn Ht kb Hk. unfold EqualAA.proc, SPU_ENFORCE.
  cbn [shape getDefaultField party getRank]. rewrite Shape_eqb_refl.
  fold (bits field). fold kb.
  replace (kb <=? 8 * SizeOf field) with true
    by (symmetry; apply Z.leb_le; unfold bits in Hk; lia).
  unfold numel. cbn [shape]. rewrite Hn.
  destruct (Z.of_nat n =? 0) eqn:E.
  - apply Z.eqb_eq in E. assert (n = 0%nat) by lia. subst n.
    eexists; split; [reflexivity|].
    unfold reconstructB, NdArrayRef_new, as_; cbn [data fst snd].
    rewrite Hn. reflexivity.
  - unfold DispatchUnaryFunc. cbn [Z.eqb]. tabs. rewrite Ht.
    cbn [run2 bind call joint]. unfold field_of. cbn [eltype Ty_field].
    rewrite Z.eqb_refl, same_len_tab.
    replace (kb <=? bits field) with true by (symmetry; apply Z.leb_le; lia).
    cbn [andb]. unfold ideal_Equal, field_of.
    cbn [eltype data Ty_field shares_of].
    rewrite zipWith_map_seq, bshare_split_tab.
    cbn [run2 bind call joint fst snd shares_of]. unfold as_.
    cbn [eltype shape data].
    eexists; split; [reflexivity|]. rewrite reconstructB_tab.
    apply map_ext; intros i.
    rewrite equal_adjust by assumption.
    rewrite (Z.lxor_comm _ (rnd k 0%nat i mod 2)), <- Z.lxor_assoc.
    now rewrite Z.lxor_nilpotent, Z.lxor_0_l.
Qed.

Lemma repeat_tab (n : nat) : repeat 0 n = map (fun _ => 0) (seq 0 n).
Proof.
  rewrite <- (length_seq n 0) at 1. generalize (seq 0 n) as l.
  induction l as [|a l IH]; simpl; congruence.
Qed.

Lemma public_tab (field : FieldType) (y : NdArrayRef) (shp : list Z)
  (n : nat) :
  wf y -> shape y = shp -> calcNumel shp = Z.of_nat n ->
  exists Y, y = tab (eltype y) shp n Y.
Proof.
  intros W S Hn. exists (fun i => nth i (data y) 0).
  unfold wf, numel in W. rewrite S, Hn in W. apply Nat2Z.inj in W.
  rewrite <- W, <- list_as_table. destruct y; simpl in *; congruence.
Qed.



Lemma iequal_bits_same (field : FieldType) (batch : Z) (env : option string)
  (r0 r1 : Z) (x0 x1 : NdArrayRef) :
  eltype x0 = AShrTy field -> eltype x1 = AShrTy field ->
  EqualAP.iequal_bits (party r1 field batch env) x1
  = EqualAP.iequal_bits (party r0 field batch env) x0
  /\ 0 <= EqualAP.iequal_bits (party r0 field batch env) x0 <= bits field.
Proof.
  intros T0 T1. split.
  - unfold EqualAP.iequal_bits, elsize. now rewrite T0, T1.
  - pose proof (iequal_bits_range (party r0 field batch env) x0) as H.
    unfold elsize in H. rewrite T0 in H. cbn [Ty_field] in H.
    unfold bits. lia.
Qed.


Lemma MsbA2B_reconstructs_msb_witness :
  let x0 := vec (AShrTy FM64) [400; 2 ^ 63; 2 ^ 63 + 5; 2 ^ 63 - 1] in
  let x1 := vec (AShrTy FM64) [600; 5; 2 ^ 63 + 6; 1] in
  exists s,
    run2 rnd_example 0 (MsbA2B.proc 0 (party 0 FM64 8192 None) x0)
      (MsbA2B.proc 0 (party 1 FM64 8192 None) x1) = Some s
    /\ reconstructB s = [0; 1; 0; 1].
Proof.
  intros x0 x1.
  assert (S : sharing FM64 x0 x1)
    by (unfold sharing, wf; repeat split; reflexivity).
  assert (K : 1 <= bits FM64 <= bits FM64) by (vm_compute; split; discriminate).
  assert (R0 : in_ring (bits FM64) x0)
    by (repeat constructor; vm_compute; congruence).
  assert (R1 : in_ring (bits FM64) x1)
    by (repeat constructor; vm_compute; congruence).
  destruct (MsbA2B_reconstructs_msb FM64 rnd_example 0 8192 None None 0
              x0 x1 S K R0 R1) as [(s & R & E) _].
  exists s. split; [exact R|]. rewrite E. reflexivity.
Defined.



(** ** Share times private operand: the two routes fit together *)

(** The two routes of [MulAV] fit together: whichever rank owns the private
    value y, the joint run returns shares of (x0 + x1) * y.  The array the
    non-owner passes in place of y carries its type and shape only. *)
Lemma MulAV_reconstructs (field : FieldType) (rnd : Rnd) (k : nat)
  (batch : Z) (env0 env1 : option string) (owner : Z) (shp : list Z)
  (n : nat) (X0 X1 Y Y' : nat -> Z) :
  calcNumel shp = Z.of_nat n ->
  owner = 0 \/ owner = 1 ->
  let y_of r := tab (Priv2kTy field owner) shp n
                  (if r =? owner then Y else Y') in
  exists s,
    run2 rnd k
      (MulAV.proc (party 0 field batch env0) (tab (AShrTy field) shp n X0)
         (y_of 0))
      (MulAV.proc (party 1 field batch env1) (tab (AShrTy field) shp n X1)
         (y_of 1))
    = Some s
    /\ reconstruct field s
       = map (fun i => wrap field ((X0 i + X1 i) * Y i)) (seq 0 n).
Proof.
  intros Hn Ho y_of. subst y_of. unfold MulAV.proc, SPU_ENFORCE.
  cbn [shape eltype as_Priv2kTy getRank party]. rewrite Shape_eqb_refl.
  unfold numel. cbn [shape]. rewrite Hn.
  destruct (Z.of_nat n =? 0) eqn:E.
  - apply Z.eqb_eq in E. assert (n = 0%nat) by lia. subst n.
    eexists; split; [reflexivity|].
    unfold reconstruct, NdArrayRef_new; cbn [data fst snd].
    rewrite Hn. reflexivity.
  - destruct Ho as [-> | ->]; cbn [Z.eqb Pos.eqb negb];
      unfold reshape; cbn [eltype data shape];
      cbn [run2 bind call joint Conn_eqb xorb andb];
      rewrite same_len_tab;
      unfold ideal_MulOLE, field_of; cbn [eltype data Ty_field shares_of];
      rewrite zipWith_map_seq, share_split_tab;
      cbn [run2 bind call joint fst snd shares_of]; tabs;
      (eexists; split; [reflexivity|]); rewrite reconstruct_tab;
      apply map_ext; intros i; wrap_ring.
Qed.

(** Likewise for [MulA1BV]: with the send/receive calls paired, the joint
    run returns shares of (a0 + a1) * b for the private bit b. *)
Lemma MulA1BV_reconstructs (field : FieldType) (rnd : Rnd) (k : nat)
  (batch : Z) (env0 env1 : option string) (owner : Z) (shp : list Z)
  (n : nat) (A0 A1 B B' : nat -> Z) :
  calcNumel shp = Z.of_nat n ->
  owner = 0 \/ owner = 1 ->
  let b_of r := tab (Priv2kTy field owner) shp n
                  (if r =? owner then B else B') in
  exists s,
    run2 rnd k
      (MulA1BV.proc (party 0 field batch env0)
         (tab (AShrTy field) shp n A0) (b_of 0))
      (MulA1BV.proc (party 1 field batch env1)
         (tab (AShrTy field) shp n A1) (b_of 1))
    = Some s
    /\ reconstruct field s
       = map (fun i => wrap field ((A0 i + A1 i) * B i)) (seq 0 n).
Proof.
  intros Hn Ho b_of. subst b_of. unfold MulA1BV.proc, SPU_ENFORCE.
  cbn [shape eltype as_Priv2kTy getRank party]. rewrite Shape_eqb_refl.
  unfold numel. cbn [shape]. rewrite Hn.
  destruct (Z.of_nat n =? 0) eqn:E.
  - apply Z.eqb_eq in E. assert (n = 0%nat) by lia. subst n.
    eexists; split; [reflexivity|].
    unfold reconstruct, NdArrayRef_new; cbn [data fst snd].
    rewrite Hn. reflexivity.
  - destruct Ho as [-> | ->]; cbn [Z.eqb Pos.eqb negb];
      unfold DispatchUnaryFunc, DispatchBinaryFunc;
      cbn [run2 bind call joint];
      rewrite !same_len_tab; cbn [andb];
      unfold ideal_PrivateMulx, field_of;
      cbn [eltype data Ty_field shares_of];
      rewrite !zipWith_map_seq, share_split_tab;
      cbn [run2 bind call joint fst snd shares_of]; tabs;
      (eexists; split; [reflexivity|]); rewrite reconstruct_tab;
      apply map_ext; intros i; wrap_ring.
Qed.

(** * Further properties of the kernels *)

(** ** Matrix products *)

Lemma flat_map_table (G : nat -> nat -> Z) (m n : nat) :
  flat_map (fun i => map (G i) (seq 0 n)) (seq 0 m)
  = map (fun idx => G (idx / n)%nat (idx mod n)%nat) (seq 0 (m * n)).
Proof.
  destruct n as [|n].
  { rewrite Nat.mul_0_r. simpl. induction (seq 0 m); simpl; auto. }
  induction m as [|m IH]; [reflexivity|].
  rewrite (seq_S m 0), flat_map_app, IH. cbn [flat_map Nat.add].
  rewrite app_nil_r.
  rewrite (map_seq_split _ (m * S n) (S m * S n)) by lia.
  f_equal. replace (S m * S n - m * S n)%nat with (S n) by lia.
  apply map_ext_in. intros t Ht. apply in_seq in Ht.
  rewrite Nat.div_add_l, Nat.div_small, Nat.add_0_r by lia.
  rewrite Nat.add_comm, Nat.Div0.mod_add, Nat.mod_small by lia.
  reflexivity.
Qed.

Lemma dotp_ext (k n : nat) (A A' B B' : nat -> Z) (i j : nat) :
  (forall t, A t = A' t) -> (forall t, B t = B' t) ->
  dotp k n A B i j = dotp k n A' B' i j.
Proof.
  intros HA HB. unfold dotp. f_equal. apply map_ext. intros t.
  now rewrite HA, HB.
Qed.

Lemma ring_mmul_table (t t' : Ty) (m k n : nat) (dx dy : list Z) :
  data (ring_mmul (matrix t (Z.of_nat m) (Z.of_nat k) dx)
                  (matrix t' (Z.of_nat k) (Z.of_nat n) dy))
  = map (fun idx =>
           wrap (Ty_field t)
             (dotp k n (fun i => nth i dx 0) (fun i => nth i dy 0)
                (idx / n)%nat (idx mod n)%nat))
      (seq 0 (m * n)).
Proof.
  unfold ring_mmul, matrix, field_of. cbn [shape eltype data nth].
  rewrite !Nat2Z.id.
  apply (flat_map_table
           (fun i j => wrap (Ty_field t)
                         (dotp k n (fun i => nth i dx 0)
                            (fun i => nth i dy 0) i j))).
Qed.

Lemma nth_plain (field : FieldType) (d0 d1 : list Z) (i : nat) :
  length d0 = length d1 ->
  nth i (zipWith (fun a b => wrap field (a + b)) d0 d1) 0
  = wrap field (nth i d0 0 + nth i d1 0).
Proof.
  revert d1 i; induction d0 as [|a d0 IH]; intros [|b d1] i H;
    simpl in H; try discriminate.
  - destruct i; reflexivity.
  - destruct i; simpl; [reflexivity | apply IH; congruence].
Qed.

(** The product is bilinear modulo 2^k. *)
Lemma dotp_bilinear (field : FieldType) (k n : nat) (A0 A1 B0 B1 : nat -> Z)
  (i j : nat) :
  eqw field
    (dotp k n (fun t => wrap field (A0 t + A1 t))
       (fun t => wrap field (B0 t + B1 t)) i j)
    (dotp k n A0 B0 i j + dotp k n A0 B1 i j + dotp k n A1 B0 i j
     + dotp k n A1 B1 i j).
Proof.
  unfold dotp. induction (seq 0 k) as [|t l IH]; cbn [map fold_right].
  - reflexivity.
  - rewrite IH. repeat setoid_rewrite wrap_eqw.
    match goal with
    | |- eqw _ ?a ?b => replace a with b by ring; reflexivity
    end.
Qed.

Lemma mat_product_table (field : FieldType) (m k n : nat)
  (x0 x1 y0 y1 : list Z) :
  length x0 = length x1 -> length y0 = length y1 ->
  mat_product field (Z.of_nat m) (Z.of_nat k) (Z.of_nat n) x0 x1 y0 y1
  = map (fun idx =>
           wrap field
             (dotp k n
                (fun t => wrap field (nth t x0 0 + nth t x1 0))
                (fun t => wrap field (nth t y0 0 + nth t y1 0))
                (idx / n)%nat (idx mod n)%nat))
      (seq 0 (m * n)).
Proof.
  intros Hx Hy. unfold mat_product. rewrite ring_mmul_table.
  apply map_ext. intros idx. cbn [Ty_field]. f_equal.
  apply dotp_ext; intros t; now apply nth_plain.
Qed.
Lemma has_len_mat (t : Ty) (r c : Z) (d : list Z) (a b : nat) :
  length d = (a * b)%nat ->
  has_len (matrix t r c d) (Z.of_nat a * Z.of_nat b) = true.
Proof.
  intros H. unfold has_len, matrix; cbn [data]. rewrite H, Nat2Z.inj_mul.
  apply Z.eqb_refl.
Qed.

Lemma ring_mmul_tab (t t' : Ty) (m k n : nat) (dx dy : list Z) :
  ring_mmul (matrix t (Z.of_nat m) (Z.of_nat k) dx)
            (matrix t' (Z.of_nat k) (Z.of_nat n) dy)
  = tab t [Z.of_nat m; Z.of_nat n] (m * n)
      (fun idx =>
         wrap (Ty_field t)
           (dotp k n (fun i => nth i dx 0) (fun i => nth i dy 0)
              (idx / n)%nat (idx mod n)%nat)).
Proof.
  change (ring_mmul (matrix t (Z.of_nat m) (Z.of_nat k) dx)
            (matrix t' (Z.of_nat k) (Z.of_nat n) dy))
    with (mkNdArrayRef t [Z.of_nat m; Z.of_nat n]
            (data (ring_mmul (matrix t (Z.of_nat m) (Z.of_nat k) dx)
                     (matrix t' (Z.of_nat k) (Z.of_nat n) dy)))).
  now rewrite ring_mmul_table.
Qed.

Lemma ideal_DotOLE_tab (g : nat -> Z) (t t' : Ty) (m k n : nat)
  (dx dy : list Z) :
  let f := Ty_field t in
  let P idx := wrap f (dotp k n (fun i => nth i dx 0) (fun i => nth i dy 0)
                         (idx / n)%nat (idx mod n)%nat) in
  ideal_DotOLE g (matrix t (Z.of_nat m) (Z.of_nat k) dx)
    (matrix t' (Z.of_nat k) (Z.of_nat n) dy)
    (Z.of_nat m, Z.of_nat k, Z.of_nat n)
  = (tab (RingTy f) [Z.of_nat m; Z.of_nat n] (m * n)
       (fun idx => wrap f (g idx)),
     tab (RingTy f) [Z.of_nat m; Z.of_nat n] (m * n)
       (fun idx => wrap f (P idx - wrap f (g idx)))).
Proof.
  intros f P. unfold ideal_DotOLE, reshape, field_of.
  cbn [eltype data matrix].
  change (mkNdArrayRef t [Z.of_nat m; Z.of_nat k] dx)
    with (matrix t (Z.of_nat m) (Z.of_nat k) dx).
  change (mkNdArrayRef t' [Z.of_nat k; Z.of_nat n] dy)
    with (matrix t' (Z.of_nat k) (Z.of_nat n) dy).
  rewrite ring_mmul_tab. cbn [data shape]. rewrite share_split_tab.
  reflexivity.
Qed.

Lemma joint_dot_DotOLE (rnd : Rnd) (c : nat) (lhs rhs : NdArrayRef)
  (conn : Conn) (M K N : Z) :
  has_len lhs (M * K) = true -> has_len rhs (K * N) = true ->
  joint_dot rnd c (DotOLE lhs conn (M, K, N) true)
    (DotOLE rhs conn (M, K, N) false)
  = Some (ideal_DotOLE (rnd c 0%nat) lhs rhs (M, K, N))
  /\ joint_dot rnd c (DotOLE rhs conn (M, K, N) false)
       (DotOLE lhs conn (M, K, N) true)
     = Some (ideal_DotOLE (rnd c 0%nat) lhs rhs (M, K, N)).
Proof.
  intros Hl Hr. unfold joint_dot, joint_matrix, dim3_eqb.
  rewrite Hl, Hr, !Z.eqb_refl. destruct conn; split; reflexivity.
Qed.

(** X1: for all shares of an (M, K) matrix x and a (K, N) matrix y with
    M, K, N > 0, the joint run of [MatMulAA::proc] returns two (M, N)
    arrays whose sum mod 2^k is the matrix product of x = x0 + x1 and
    y = y0 + y1 mod 2^k: each party adds its local product to the two
    cross-term shares of the matrix OLE calls. *)
Lemma MatMulAA_mat (field : FieldType) (rnd : Rnd) (c : nat) (batch : Z)
  (env0 env1 : option string) (m k n : nat) (x0 x1 y0 y1 : list Z) :
  (0 < m)%nat -> (0 < k)%nat -> (0 < n)%nat ->
  length x0 = (m * k)%nat -> length x1 = (m * k)%nat ->
  length y0 = (k * n)%nat -> length y1 = (k * n)%nat ->
  let M := Z.of_nat m in let K := Z.of_nat k in let N := Z.of_nat n in
  exists s,
    run2_dot rnd c
      (MatMulAA.proc (party 0 field batch env0)
         (matrix (AShrTy field) M K x0) (matrix (AShrTy field) K N y0))
      (MatMulAA.proc (party 1 field batch env1)
         (matrix (AShrTy field) M K x1) (matrix (AShrTy field) K N y1))
    = Some s
    /\ reconstruct field s = mat_product field M K N x0 x1 y0 y1
    /\ shape (fst s) = [M; N] /\ shape (snd s) = [M; N].
Proof.
  intros Hm Hk Hn Lx0 Lx1 Ly0 Ly1 M K N. subst M K N.
  rewrite mat_product_table by congruence.
  unfold MatMulAA.proc, numel, shape_at.
  cbn [shape matrix nth calcNumel fold_right].
  replace (0 =? Z.of_nat m * (Z.of_nat k * 1)) with false
    by (symmetry; apply Z.eqb_neq; nia).
  replace (0 =? Z.of_nat k * (Z.of_nat n * 1)) with false
    by (symmetry; apply Z.eqb_neq; nia).
  cbn [orb getRank party Z.eqb].
  cbn [run2_dot bind call].
  change (joint_dot rnd c duplx duplx) with (Some (Duplicate, Duplicate)).
  cbn iota beta.
  fold (matrix (AShrTy field) (Z.of_nat m) (Z.of_nat k) x0).
  fold (matrix (AShrTy field) (Z.of_nat m) (Z.of_nat k) x1).
  fold (matrix (AShrTy field) (Z.of_nat k) (Z.of_nat n) y0).
  fold (matrix (AShrTy field) (Z.of_nat k) (Z.of_nat n) y1).
  rewrite (proj1 (joint_dot_DotOLE rnd (S c) _ _ Duplicate _ _ _
                    (has_len_mat _ _ _ _ _ _ Lx0) (has_len_mat _ _ _ _ _ _ Ly1))).
  rewrite ideal_DotOLE_tab. cbn [Ty_field].
  cbn [run2_dot bind call].
  rewrite (proj2 (joint_dot_DotOLE rnd (S (S c)) _ _ Primary _ _ _
                    (has_len_mat _ _ _ _ _ _ Lx1) (has_len_mat _ _ _ _ _ _ Ly0))).
  rewrite ideal_DotOLE_tab. cbn [Ty_field].
  rewrite !ring_mmul_tab. tabs.
  eexists; split; [reflexivity|]. rewrite reconstruct_tab.
  cbn [fst snd shape]. split; [|split; reflexivity].
  apply map_ext; intros idx.
  match goal with
  | |- wrap ?f ?a = wrap ?f ?b => change (eqw f a b)
  end.
  rewrite dotp_bilinear. repeat setoid_rewrite wrap_eqw.
  match goal with
  | |- eqw _ ?a ?b => replace a with b by ring; reflexivity
  end.
Qed.

Lemma dotp_linear_l (field : FieldType) (k n : nat) (A0 A1 B : nat -> Z)
  (i j : nat) :
  eqw field (dotp k n (fun t => wrap field (A0 t + A1 t)) B i j)
    (dotp k n A0 B i j + dotp k n A1 B i j).
Proof.
  unfold dotp. induction (seq 0 k) as [|t l IH]; cbn [map fold_right].
  - reflexivity.
  - rewrite IH. repeat setoid_rewrite wrap_eqw.
    match goal with
    | |- eqw _ ?a ?b => replace a with b by ring; reflexivity
    end.
Qed.

(** X2: for all shares of an (M, K) matrix x and a (K, N) matrix y private
    to either party, with M, K, N > 0, the joint run of [MatMulAV::proc]
    returns two (M, N) arrays whose sum mod 2^k is the product of x0 + x1
    and y; the array the other party holds in place of y does not enter the
    result. *)
Lemma MatMulAV_mat (field : FieldType) (rnd : Rnd) (c : nat) (batch : Z)
  (env0 env1 : option string) (owner : Z) (m k n : nat)
  (x0 x1 y y' : list Z) :
  (0 < m)%nat -> (0 < k)%nat -> (0 < n)%nat ->
  owner = 0 \/ owner = 1 ->
  length x0 = (m * k)%nat -> length x1 = (m * k)%nat ->
  length y = (k * n)%nat ->
  let M := Z.of_nat m in let K := Z.of_nat k in let N := Z.of_nat n in
  let y_of r := matrix (Priv2kTy field owner) K N
                  (if r =? owner then y else y') in
  exists s,
    run2_dot rnd c
      (MatMulAV.proc (party 0 field batch env0)
         (matrix (AShrTy field) M K x0) (y_of 0))
      (MatMulAV.proc (party 1 field batch env1)
         (matrix (AShrTy field) M K x1) (y_of 1))
    = Some s
    /\ reconstruct field s
       = data (ring_mmul
                 (matrix (RingTy field) M K
                    (zipWith (fun a b => wrap field (a + b)) x0 x1))
                 (matrix (RingTy field) K N y))
    /\ shape (fst s) = [M; N] /\ shape (snd s) = [M; N].
Proof.
  intros Hm Hk Hn Ho Lx0 Lx1 Ly M K N y_of. subst M K N y_of.
  rewrite ring_mmul_table. cbn [Ty_field].
  unfold MatMulAV.proc, numel, shape_at.
  cbn [shape eltype matrix nth calcNumel fold_right as_Priv2kTy].
  replace (0 =? Z.of_nat m * (Z.of_nat k * 1)) with false
    by (symmetry; apply Z.eqb_neq; nia).
  replace (0 =? Z.of_nat k * (Z.of_nat n * 1)) with false
    by (symmetry; apply Z.eqb_neq; nia).
  cbn [orb getRank party].
  destruct Ho as [-> | ->]; cbn [Z.eqb Pos.eqb];
    cbn [run2_dot bind call];
    fold (matrix (AShrTy field) (Z.of_nat m) (Z.of_nat k) x0);
    fold (matrix (AShrTy field) (Z.of_nat m) (Z.of_nat k) x1);
    repeat match goal with
      | |- context [mkNdArrayRef (Priv2kTy field ?o)
                      [Z.of_nat k; Z.of_nat n] ?d] =>
          fold (matrix (Priv2kTy field o) (Z.of_nat k) (Z.of_nat n) d)
      end.
  - rewrite (proj2 (joint_dot_DotOLE rnd c _ _ Primary _ _ _
                      (has_len_mat _ _ _ _ _ _ Lx1)
                      (has_len_mat _ _ _ _ _ _ Ly))).
    rewrite ideal_DotOLE_tab. cbn [Ty_field].
    rewrite !ring_mmul_tab. tabs.
    eexists; split; [reflexivity|]. rewrite reconstruct_tab.
    cbn [fst snd shape]. split; [|split; reflexivity].
    apply map_ext; intros idx.
    match goal with
    | |- wrap ?f ?a = wrap ?f ?b => change (eqw f a b)
    end.
    rewrite (dotp_ext k n (fun i => nth i (zipWith _ x0 x1) 0) _
               (fun i => nth i y 0) (fun i => nth i y 0) _ _
               (fun t => nth_plain field x0 x1 t ltac:(congruence))
               (fun t => eq_refl)).
    rewrite dotp_linear_l. repeat setoid_rewrite wrap_eqw.
    match goal with
    | |- eqw _ ?a ?b => replace a with b by ring; reflexivity
    end.
  - rewrite (proj1 (joint_dot_DotOLE rnd c _ _ Primary _ _ _
                      (has_len_mat _ _ _ _ _ _ Lx0)
                      (has_len_mat _ _ _ _ _ _ Ly))).
    rewrite ideal_DotOLE_tab. cbn [Ty_field].
    rewrite !ring_mmul_tab. tabs.
    eexists; split; [reflexivity|]. rewrite reconstruct_tab.
    cbn [fst snd shape]. split; [|split; reflexivity].
    apply map_ext; intros idx.
    match goal with
    | |- wrap ?f ?a = wrap ?f ?b => change (eqw f a b)
    end.
    rewrite (dotp_ext k n (fun i => nth i (zipWith _ x0 x1) 0) _
               (fun i => nth i y 0) (fun i => nth i y 0) _ _
               (fun t => nth_plain field x0 x1 t ltac:(congruence))
               (fun t => eq_refl)).
    rewrite dotp_linear_l. repeat setoid_rewrite wrap_eqw.
    match goal with
    | |- eqw _ ?a ?b => replace a with b by ring; reflexivity
    end.
Qed.

(** X3: for an (M, K) matrix x private to one party and a (K, N) matrix y
    held by the other, with M, K, N > 0, the joint run of
    [MatMulVVS::proc] returns two (M, N) arrays of arithmetic-share type
    whose sum mod 2^k is the product of x and y. *)
Lemma MatMulVVS_mat (field : FieldType) (rnd : Rnd) (c : nat) (batch : Z)
  (env0 env1 : option string) (lhs_owner : Z) (ty : Ty) (m k n : nat)
  (x x' y y' : list Z) :
  (0 < m)%nat -> (0 < k)%nat -> (0 < n)%nat ->
  lhs_owner = 0 \/ lhs_owner = 1 ->
  length x = (m * k)%nat -> length y = (k * n)%nat ->
  let M := Z.of_nat m in let K := Z.of_nat k in let N := Z.of_nat n in
  let x_of r := matrix (Priv2kTy field lhs_owner) M K
                  (if r =? lhs_owner then x else x') in
  let y_of r := matrix ty K N (if r =? lhs_owner then y' else y) in
  exists s,
    run2_dot rnd c
      (MatMulVVS.proc (party 0 field batch env0) (x_of 0) (y_of 0))
      (MatMulVVS.proc (party 1 field batch env1) (x_of 1) (y_of 1))
    = Some s
    /\ reconstruct field s
       = data (ring_mmul (matrix (RingTy field) M K x)
                 (matrix (RingTy field) K N y))
    /\ shape (fst s) = [M; N] /\ shape (snd s) = [M; N]
    /\ eltype (fst s) = AShrTy field /\ eltype (snd s) = AShrTy field.
Proof.
  intros Hm Hk Hn Ho Lx Ly M K N x_of y_of. subst M K N x_of y_of.
  rewrite ring_mmul_table. cbn [Ty_field].
  unfold MatMulVVS.proc, numel, shape_at.
  cbn [shape eltype matrix nth calcNumel fold_right as_Priv2kTy].
  replace (0 =? Z.of_nat m * (Z.of_nat k * 1)) with false
    by (symmetry; apply Z.eqb_neq; nia).
  replace (0 =? Z.of_nat k * (Z.of_nat n * 1)) with false
    by (symmetry; apply Z.eqb_neq; nia).
  cbn [orb getRank party getDefaultField].
  destruct Ho as [-> | ->]; cbn [Z.eqb Pos.eqb];
    cbn [run2_dot bind call];
    repeat match goal with
      | |- context [mkNdArrayRef ?t [Z.of_nat ?a; Z.of_nat ?b] ?d] =>
          fold (matrix t (Z.of_nat a) (Z.of_nat b) d)
      end.
  - rewrite (proj1 (joint_dot_DotOLE rnd c _ _ Primary _ _ _
                      (has_len_mat _ _ _ _ _ _ Lx)
                      (has_len_mat _ _ _ _ _ _ Ly))).
    rewrite ideal_DotOLE_tab. cbn [Ty_field]. tabs.
    eexists; split; [reflexivity|]. rewrite reconstruct_tab.
    cbn [fst snd shape eltype]. split; [|repeat split].
    apply map_ext; intros idx. wrap_ring.
  - rewrite (proj2 (joint_dot_DotOLE rnd c _ _ Primary _ _ _
                      (has_len_mat _ _ _ _ _ _ Lx)
                      (has_len_mat _ _ _ _ _ _ Ly))).
    rewrite ideal_DotOLE_tab. cbn [Ty_field]. tabs.
    eexists; split; [reflexivity|]. rewrite reconstruct_tab.
    cbn [fst snd shape eltype]. split; [|repeat split].
    apply map_ext; intros idx. wrap_ring.
Qed.
Lemma dotp_slice (m k n b : nat) (dx dy : list Z) (idx : nat) :
  (idx < m * n)%nat ->
  dotp k n
    (fun i => nth i (firstn (m * k) (skipn (b * (m * k)) dx)) 0)
    (fun i => nth i (firstn (k * n) (skipn (b * (k * n)) dy)) 0)
    (idx / n)%nat (idx mod n)%nat
  = dotp k n (fun i => nth (b * (m * k) + i) dx 0)
      (fun i => nth (b * (k * n) + i) dy 0) (idx / n)%nat (idx mod n)%nat.
Proof.
  intros Hidx. unfold dotp. f_equal. apply map_ext_in. intros t Ht.
  apply in_seq in Ht.
  assert (Hn : (0 < n)%nat) by (destruct n; lia).
  assert (Hi : (idx / n < m)%nat) by (apply Nat.Div0.div_lt_upper_bound; lia).
  assert (Hj : (idx mod n < n)%nat) by (apply Nat.mod_upper_bound; lia).
  rewrite !nth_firstn, !nth_skipn.
  replace (idx / n * k + t <? m * k)%nat with true
    by (symmetry; apply Nat.ltb_lt; nia).
  replace (t * n + idx mod n <? k * n)%nat with true
    by (symmetry; apply Nat.ltb_lt; nia).
  reflexivity.
Qed.

Lemma batch_mmul_tab (t t' : Ty) (bn m k n : nat) (dx dy : list Z) :
  batch_mmul
    (tensor3 t (Z.of_nat bn) (Z.of_nat m) (Z.of_nat k) dx)
    (tensor3 t' (Z.of_nat bn) (Z.of_nat k) (Z.of_nat n) dy)
    (Z.of_nat bn, Z.of_nat m, Z.of_nat k, Z.of_nat n)
  = tab t [Z.of_nat bn; Z.of_nat m; Z.of_nat n] (bn * (m * n))
      (fun q => wrap (Ty_field t)
                  (bdotp m k n (fun i => nth i dx 0) (fun i => nth i dy 0)
                     q)).
Proof.
  unfold batch_mmul, tensor3, bdotp. cbn [eltype data]. f_equal.
  rewrite <- (flat_map_table
                (fun b idx =>
                   wrap (Ty_field t)
                     (dotp k n (fun i => nth (b * (m * k) + i) dx 0)
                        (fun i => nth (b * (k * n) + i) dy 0)
                        (idx / n)%nat (idx mod n)%nat)) bn (m * n)).
  rewrite Nat2Z.id. apply flat_map_ext. intros b.
  unfold batch_slice. cbn [eltype data].
  rewrite <- !Nat2Z.inj_mul, !Nat2Z.id.
  change (data (ring_mmul ?x ?y)) with (data (ring_mmul x y)).
  fold (matrix t (Z.of_nat m) (Z.of_nat k)
          (firstn (m * k) (skipn (b * (m * k)) dx))).
  fold (matrix t' (Z.of_nat k) (Z.of_nat n)
          (firstn (k * n) (skipn (b * (k * n)) dy))).
  rewrite ring_mmul_table. apply map_ext_in. intros idx Hidx.
  apply in_seq in Hidx. f_equal. apply dotp_slice. lia.
Qed.

Lemma bdotp_ext (m k n : nat) (A A' B B' : nat -> Z) (q : nat) :
  (forall t, A t = A' t) -> (forall t, B t = B' t) ->
  bdotp m k n A B q = bdotp m k n A' B' q.
Proof.
  intros HA HB. unfold bdotp. apply dotp_ext; intros t; auto.
Qed.

Lemma bdotp_bilinear (field : FieldType) (m k n : nat)
  (A0 A1 B0 B1 : nat -> Z) (q : nat) :
  eqw field
    (bdotp m k n (fun t => wrap field (A0 t + A1 t))
       (fun t => wrap field (B0 t + B1 t)) q)
    (bdotp m k n A0 B0 q + bdotp m k n A0 B1 q + bdotp m k n A1 B0 q
     + bdotp m k n A1 B1 q).
Proof.
  unfold bdotp.
  exact (dotp_bilinear field k n
           (fun i => A0 (q / (m * n) * (m * k) + i)%nat)
           (fun i => A1 (q / (m * n) * (m * k) + i)%nat)
           (fun i => B0 (q / (m * n) * (k * n) + i)%nat)
           (fun i => B1 (q / (m * n) * (k * n) + i)%nat) _ _).
Qed.

Lemma bdotp_linear_l (field : FieldType) (m k n : nat)
  (A0 A1 B : nat -> Z) (q : nat) :
  eqw field (bdotp m k n (fun t => wrap field (A0 t + A1 t)) B q)
    (bdotp m k n A0 B q + bdotp m k n A1 B q).
Proof.
  unfold bdotp.
  exact (dotp_linear_l field k n
           (fun i => A0 (q / (m * n) * (m * k) + i)%nat)
           (fun i => A1 (q / (m * n) * (m * k) + i)%nat)
           (fun i => B (q / (m * n) * (k * n) + i)%nat) _ _).
Qed.

Lemma has_len_tensor3 (t : Ty) (b r c : Z) (d : list Z) (x y z : nat) :
  length d = (x * (y * z))%nat ->
  has_len (tensor3 t b r c d) (Z.of_nat x * Z.of_nat y * Z.of_nat z) = true.
Proof.
  intros H. unfold has_len, tensor3; cbn [data].
  rewrite H, !Nat2Z.inj_mul, Z.mul_assoc. apply Z.eqb_refl.
Qed.

Lemma ideal_BatchDotOLE_tab (g : nat -> Z) (t t' : Ty) (bn m k n : nat)
  (dx dy : list Z) :
  let f := Ty_field t in
  let P q := wrap f (bdotp m k n (fun i => nth i dx 0)
                       (fun i => nth i dy 0) q) in
  let shp := [Z.of_nat bn; Z.of_nat m; Z.of_nat n] in
  ideal_BatchDotOLE g
    (tensor3 t (Z.of_nat bn) (Z.of_nat m) (Z.of_nat k) dx)
    (tensor3 t' (Z.of_nat bn) (Z.of_nat k) (Z.of_nat n) dy)
    (Z.of_nat bn, Z.of_nat m, Z.of_nat k, Z.of_nat n)
  = (tab (RingTy f) shp (bn * (m * n)) (fun q => wrap f (g q)),
     tab (RingTy f) shp (bn * (m * n))
       (fun q => wrap f (P q - wrap f (g q)))).
Proof.
  intros f P shp. unfold ideal_BatchDotOLE. rewrite batch_mmul_tab.
  unfold field_of, shares_of. cbn [eltype data shape tensor3].
  rewrite share_split_tab. reflexivity.
Qed.

Lemma joint_dot_BatchDotOLE (rnd : Rnd) (c : nat) (lhs rhs : NdArrayRef)
  (conn : Conn) (B M K N : Z) :
  has_len lhs (B * M * K) = true -> has_len rhs (B * K * N) = true ->
  joint_dot rnd c (BatchDotOLE lhs conn (B, M, K, N) true)
    (BatchDotOLE rhs conn (B, M, K, N) false)
  = Some (ideal_BatchDotOLE (rnd c 0%nat) lhs rhs (B, M, K, N))
  /\ joint_dot rnd c (BatchDotOLE rhs conn (B, M, K, N) false)
       (BatchDotOLE lhs conn (B, M, K, N) true)
     = Some (ideal_BatchDotOLE (rnd c 0%nat) lhs rhs (B, M, K, N)).
Proof.
  intros Hl Hr. unfold joint_dot, joint_matrix, dim4_eqb.
  rewrite Hl, Hr, !Z.eqb_refl. destruct conn; split; reflexivity.
Qed.

(** X4: for all shares of a (B, M, K) batch x and a (B, K, N) batch y with
    B, M, K, N > 0, the joint run of [BatchMatMulAA::evaluate] passes the
    shape checks and returns two (B, M, N) arrays whose sum mod 2^k is, in
    every batch slice, the matrix product of the slices of x0 + x1 and
    y0 + y1. *)
Lemma BatchMatMulAA_tensor (field : FieldType) (rnd : Rnd) (c : nat)
  (batch : Z) (env0 env1 : option string) (bn m k n : nat)
  (x0 x1 y0 y1 : list Z) :
  (0 < bn)%nat -> (0 < m)%nat -> (0 < k)%nat -> (0 < n)%nat ->
  length x0 = (bn * (m * k))%nat -> length x1 = (bn * (m * k))%nat ->
  length y0 = (bn * (k * n))%nat -> length y1 = (bn * (k * n))%nat ->
  let B := Z.of_nat bn in
  let M := Z.of_nat m in let K := Z.of_nat k in let N := Z.of_nat n in
  exists s,
    run2_dot rnd c
      (BatchMatMulAA.evaluate (party 0 field batch env0)
         (tensor3 (AShrTy field) B M K x0) (tensor3 (AShrTy field) B K N y0))
      (BatchMatMulAA.evaluate (party 1 field batch env1)
         (tensor3 (AShrTy field) B M K x1) (tensor3 (AShrTy field) B K N y1))
    = Some s
    /\ reconstruct field s
       = data (batch_mmul
                 (tensor3 (RingTy field) B M K
                    (zipWith (fun a b => wrap field (a + b)) x0 x1))
                 (tensor3 (RingTy field) B K N
                    (zipWith (fun a b => wrap field (a + b)) y0 y1))
                 (B, M, K, N))
    /\ shape (fst s) = [B; M; N] /\ shape (snd s) = [B; M; N].
Proof.
  intros Hb Hm Hk Hn Lx0 Lx1 Ly0 Ly1 B M K N. subst B M K N.
  rewrite batch_mmul_tab. cbn [data Ty_field].
  unfold BatchMatMulAA.evaluate, BatchMatMulAA.proc, SPU_ENFORCE, ndim,
    numel, shape_at.
  cbn [shape tensor3 nth calcNumel fold_right length eltype].
  rewrite !Z.eqb_refl. cbn [andb].
  replace (0 =? Z.of_nat bn * (Z.of_nat m * (Z.of_nat k * 1))) with false
    by (symmetry; apply Z.eqb_neq; nia).
  replace (0 =? Z.of_nat bn * (Z.of_nat k * (Z.of_nat n * 1))) with false
    by (symmetry; apply Z.eqb_neq; nia).
  cbn [orb getRank party Z.eqb].
  cbn [run2_dot bind call].
  change (joint_dot rnd c duplx duplx) with (Some (Duplicate, Duplicate)).
  cbn iota beta.
  repeat match goal with
    | |- context [mkNdArrayRef ?t [Z.of_nat ?a; Z.of_nat ?b; Z.of_nat ?e]
                    ?d] =>
        fold (tensor3 t (Z.of_nat a) (Z.of_nat b) (Z.of_nat e) d)
    end.
  rewrite (proj1 (joint_dot_BatchDotOLE rnd (S c) _ _ Duplicate _ _ _ _
                    (has_len_tensor3 _ _ _ _ _ _ _ _ Lx0)
                    (has_len_tensor3 _ _ _ _ _ _ _ _ Ly1))).
  rewrite ideal_BatchDotOLE_tab. cbn [Ty_field].
  cbn [run2_dot bind call].
  rewrite (proj2 (joint_dot_BatchDotOLE rnd (S (S c)) _ _ Primary _ _ _ _
                    (has_len_tensor3 _ _ _ _ _ _ _ _ Lx1)
                    (has_len_tensor3 _ _ _ _ _ _ _ _ Ly0))).
  rewrite ideal_BatchDotOLE_tab. cbn [Ty_field].
  rewrite !batch_mmul_tab. tabs.
  eexists; split; [reflexivity|]. rewrite reconstruct_tab.
  cbn [fst snd shape]. split; [|split; reflexivity].
  apply map_ext; intros q.
  match goal with
  | |- wrap ?f ?a = wrap ?f ?b => change (eqw f a b)
  end.
  rewrite (bdotp_ext m k n (fun i => nth i (zipWith _ x0 x1) 0) _
             (fun i => nth i (zipWith _ y0 y1) 0) _ _
             (fun t => nth_plain field x0 x1 t ltac:(congruence))
             (fun t => nth_plain field y0 y1 t ltac:(congruence))).
  rewrite bdotp_bilinear. repeat setoid_rewrite wrap_eqw.
  match goal with
  | |- eqw _ ?a ?b => replace a with b by ring; reflexivity
  end.
Qed.

(** X5: for all shares of a (B, M, K) batch x and a (B, K, N) batch y
    private to either party, with B, M, K, N > 0, the joint run of
    [BatchMatMulAV::evaluate] passes the shape checks and returns two
    (B, M, N) arrays whose sum mod 2^k is, in every batch slice, the matrix
    product of the slices of x0 + x1 and y. *)
Lemma BatchMatMulAV_tensor (field : FieldType) (rnd : Rnd) (c : nat)
  (batch : Z) (env0 env1 : option string) (owner : Z) (bn m k n : nat)
  (x0 x1 y y' : list Z) :
  (0 < bn)%nat -> (0 < m)%nat -> (0 < k)%nat -> (0 < n)%nat ->
  owner = 0 \/ owner = 1 ->
  length x0 = (bn * (m * k))%nat -> length x1 = (bn * (m * k))%nat ->
  length y = (bn * (k * n))%nat ->
  let B := Z.of_nat bn in
  let M := Z.of_nat m in let K := Z.of_nat k in let N := Z.of_nat n in
  let y_of r := tensor3 (Priv2kTy field owner) B K N
                  (if r =? owner then y else y') in
  exists s,
    run2_dot rnd c
      (BatchMatMulAV.evaluate (party 0 field batch env0)
         (tensor3 (AShrTy field) B M K x0) (y_of 0))
      (BatchMatMulAV.evaluate (party 1 field batch env1)
         (tensor3 (AShrTy field) B M K x1) (y_of 1))
    = Some s
    /\ reconstruct field s
       = data (batch_mmul
                 (tensor3 (RingTy field) B M K
                    (zipWith (fun a b => wrap field (a + b)) x0 x1))
                 (tensor3 (RingTy field) B K N y)
                 (B, M, K, N))
    /\ shape (fst s) = [B; M; N] /\ shape (snd s) = [B; M; N].
Proof.
  intros Hb Hm Hk Hn Ho Lx0 Lx1 Ly B M K N y_of. subst B M K N y_of.
  rewrite batch_mmul_tab. cbn [data Ty_field].
  unfold BatchMatMulAV.evaluate, BatchMatMulAV.proc, SPU_ENFORCE, ndim,
    numel, shape_at.
  cbn [shape tensor3 nth calcNumel fold_right length eltype as_Priv2kTy].
  rewrite !Z.eqb_refl. cbn [andb].
  replace (0 =? Z.of_nat bn * (Z.of_nat m * (Z.of_nat k * 1))) with false
    by (symmetry; apply Z.eqb_neq; nia).
  replace (0 =? Z.of_nat bn * (Z.of_nat k * (Z.of_nat n * 1))) with false
    by (symmetry; apply Z.eqb_neq; nia).
  cbn [orb getRank party].
  destruct Ho as [-> | ->]; cbn [Z.eqb Pos.eqb negb];
    cbn [run2_dot bind call];
    repeat match goal with
      | |- context [mkNdArrayRef ?t [Z.of_nat ?a; Z.of_nat ?b; Z.of_nat ?e]
                      ?d] =>
          fold (tensor3 t (Z.of_nat a) (Z.of_nat b) (Z.of_nat e) d)
      end.
  - rewrite (proj2 (joint_dot_BatchDotOLE rnd c _ _ Primary _ _ _ _
                      (has_len_tensor3 _ _ _ _ _ _ _ _ Lx1)
                      (has_len_tensor3 _ _ _ _ _ _ _ _ Ly))).
    rewrite ideal_BatchDotOLE_tab. cbn [Ty_field].
    rewrite !batch_mmul_tab. tabs.
    eexists; split; [reflexivity|]. rewrite reconstruct_tab.
    cbn [fst snd shape]. split; [|split; reflexivity].
    apply map_ext; intros q.
    match goal with
    | |- wrap ?f ?a = wrap ?f ?b => change (eqw f a b)
    end.
    rewrite (bdotp_ext m k n (fun i => nth i (zipWith _ x0 x1) 0) _
               (fun i => nth i y 0) (fun i => nth i y 0) _
               (fun t => nth_plain field x0 x1 t ltac:(congruence))
               (fun t => eq_refl)).
    rewrite bdotp_linear_l. repeat setoid_rewrite wrap_eqw.
    match goal with
    | |- eqw _ ?a ?b => replace a with b by ring; reflexivity
    end.
  - rewrite (proj1 (joint_dot_BatchDotOLE rnd c _ _ Primary _ _ _ _
                      (has_len_tensor3 _ _ _ _ _ _ _ _ Lx0)
                      (has_len_tensor3 _ _ _ _ _ _ _ _ Ly))).
    rewrite ideal_BatchDotOLE_tab. cbn [Ty_field].
    rewrite !batch_mmul_tab. tabs.
    eexists; split; [reflexivity|]. rewrite reconstruct_tab.
    cbn [fst snd shape]. split; [|split; reflexivity].
    apply map_ext; intros q.
    match goal with
    | |- wrap ?f ?a = wrap ?f ?b => change (eqw f a b)
    end.
    rewrite (bdotp_ext m k n (fun i => nth i (zipWith _ x0 x1) 0) _
               (fun i => nth i y 0) (fun i => nth i y 0) _
               (fun t => nth_plain field x0 x1 t ltac:(congruence))
               (fun t => eq_refl)).
    rewrite bdotp_linear_l. repeat setoid_rewrite wrap_eqw.
    match goal with
    | |- eqw _ ?a ?b => replace a with b by ring; reflexivity
    end.
Qed.

(** ** Share times private operand, for arbitrary arrays *)

Lemma private_tab (field : FieldType) (owner : Z) (y : NdArrayRef)
  (shp : list Z) (n : nat) :
  eltype y = Priv2kTy field owner -> wf y -> shape y = shp ->
  calcNumel shp = Z.of_nat n ->
  exists Y, y = tab (Priv2kTy field owner) shp n Y.
Proof.
  intros T W S Hn. destruct (public_tab field y shp n W S Hn) as (Y & E).
  exists Y. now rewrite <- T.
Qed.

Lemma nonowner_independent (ctx : KernelEvalContext) (field : FieldType)
  (owner : Z) (x y y' : NdArrayRef) :
  getRank ctx <> owner ->
  eltype y = Priv2kTy field owner -> eltype y' = eltype y ->
  shape y' = shape y ->
  MulAV.proc ctx x y' = MulAV.proc ctx x y
  /\ MulA1BV.proc ctx x y' = MulA1BV.proc ctx x y.
Proof.
  intros Hr T T' S.
  unfold MulAV.proc, MulA1BV.proc, DispatchUnaryFunc, DispatchBinaryFunc.
  rewrite T', S, T. cbn [as_Priv2kTy].
  destruct (Z.eqb_spec (getRank ctx) owner); [contradiction|].
  split; reflexivity.
Qed.

(** X6: for every sharing (x0, x1) and every array y of the same shape
    private to either party, the joint run of [MulAV::proc] returns shares
    whose sum mod 2^k is the element-wise product of x0 + x1 and y: the
    owner's local term x_owner * y and the two OLE shares of the other
    share times y add up. *)
Theorem MulAV_reconstructs_product :
  forall (field : FieldType) (rnd : Rnd) (k : nat) (batch : Z)
         (env0 env1 : option string) (owner : Z)
         (x0 x1 y y' : NdArrayRef),
    sharing field x0 x1 -> owner = 0 \/ owner = 1 ->
    eltype y = Priv2kTy field owner -> shape y = shape x0 -> wf y ->
    eltype y' = eltype y -> shape y' = shape y ->
    let y_at r := if r =? owner then y else y' in
    exists s,
      run2 rnd k (MulAV.proc (party 0 field batch env0) x0 (y_at 0))
                 (MulAV.proc (party 1 field batch env1) x1 (y_at 1))
      = Some s
      /\ reconstruct field s
         = zipWith (fun a b => wrap field (a * b)) (plain field x0 x1)
             (data y).
Proof.
  intros field rnd k batch env0 env1 owner x0 x1 y y' Hx Ho Ty Sy Wy Ty' Sy'
    y_at.
  destruct (sharing_tab field x0 x1 Hx) as (n & X0 & X1 & Hn & E0 & E1).
  destruct (private_tab field owner y (shape x0) n Ty Wy Sy Hn) as (Y & EY).
  assert (I0 : MulAV.proc (party 0 field batch env0) x0 (y_at 0)
               = MulAV.proc (party 0 field batch env0) x0 y).
  { subst y_at. destruct Ho as [-> | ->]; cbn [Z.eqb]; [reflexivity|].
    apply (nonowner_independent _ field 1); auto. discriminate. }
  assert (I1 : MulAV.proc (party 1 field batch env1) x1 (y_at 1)
               = MulAV.proc (party 1 field batch env1) x1 y).
  { subst y_at. destruct Ho as [-> | ->]; cbn [Z.eqb Pos.eqb]; [|reflexivity].
    apply (nonowner_independent _ field 0); auto. discriminate. }
  rewrite I0, I1. clear I0 I1 y_at Ty' Sy' y'.
  set (shp := shape x0) in *. clearbody shp. subst x0 x1 y.
  destruct (MulAV_reconstructs field rnd k batch env0 env1 owner shp n
              X0 X1 Y Y Hn Ho) as (s & R & E).
  exists s. split.
  - rewrite <- R. destruct Ho as [-> | ->]; reflexivity.
  - rewrite E, plain_tab. cbn [data]. rewrite zipWith_map_seq.
    apply map_ext; intros i. wrap_ring.
Qed.

(** X7: for every sharing (x0, x1) and every array y of the same shape
    private to either party, the joint run of [MulA1BV::proc] returns
    shares whose sum mod 2^k is the element-wise product of x0 + x1 and y,
    the sender and the receiver side of the private multiply fitting
    together. *)
Theorem MulA1BV_reconstructs_product :
  forall (field : FieldType) (rnd : Rnd) (k : nat) (batch : Z)
         (env0 env1 : option string) (owner : Z)
         (a0 a1 b b' : NdArrayRef),
    sharing field a0 a1 -> owner = 0 \/ owner = 1 ->
    eltype b = Priv2kTy field owner -> shape b = shape a0 -> wf b ->
    eltype b' = eltype b -> shape b' = shape b ->
    let b_at r := if r =? owner then b else b' in
    exists s,
      run2 rnd k (MulA1BV.proc (party 0 field batch env0) a0 (b_at 0))
                 (MulA1BV.proc (party 1 field batch env1) a1 (b_at 1))
      = Some s
      /\ reconstruct field s
         = zipWith (fun a b => wrap field (a * b)) (plain field a0 a1)
             (data b).
Proof.
  intros field rnd k batch env0 env1 owner a0 a1 b b' Ha Ho Tb Sb Wb Tb' Sb'
    b_at.
  destruct (sharing_tab field a0 a1 Ha) as (n & A0 & A1 & Hn & E0 & E1).
  destruct (private_tab field owner b (shape a0) n Tb Wb Sb Hn) as (B & EB).
  assert (I0 : MulA1BV.proc (party 0 field batch env0) a0 (b_at 0)
               = MulA1BV.proc (party 0 field batch env0) a0 b).
  { subst b_at. destruct Ho as [-> | ->]; cbn [Z.eqb]; [reflexivity|].
    apply (nonowner_independent _ field 1); auto. discriminate. }
  assert (I1 : MulA1BV.proc (party 1 field batch env1) a1 (b_at 1)
               = MulA1BV.proc (party 1 field batch env1) a1 b).
  { subst b_at. destruct Ho as [-> | ->]; cbn [Z.eqb Pos.eqb]; [|reflexivity].
    apply (nonowner_independent _ field 0); auto. discriminate. }
  rewrite I0, I1. clear I0 I1 b_at Tb' Sb' b'.
  set (shp := shape a0) in *. clearbody shp. subst a0 a1 b.
  destruct (MulA1BV_reconstructs field rnd k batch env0 env1 owner shp n
              A0 A1 B B Hn Ho) as (s & R & E).
  exists s. split.
  - rewrite <- R. destruct Ho as [-> | ->]; reflexivity.
  - rewrite E, plain_tab. cbn [data]. rewrite zipWith_map_seq.
    apply map_ext; intros i. wrap_ring.
Qed.

Lemma MulAV_reconstructs_product_witness :
  let x0 := vec (AShrTy FM64) [400; 7] in
  let x1 := vec (AShrTy FM64) [600; 2 ^ 64 - 5] in
  let y := vec (Priv2kTy FM64 1) [999; 3] in
  let y' := vec (Priv2kTy FM64 1) [0; 0] in
  exists s,
    run2 rnd_example 0 (MulAV.proc (party 0 FM64 8192 None) x0 y')
      (MulAV.proc (party 1 FM64 8192 None) x1 y) = Some s
    /\ reconstruct FM64 s = [999000; 6].
Proof.
  intros x0 x1 y y'.
  assert (S : sharing FM64 x0 x1)
    by (unfold sharing, wf; repeat split; reflexivity).
  destruct (MulAV_reconstructs_product FM64 rnd_example 0 8192 None None 1
              x0 x1 y y' S (or_intror eq_refl) eq_refl eq_refl eq_refl
              eq_refl eq_refl) as (s & R & E).
  exists s. split; [exact R|]. rewrite E. reflexivity.
Defined.

Lemma MulA1BV_reconstructs_product_witness :
  let a0 := vec (AShrTy FM64) [400; 7] in
  let a1 := vec (AShrTy FM64) [600; 2 ^ 64 - 5] in
  let b := vec (Priv2kTy FM64 0) [1; 0] in
  let b' := vec (Priv2kTy FM64 0) [0; 0] in
  exists s,
    run2 rnd_example 0 (MulA1BV.proc (party 0 FM64 8192 None) a0 b)
      (MulA1BV.proc (party 1 FM64 8192 None) a1 b') = Some s
    /\ reconstruct FM64 s = [1000; 0].
Proof.
  intros a0 a1 b b'.
  assert (S : sharing FM64 a0 a1)
    by (unfold sharing, wf; repeat split; reflexivity).
  destruct (MulA1BV_reconstructs_product FM64 rnd_example 0 8192 None None 0
              a0 a1 b b' S (or_introl eq_refl) eq_refl eq_refl eq_refl
              eq_refl eq_refl) as (s & R & E).
  exists s. split; [exact R|]. rewrite E. reflexivity.
Defined.

Lemma MatMulAA_mat_witness :
  let x0 := matrix (AShrTy FM64) 2 2 [400; 1; 2; 3] in
  let x1 := matrix (AShrTy FM64) 2 2 [2 ^ 64 - 399; 1; 1; 1] in
  let y0 := matrix (AShrTy FM64) 2 2 [5; 0; 3; 4] in
  let y1 := matrix (AShrTy FM64) 2 2 [0; 6; 4; 4] in
  exists s,
    run2_dot rnd_example 0 (MatMulAA.proc (party 0 FM64 8192 None) x0 y0)
      (MatMulAA.proc (party 1 FM64 8192 None) x1 y1) = Some s
    /\ reconstruct FM64 s = [19; 22; 43; 50].
Proof.
  intros x0 x1 y0 y1.
  destruct (MatMulAA_mat FM64 rnd_example 0 8192 None None 2 2 2
              [400; 1; 2; 3] [2 ^ 64 - 399; 1; 1; 1] [5; 0; 3; 4]
              [0; 6; 4; 4] ltac:(lia) ltac:(lia) ltac:(lia)
              eq_refl eq_refl eq_refl eq_refl) as (s & R & E & _).
  exists s. split; [exact R|]. rewrite E. reflexivity.
Defined.

Lemma MatMulAV_mat_witness :
  let x0 := matrix (AShrTy FM64) 2 2 [400; 1; 2; 3] in
  let x1 := matrix (AShrTy FM64) 2 2 [2 ^ 64 - 399; 1; 1; 1] in
  let y := matrix (Priv2kTy FM64 0) 2 2 [5; 6; 7; 8] in
  let y' := matrix (Priv2kTy FM64 0) 2 2 [0; 0; 0; 0] in
  exists s,
    run2_dot rnd_example 0 (MatMulAV.proc (party 0 FM64 8192 None) x0 y)
      (MatMulAV.proc (party 1 FM64 8192 None) x1 y') = Some s
    /\ reconstruct FM64 s = [19; 22; 43; 50].
Proof.
  intros x0 x1 y y'.
  destruct (MatMulAV_mat FM64 rnd_example 0 8192 None None 0 2 2 2
              [400; 1; 2; 3] [2 ^ 64 - 399; 1; 1; 1] [5; 6; 7; 8]
              [0; 0; 0; 0] ltac:(lia) ltac:(lia) ltac:(lia)
              (or_introl eq_refl) eq_refl eq_refl eq_refl)
    as (s & R & E & _).
  exists s. split; [exact R|]. rewrite E. reflexivity.
Defined.

Lemma MatMulVVS_mat_witness :
  let x := matrix (Priv2kTy FM64 1) 2 2 [1; 2; 3; 4] in
  let x' := matrix (Priv2kTy FM64 1) 2 2 [0; 0; 0; 0] in
  let y := matrix (Priv2kTy FM64 0) 2 2 [5; 6; 7; 8] in
  let y' := matrix (Priv2kTy FM64 0) 2 2 [0; 0; 0; 0] in
  exists s,
    run2_dot rnd_example 0 (MatMulVVS.proc (party 0 FM64 8192 None) x' y)
      (MatMulVVS.proc (party 1 FM64 8192 None) x y') = Some s
    /\ reconstruct FM64 s = [19; 22; 43; 50].
Proof.
  intros x x' y y'.
  destruct (MatMulVVS_mat FM64 rnd_example 0 8192 None None 1
              (Priv2kTy FM64 0) 2 2 2
              [1; 2; 3; 4] [0; 0; 0; 0] [5; 6; 7; 8] [0; 0; 0; 0]
              ltac:(lia) ltac:(lia) ltac:(lia)
              (or_intror eq_refl) eq_refl eq_refl)
    as (s & R & E & _).
  exists s. split; [exact R|]. rewrite E. reflexivity.
Defined.

Lemma BatchMatMulAA_tensor_witness :
  let x0 := tensor3 (AShrTy FM64) 2 1 2 [400; 1; 2; 3] in
  let x1 := tensor3 (AShrTy FM64) 2 1 2 [2 ^ 64 - 399; 1; 1; 1] in
  let y0 := tensor3 (AShrTy FM64) 2 2 1 [5; 0; 3; 4] in
  let y1 := tensor3 (AShrTy FM64) 2 2 1 [0; 6; 4; 4] in
  exists s,
    run2_dot rnd_example 0
      (BatchMatMulAA.evaluate (party 0 FM64 8192 None) x0 y0)
      (BatchMatMulAA.evaluate (party 1 FM64 8192 None) x1 y1) = Some s
    /\ reconstruct FM64 s = [17; 53]
    /\ shape (fst s) = [2; 1; 1].
Proof.
  intros x0 x1 y0 y1.
  destruct (BatchMatMulAA_tensor FM64 rnd_example 0 8192 None None 2 1 2 1
              [400; 1; 2; 3] [2 ^ 64 - 399; 1; 1; 1] [5; 0; 3; 4]
              [0; 6; 4; 4] ltac:(lia) ltac:(lia) ltac:(lia) ltac:(lia)
              eq_refl eq_refl eq_refl eq_refl) as (s & R & E & S0 & _).
  exists s. split; [exact R|]. split; [rewrite E; reflexivity | exact S0].
Defined.

Lemma BatchMatMulAV_tensor_witness :
  let x0 := tensor3 (AShrTy FM64) 2 1 2 [400; 1; 2; 3] in
  let x1 := tensor3 (AShrTy FM64) 2 1 2 [2 ^ 64 - 399; 1; 1; 1] in
  let y := tensor3 (Priv2kTy FM64 1) 2 2 1 [5; 6; 7; 8] in
  let y' := tensor3 (Priv2kTy FM64 1) 2 2 1 [0; 0; 0; 0] in
  exists s,
    run2_dot rnd_example 0
      (BatchMatMulAV.evaluate (party 0 FM64 8192 None) x0 y')
      (BatchMatMulAV.evaluate (party 1 FM64 8192 None) x1 y) = Some s
    /\ reconstruct FM64 s = [17; 53].
Proof.
  intros x0 x1 y y'.
  destruct (BatchMatMulAV_tensor FM64 rnd_example 0 8192 None None 1 2 1 2 1
              [400; 1; 2; 3] [2 ^ 64 - 399; 1; 1; 1] [5; 6; 7; 8]
              [0; 0; 0; 0] ltac:(lia) ltac:(lia) ltac:(lia) ltac:(lia)
              (or_intror eq_refl) eq_refl eq_refl eq_refl)
    as (s & R & E & _).
  exists s. split; [exact R|]. rewrite E. reflexivity.
Defined.

(** ** Most significant bit, for shares of the full ring width *)

Lemma low_bit_of_shift (x s : Z) :
  0 <= s ->
  Z.land (Z.shiftr x s) 1 = (x / 2 ^ s) mod 2
  /\ ((x / 2 ^ s) mod 2 = 0 \/ (x / 2 ^ s) mod 2 = 1).
Proof.
  intros Hs. rewrite Z.shiftr_div_pow2 by assumption.
  change 1 with (Z.ones 1) at 1. rewrite Z.land_ones by lia.
  change (2 ^ 1) with 2.
  pose proof (Z.mod_pos_bound (x / 2 ^ s) 2 ltac:(lia)). split; lia.
Qed.

Lemma land_lxor_distr (a b c : Z) :
  Z.land (Z.lxor a b) c = Z.lxor (Z.land a c) (Z.land b c).
Proof.
  apply Z.bits_inj'. intros n Hn.
  rewrite !Z.land_spec, !Z.lxor_spec, !Z.land_spec.
  destruct (Z.testbit a n), (Z.testbit b n), (Z.testbit c n); reflexivity.
Qed.

Lemma msb_carry_any (field : FieldType) (k x0 x1 : Z) :
  1 <= k <= bits field ->
  let mask := wrap field (Z.shiftl 1 (k - 1) - 1) in
  Z.land
    (Z.lxor
       (Z.lxor (Z.b2z (MsbA2B.adjust field 0 mask x0
                       >? MsbA2B.adjust field 1 mask x1))
          (Z.shiftr x0 (k - 1)))
       (Z.shiftr x1 (k - 1))) 1
  = msb k (x0 + x1).
Proof.
  intros Hk mask. unfold mask. rewrite (MsbA2B_mask field k Hk).
  assert (Hh : 0 < 2 ^ (k - 1)) by (apply Z.pow_pos_nonneg; lia).
  assert (Hp : 2 ^ k = 2 * 2 ^ (k - 1)).
  { rewrite <- Z.pow_succ_r by lia. f_equal; lia. }
  set (h := 2 ^ (k - 1)) in *.
  assert (Ho : h - 1 = Z.ones (k - 1)).
  { rewrite Z.ones_equiv. unfold h. lia. }
  pose proof (Z.div_mod x0 h ltac:(lia)) as E0.
  pose proof (Z.div_mod x1 h ltac:(lia)) as E1.
  pose proof (Z.mod_pos_bound x0 h Hh) as L0.
  pose proof (Z.mod_pos_bound x1 h Hh) as L1.
  unfold MsbA2B.adjust. cbn [Z.eqb].
  rewrite Ho, !Z.land_ones by lia. fold h. rewrite <- Ho.
  assert (A1 : wrap field (h - 1 - x1) mod h = h - 1 - x1 mod h).
  { unfold wrap.
    rewrite Z.mod_mod_divide by (apply pow2_divide_modulus; lia).
    symmetry. apply (Z.mod_unique _ h (- (x1 / h))); [left; lia|].
    rewrite E1 at 1. lia. }
  rewrite A1, !land_lxor_distr.
  destruct (low_bit_of_shift x0 (k - 1) ltac:(lia)) as [-> B0].
  destruct (low_bit_of_shift x1 (k - 1) ltac:(lia)) as [-> B1].
  fold h in B0, B1 |- *.
  assert (C : Z.land (Z.b2z (x0 mod h >? h - 1 - x1 mod h)) 1
              = Z.b2z (x0 mod h >? h - 1 - x1 mod h))
    by (destruct (x0 mod h >? h - 1 - x1 mod h); reflexivity).
  rewrite C, <- msb_sum by (try assumption; lia).
  rewrite msb_div by lia. fold h. rewrite Hp. f_equal.
  pose proof (Z.div_mod (x0 / h) 2 ltac:(lia)) as Q0.
  pose proof (Z.div_mod (x1 / h) 2 ltac:(lia)) as Q1.
  replace (x0 + x1)
    with ((x0 / h) mod 2 * h + x0 mod h + ((x1 / h) mod 2 * h + x1 mod h)
          + (x0 / h / 2 + x1 / h / 2) * (2 * h)) by nia.
  symmetry. apply Z.mod_add. lia.
Qed.

(** X8: for shares that range over the whole ring and every bit count
    1 <= k <= ring width of the kernel object, the joint run of
    [MsbA2B::proc] returns, and bit 0 of the XOR of the two outputs is bit
    k - 1 of x0 + x1; the outputs are of type BShr(field, 1) and of the
    input's shape. *)
Theorem MsbA2B_low_bit_is_msb :
  forall (field : FieldType) (rnd : Rnd) (k : nat) (batch : Z)
         (env0 env1 : option string) (nbits_ : Z) (x0 x1 : NdArrayRef),
    sharing field x0 x1 ->
    let kb := if nbits_ =? 0 then bits field else nbits_ in
    1 <= kb <= bits field ->
    exists s,
      run2 rnd k (MsbA2B.proc nbits_ (party 0 field batch env0) x0)
                 (MsbA2B.proc nbits_ (party 1 field batch env1) x1)
      = Some s
      /\ map (fun v => Z.land v 1) (reconstructB s)
         = map (msb kb) (zipWith Z.add (data x0) (data x1))
      /\ eltype (fst s) = BShrTy field 1 /\ eltype (snd s) = BShrTy field 1
      /\ shape (fst s) = shape x0 /\ shape (snd s) = shape x0.
Proof.
  intros field rnd k batch env0 env1 nbits_ x0 x1 Hx kb Hk.
  destruct (sharing_tab field x0 x1 Hx) as (n & X0 & X1 & Hn & E0 & E1).
  set (shp := shape x0) in *. clearbody shp. subst x0 x1.
  cbn [data]. rewrite zipWith_map_seq, map_map.
  unfold MsbA2B.proc.
  cbn [getDefaultField party getRank]. fold (bits field). fold kb.
  unfold SPU_ENFORCE.
  replace (kb <=? 8 * SizeOf field) with true
    by (symmetry; apply Z.leb_le; unfold bits in Hk; lia).
  unfold numel. cbn [shape]. rewrite Hn.
  destruct (Z.of_nat n =? 0) eqn:E.
  - apply Z.eqb_eq in E. assert (n = 0%nat) by lia. subst n.
    eexists; split; [reflexivity|].
    unfold reconstructB, NdArrayRef_new, as_; cbn [data fst snd shape eltype].
    rewrite Hn. repeat split.
  - unfold DispatchUnaryFunc, pforeach_map, ring_zeros.
    cbn [eltype shape data]. rewrite !map_map.
    cbn [run2 bind call joint Bool.eqb andb].
    rewrite same_len_tab.
    unfold ideal_Compare, field_of. cbn [eltype data Ty_field shares_of].
    rewrite zipWith_map_seq, bshare_split_tab.
    cbn [run2 bind call joint fst snd shares_of].
    unfold pforeach_zip, as_. cbn [eltype shape data].
    rewrite !zipWith_map_seq.
    eexists; split; [reflexivity|]. rewrite reconstructB_tab.
    cbn [fst snd eltype shape]. split; [|repeat split].
    rewrite map_map. apply map_ext; intros i.
    rewrite <- (msb_carry_any field kb (X0 i) (X1 i) Hk). f_equal.
    set (c := Z.b2z _). set (r := rnd k 0%nat i mod 2).
    set (a := Z.shiftr (X0 i) (kb - 1)). set (b := Z.shiftr (X1 i) (kb - 1)).
    rewrite (Z.lxor_comm c r), !Z.lxor_assoc.
    rewrite <- (Z.lxor_assoc a r), (Z.lxor_comm a r), !Z.lxor_assoc.
    rewrite <- (Z.lxor_assoc r r), Z.lxor_nilpotent, Z.lxor_0_l.
    rewrite <- (Z.lxor_assoc a c), (Z.lxor_comm a c), !Z.lxor_assoc.
    reflexivity.
Qed.

Lemma MsbA2B_low_bit_is_msb_witness :
  let x0 := vec (AShrTy FM64) [7; 2 ^ 63; 9; 14] in
  let x1 := vec (AShrTy FM64) [2; 5; 2 ^ 64 - 1; 2] in
  exists s,
    run2 rnd_example 0 (MsbA2B.proc 4 (party 0 FM64 8192 None) x0)
      (MsbA2B.proc 4 (party 1 FM64 8192 None) x1) = Some s
    /\ map (fun v => Z.land v 1) (reconstructB s) = [1; 0; 1; 0].
Proof.
  intros x0 x1.
  assert (S : sharing FM64 x0 x1)
    by (unfold sharing, wf; repeat split; reflexivity).
  destruct (MsbA2B_low_bit_is_msb FM64 rnd_example 0 8192 None None 4 x0 x1
              S ltac:(vm_compute; split; discriminate)) as (s & R & E & _).
  exists s. split; [exact R|]. rewrite E. reflexivity.
Defined.

(** ** The equality hint on values of a narrow domain *)

Lemma Forall_tab (P : Z -> Prop) (F : nat -> Z) (n : nat) :
  Forall P (map F (seq 0 n)) -> forall i, (i < n)%nat -> P (F i).
Proof.
  intros H i Hi. rewrite Forall_forall in H. apply H, in_map, in_seq. lia.
Qed.

(** X9: whatever hint SPU_BB_SET_IEQUAL_BITS gives, [EqualAP::proc] is
    exact on values that fit it: when the shared value and the public
    operand are below 2^h, h the hint (the ring width when the hint is 0),
    the XOR of the outputs is 1 exactly where x = y. *)
Theorem EqualAP_exact_on_narrow_values :
  forall (field : FieldType) (rnd : Rnd) (k : nat) (batch : Z)
         (env : option string) (x0 x1 y : NdArrayRef),
    sharing field x0 x1 -> wf y -> shape y = shape x0 ->
    Ty_field (eltype y) = field ->
    let P0 := party 0 field batch env in
    let P1 := party 1 field batch env in
    let h := EqualAP.iequal_bits P0 x0 in
    let kh := if h =? 0 then bits field else h in
    Forall (fun v => 0 <= v < 2 ^ kh) (plain field x0 x1) ->
    Forall (fun v => 0 <= v < 2 ^ kh) (data y) ->
    exists s,
      run2 rnd k (EqualAP.proc P0 x0 y) (EqualAP.proc P1 x1 y) = Some s
      /\ reconstructB s
         = zipWith (fun a b => Z.b2z (a =? b)) (plain field x0 x1) (data y).
Proof.
  intros field rnd k batch env x0 x1 y Hx Wy Sy Ty P0 P1 h kh Rx Ry.
  destruct (iequal_bits_same field batch env 0 1 x0 x1) as [Hh1 Hh];
    try apply Hx.
  fold P0 P1 in Hh1, Hh. fold h in Hh1, Hh.
  assert (Hkh : 0 <= kh <= bits field).
  { subst kh. pose proof (bits_pos field). destruct (h =? 0); lia. }
  destruct (sharing_tab field x0 x1 Hx) as (n & X0 & X1 & Hn & E0 & E1).
  destruct (public_tab field y (shape x0) n Wy Sy Hn) as (Y & EY).
  set (shp := shape x0) in *. set (ty := eltype y) in *.
  clearbody shp ty. subst x0 x1 y.
  rewrite plain_tab in Rx |- *. cbn [data] in Ry |- *.
  pose proof (Forall_tab _ _ _ Rx) as Rx'.
  pose proof (Forall_tab _ _ _ Ry) as Ry'. cbn beta in Rx', Ry'.
  unfold EqualAP.proc. fold h. rewrite Hh1.
  unfold P0 at 1 2. unfold P1 at 1.
  cbn [getRank party Z.eqb getDefaultField shape].
  unfold ring_zeros. rewrite Hn, Nat2Z.id, repeat_tab.
  destruct (EqualAA_tab field rnd k batch env env h (RingTy field) ty shp
              n X0 X1 (fun _ => 0) Y Hn Ty Hkh) as (s & Rs & Es).
  exists s. split; [exact Rs|].
  fold kh in Es. rewrite Es, zipWith_map_seq.
  apply map_ext_in; intros i Hi. apply in_seq in Hi.
  specialize (Rx' i ltac:(lia)). specialize (Ry' i ltac:(lia)).
  rewrite Z.add_0_l, (Z.mod_small (Y i)) by assumption.
  replace ((X0 i + X1 i) mod 2 ^ kh) with (wrap field (X0 i + X1 i));
    [reflexivity|].
  rewrite <- (Z.mod_small (wrap field (X0 i + X1 i)) (2 ^ kh)) by assumption.
  unfold wrap. apply Z.mod_mod_divide. now apply pow2_divide_modulus.
Qed.

Lemma EqualAP_exact_on_narrow_values_witness :
  let x0 := vec (AShrTy FM64) [400; 2 ^ 64 - 3] in
  let x1 := vec (AShrTy FM64) [600; 10] in
  let y := vec (RingTy FM64) [999; 7] in
  exists s,
    run2 rnd_example 0
      (EqualAP.proc (party 0 FM64 8192 (Some "10"%string)) x0 y)
      (EqualAP.proc (party 1 FM64 8192 (Some "10"%string)) x1 y) = Some s
    /\ reconstructB s = [0; 1].
Proof.
  intros x0 x1 y.
  assert (S : sharing FM64 x0 x1)
    by (unfold sharing, wf; repeat split; reflexivity).
  destruct (EqualAP_exact_on_narrow_values FM64 rnd_example 0 8192
              (Some "10"%string) x0 x1 y S eq_refl eq_refl eq_refl)
    as (s & R & E).
  - repeat constructor; vm_compute; congruence.
  - repeat constructor; vm_compute; congruence.
  - exists s. split; [exact R|]. rewrite E. reflexivity.
Defined.

(** ** Preconditions the kernels enforce *)

Lemma Shape_eqb_eq (a b : list Z) : Shape_eqb a b = true -> a = b.
Proof.
  unfold Shape_eqb. revert b.
  induction a as [|u a IH]; intros [|v b] H; try discriminate; auto.
  simpl in H. apply andb_true_iff in H as [H1 H2].
  apply Z.eqb_eq in H1. f_equal; auto.
Qed.

Lemma Shape_eqb_neq (a b : list Z) : a <> b -> Shape_eqb a b = false.
Proof.
  intros H. destruct (Shape_eqb a b) eqn:E; [|reflexivity].
  now apply Shape_eqb_eq in E.
Qed.

(** X10: operands of different shapes are rejected before any call:
    [EqualAA::proc], [MulA1BV::proc], [MulAV::proc] and [MulAA::proc] fail
    their shape check, also when the operands have the same number of
    elements. *)
Theorem shape_mismatch_aborts :
  forall (nbits_ : Z) (ctx : KernelEvalContext) (x y : NdArrayRef),
    shape x <> shape y ->
    EqualAA.proc nbits_ ctx x y = Abort
    /\ MulA1BV.proc ctx x y = Abort
    /\ MulAV.proc ctx x y = Abort
    /\ MulAA.proc ctx x y = Abort.
Proof.
  intros nbits_ ctx x y H. apply Shape_eqb_neq in H.
  unfold EqualAA.proc, MulA1BV.proc, MulAV.proc, MulAA.proc, SPU_ENFORCE.
  rewrite H. repeat split.
Qed.

Lemma shape_mismatch_aborts_witness :
  let ctx := party 1 FM64 8192 None in
  let x := mkNdArrayRef (AShrTy FM64) [2] [3; 4] in
  let y := mkNdArrayRef (AShrTy FM64) [1; 2] [5; 6] in
  numel x = numel y
  /\ EqualAA.proc 0 ctx x y = Abort
  /\ MulA1BV.proc ctx x y = Abort
  /\ MulAV.proc ctx x y = Abort
  /\ MulAA.proc ctx x y = Abort.
Proof.
  intros ctx x y. split; [reflexivity|].
  apply (shape_mismatch_aborts 0 ctx x y). discriminate.
Defined.

(** X11: [EqualAP::proc] checks the shape of the public operand on rank 1
    only.  With a public operand of another shape and an input that is not
    empty, rank 1 fails the shape check, while rank 0, which has replaced
    the operand by zeros of the input's shape, goes on to call the equality
    protocol. *)
Theorem EqualAP_shape_checked_on_rank_1_only :
  forall (ans : forall c, Result c) (field : FieldType) (batch : Z)
         (env : option string) (x y : NdArrayRef),
    field_of x = field -> shape y <> shape x -> numel x <> 0 ->
    let P0 := party 0 field batch env in
    let P1 := party 1 field batch env in
    let h := EqualAP.iequal_bits P0 x in
    EqualAP.proc P1 x y = Abort
    /\ trace ans (EqualAP.proc P0 x y)
       = [EqualProtocol_Compute (ring_sub x (ring_zeros field (shape x)))
            (if h =? 0 then SizeOf field * 8 else h)].
Proof.
  intros ans field batch env x y Hf Hs Hn P0 P1 h.
  unfold EqualAP.proc. fold h.
  unfold P0 at 1 2, P1 at 2 3.
  cbn [getRank party Z.eqb getDefaultField].
  unfold EqualAA.proc, SPU_ENFORCE. cbn [shape ring_zeros].
  rewrite Shape_eqb_refl, Shape_eqb_neq by congruence.
  split; [reflexivity|].
  cbn [getDefaultField party P0 getRank Z.eqb].
  pose proof (iequal_bits_range P0 x) as R. fold h in R.
  unfold elsize in R. unfold field_of in Hf. rewrite Hf in R.
  replace ((if h =? 0 then SizeOf field * 8 else h) <=? 8 * SizeOf field)
    with true
    by (symmetry; apply Z.leb_le; destruct (h =? 0); lia).
  apply Z.eqb_neq in Hn. rewrite Hn. reflexivity.
Qed.

Lemma EqualAP_shape_checked_on_rank_1_only_witness :
  let x := mkNdArrayRef (AShrTy FM64) [2] [3; 4] in
  let y := mkNdArrayRef (RingTy FM64) [3] [5; 6; 7] in
  EqualAP.proc (party 1 FM64 8192 None) x y = Abort
  /\ trace no_answer (EqualAP.proc (party 0 FM64 8192 None) x y)
     = [EqualProtocol_Compute (mkNdArrayRef (AShrTy FM64) [2] [3; 4]) 64].
Proof.
  intros x y.
  apply (EqualAP_shape_checked_on_rank_1_only no_answer FM64 8192 None x y
           eq_refl); discriminate.
Defined.

(** X12: a kernel object built with a bit count above the ring width fails
    in [MsbA2B::proc] and in [EqualAA::proc] before any call, whatever the
    operands. *)
Theorem bit_count_above_ring_width_aborts :
  forall (nbits_ : Z) (ctx : KernelEvalContext) (x y : NdArrayRef),
    bits (getDefaultField ctx) < nbits_ ->
    MsbA2B.proc nbits_ ctx x = Abort
    /\ EqualAA.proc nbits_ ctx x y = Abort.
Proof.
  intros nbits_ ctx x y H. unfold bits in H.
  pose proof (bits_pos (getDefaultField ctx)) as Hp. unfold bits in Hp.
  unfold MsbA2B.proc, EqualAA.proc, SPU_ENFORCE.
  replace (nbits_ =? 0) with false by (symmetry; apply Z.eqb_neq; lia).
  replace (nbits_ <=? 8 * SizeOf (getDefaultField ctx)) with false
    by (symmetry; apply Z.leb_gt; lia).
  split; [reflexivity|]. now destruct (Shape_eqb (shape x) (shape y)).
Qed.

Lemma bit_count_above_ring_width_aborts_witness :
  let ctx := party 0 FM32 8192 None in
  let x := vec (AShrTy FM32) [3; 4] in
  MsbA2B.proc 33 ctx x = Abort /\ EqualAA.proc 33 ctx x x = Abort.
Proof.
  intros ctx x. apply (bit_count_above_ring_width_aborts 33 ctx x x).
  vm_compute. reflexivity.
Defined.

(** X13: the batched kernels reject 3-D operands whose batch counts or
    inner dimensions differ; the checks of [evaluate] come before the early
    return of [proc], so this holds for empty operands too. *)
Theorem BatchMatMul_rejects_mismatched_dims :
  forall (ctx : KernelEvalContext) (x y : NdArrayRef) (B M K B' K' N : Z),
    shape x = [B; M; K] -> shape y = [B'; K'; N] ->
    B <> B' \/ K <> K' ->
    BatchMatMulAA.evaluate ctx x y = Abort
    /\ BatchMatMulAV.evaluate ctx x y = Abort.
Proof.
  intros ctx x y B M K B' K' N Hx Hy H.
  unfold BatchMatMulAA.evaluate, BatchMatMulAV.evaluate, SPU_ENFORCE,
    ndim, shape_at.
  rewrite Hx, Hy. cbn [length nth]. rewrite Z.eqb_refl.
  destruct H as [H|H]; apply Z.eqb_neq in H; rewrite H;
    [|destruct (B =? B')]; split; reflexivity.
Qed.

Lemma BatchMatMul_rejects_mismatched_dims_witness :
  let ctx := party 0 FM64 8192 None in
  let x := mkNdArrayRef (AShrTy FM64) [2; 3; 0] [] in
  let y := mkNdArrayRef (AShrTy FM64) [2; 1; 5]
             [1; 2; 3; 4; 5; 6; 7; 8; 9; 10] in
  numel x = 0
  /\ BatchMatMulAA.evaluate ctx x y = Abort
  /\ BatchMatMulAV.evaluate ctx x y = Abort.
Proof.
  intros ctx x y. split; [reflexivity|].
  apply (BatchMatMul_rejects_mismatched_dims ctx x y 2 3 0 2 1 5
           eq_refl eq_refl).
  right; discriminate.
Defined.

(** ** Empty inputs *)

(** X14: on an input without elements the element-wise kernels return an
    empty array of the input's shape without issuing a call: [TruncA],
    [MulAV], [MulAA::mulWithBeaver] and [SquareA] with the input's type,
    [MsbA2B] and [EqualAA] with type BShr(field, 1).  [MulA1BV] does the
    same when y is private, but inspects the type of y first and fails
    when it is not private, which [MulAV] does not on an empty input. *)
Theorem empty_input_returns_without_calls :
  forall (nbits_ : Z) (ctx : KernelEvalContext) (x y : NdArrayRef)
         (bits_ : Z) (sgn : SignType),
    numel x = 0 -> shape y = shape x ->
    0 <= nbits_ <= bits (getDefaultField ctx) ->
    let field := getDefaultField ctx in
    let empty t := mkNdArrayRef t (shape x) [] in
    TruncA.proc ctx x bits_ sgn = Ret (empty (eltype x))
    /\ MsbA2B.proc nbits_ ctx x = Ret (empty (BShrTy field 1))
    /\ EqualAA.proc nbits_ ctx x y = Ret (empty (BShrTy field 1))
    /\ MulAV.proc ctx x y = Ret (empty (eltype x))
    /\ MulA1BV.proc ctx x y
       = match as_Priv2kTy (eltype y) with
         | Some _ => Ret (empty (eltype x))
         | None => Abort
         end
    /\ MulAA.mulWithBeaver ctx x y = Ret (empty (eltype x))
    /\ SquareA.proc ctx x = Ret (empty (eltype x)).
Proof.
  intros nbits_ ctx x y bits_ sgn H0 Hs Hb field empty.
  pose proof (bits_pos field) as Hp. unfold bits in Hb, Hp. fold field in Hb.
  unfold TruncA.proc, MsbA2B.proc, EqualAA.proc, MulAV.proc, MulA1BV.proc,
    MulAA.mulWithBeaver, SquareA.proc, SPU_ENFORCE.
  fold field. rewrite Hs, Shape_eqb_refl, H0. cbn [Z.eqb].
  replace ((if nbits_ =? 0 then SizeOf field * 8 else nbits_)
           <=? 8 * SizeOf field) with true
    by (symmetry; apply Z.leb_le; destruct (nbits_ =? 0); lia).
  unfold NdArrayRef_new, as_, empty. cbn [shape data eltype].
  unfold numel in H0. rewrite H0. cbn [Z.to_nat repeat].
  repeat split.
Qed.

Lemma empty_input_returns_without_calls_witness :
  let ctx := party 1 FM64 8192 None in
  let x := mkNdArrayRef (AShrTy FM64) [3; 0] [] in
  let y := mkNdArrayRef (AShrTy FM64) [3; 0] [] in
  trace no_answer (SquareA.proc ctx x) = []
  /\ MulA1BV.proc ctx x y = Abort
  /\ MulAV.proc ctx x y = Ret x.
Proof.
  intros ctx x y.
  destruct (empty_input_returns_without_calls 0 ctx x y 3 Unknown
              eq_refl eq_refl
              ltac:(split; vm_compute; discriminate))
    as (_ & _ & _ & Hv & H1 & _ & Hq).
  rewrite Hq, Hv, H1. repeat split.
Defined.

(** ** The two halves of the direct multiply *)

(** X15: [MulAA::mulDirectly] acquires the duplicate connection, then
    multiplies the elements from numel/2 on over it and the first numel/2
    elements over the primary connection; the evaluator flag is the
    opposite on the two connections, and the two slices of each operand
    together are the whole operand, in order. *)
Theorem mulDirectly_halves_cover_input :
  forall (ans : forall c, Result c) (ctx : KernelEvalContext)
         (x y : NdArrayRef),
    wf x -> wf y -> shape y = shape x ->
    let n := numel x in
    let fx := reshape x [n] in
    let fy := reshape y [n] in
    let rank0 := getRank ctx =? 0 in
    trace ans (MulAA.mulDirectly ctx x y)
    = [duplx;
       MulShare (slice1 fx (n / 2) n) (slice1 fy (n / 2) n) (ans duplx)
         rank0;
       MulShare (slice1 fx 0 (n / 2)) (slice1 fy 0 (n / 2)) Primary
         (negb rank0)]
    /\ data (slice1 fx 0 (n / 2)) ++ data (slice1 fx (n / 2) n) = data x
    /\ data (slice1 fy 0 (n / 2)) ++ data (slice1 fy (n / 2) n) = data y.
Proof.
  intros ans ctx x y Wx Wy Hs n fx fy rank0.
  assert (Hy : numel y = n) by (unfold n, numel; now rewrite Hs).
  assert (Hn : 0 <= n).
  { unfold n. unfold wf in Wx. rewrite <- Wx. lia. }
  assert (Hh : 0 <= n / 2 <= n).
  { split; [apply Z.div_pos; lia | apply Z.div_le_upper_bound; lia]. }
  split; [|split].
  - assert (E : numel (reshape x [numel x]) = numel x)
      by (unfold numel at 1; cbn [shape reshape]; apply calcNumel_1).
    unfold MulAA.mulDirectly. cbn [trace bind call].
    rewrite Hy. subst n fx fy rank0. rewrite !E. reflexivity.
  - apply slice1_halves; assumption.
  - unfold fy. clearbody n. subst n. apply slice1_halves; assumption.
Qed.

Lemma mulDirectly_halves_cover_input_witness :
  let ctx := party 0 FM64 1 None in
  let x := vec (AShrTy FM64) [1; 2; 3; 4; 5] in
  let y := vec (AShrTy FM64) [6; 7; 8; 9; 10] in
  trace no_answer (MulAA.mulDirectly ctx x y)
  = [duplx;
     MulShare (mkNdArrayRef (AShrTy FM64) [3] [3; 4; 5])
       (mkNdArrayRef (AShrTy FM64) [3] [8; 9; 10]) Duplicate true;
     MulShare (mkNdArrayRef (AShrTy FM64) [2] [1; 2])
       (mkNdArrayRef (AShrTy FM64) [2] [6; 7]) Primary false].
Proof.
  intros ctx x y.
  destruct (mulDirectly_halves_cover_input no_answer ctx x y
              eq_refl eq_refl eq_refl) as [T _].
  rewrite T. reflexivity.
Defined.

(** ** The private operand stays with its owner *)

(** The values returned in [views] are those of [run2]. *)
Lemma views_outputs {A : Type} (rnd : Rnd) (p0 p1 : Proto A) :
  forall n, option_map outputs (views rnd n p0 p1) = run2 rnd n p0 p1.
Proof.
  revert p1. induction p0 as [a0| |c0 k0 IH]; intros [a1| |c1 k1] n;
    try reflexivity.
  cbn [views run2]. destruct (joint rnd n c0 c1) as [[r0 r1]|]; [|reflexivity].
  rewrite <- IH. destruct (views rnd (S n) (k0 r0) (k1 r1)) as [[[v0 a0] [v1 a1]]|];
    reflexivity.
Qed.

(** The views of the two parties in [MulA1BV], the private operand owned by
    rank 1: rank 0 sends and receives the mask, rank 1 receives the product
    less the mask.  [ph] is what the other party holds in place of the
    private operand. *)
Lemma MulA1BV_views_owner_1 (field : FieldType) (rnd : Rnd) (k : nat)
  (batch : Z) (env0 env1 : option string) (shp : list Z) (n : nat)
  (A0 A1 B : nat -> Z) (ph : NdArrayRef) :
  calcNumel shp = Z.of_nat n -> n <> 0%nat ->
  eltype ph = Priv2kTy field 1 -> shape ph = shp ->
  let a0 := tab (AShrTy field) shp n A0 in
  let a1 := tab (AShrTy field) shp n A1 in
  let b := tab (Priv2kTy field 1) shp n B in
  let s := tab (RingTy field) shp n (fun i => wrap field (rnd k 0%nat i)) in
  let r := tab (RingTy field) shp n
             (fun i => wrap field ((A0 i + A1 i) * B i
                                   - wrap field (rnd k 0%nat i))) in
  views rnd k (MulA1BV.proc (party 0 field batch env0) a0 ph)
              (MulA1BV.proc (party 1 field batch env1) a1 b)
  = Some (([Ev (PrivateMulxSend a0) s], as_ s (AShrTy field)),
          ([Ev (PrivateMulxRecv a1 b) r], as_ r (AShrTy field))).
Proof.
  intros Hn Hz Tp Sp a0 a1 b s r. subst a0 a1 b s r.
  unfold MulA1BV.proc, SPU_ENFORCE.
  cbn [shape eltype as_Priv2kTy getRank party]. rewrite Tp, Sp, Shape_eqb_refl.
  cbn [as_Priv2kTy].
  unfold numel. cbn [shape]. rewrite Hn.
  replace (Z.of_nat n =? 0) with false by (symmetry; apply Z.eqb_neq; lia).
  cbn [Z.eqb Pos.eqb negb].
  unfold DispatchUnaryFunc, DispatchBinaryFunc.
  cbn [views bind call joint].
  rewrite !same_len_tab. cbn [andb].
  unfold ideal_PrivateMulx, field_of.
  cbn [eltype data Ty_field shares_of].
  rewrite !zipWith_map_seq, share_split_tab.
  cbn [views bind call joint fst snd shares_of shape].
  reflexivity.
Qed.

(** Likewise with the private operand owned by rank 0. *)
Lemma MulA1BV_views_owner_0 (field : FieldType) (rnd : Rnd) (k : nat)
  (batch : Z) (env0 env1 : option string) (shp : list Z) (n : nat)
  (A0 A1 B : nat -> Z) (ph : NdArrayRef) :
  calcNumel shp = Z.of_nat n -> n <> 0%nat ->
  eltype ph = Priv2kTy field 0 -> shape ph = shp ->
  let a0 := tab (AShrTy field) shp n A0 in
  let a1 := tab (AShrTy field) shp n A1 in
  let b := tab (Priv2kTy field 0) shp n B in
  let s := tab (RingTy field) shp n (fun i => wrap field (rnd k 0%nat i)) in
  let r := tab (RingTy field) shp n
             (fun i => wrap field ((A1 i + A0 i) * B i
                                   - wrap field (rnd k 0%nat i))) in
  views rnd k (MulA1BV.proc (party 0 field batch env0) a0 b)
              (MulA1BV.proc (party 1 field batch env1) a1 ph)
  = Some (([Ev (PrivateMulxRecv a0 b) r], as_ r (AShrTy field)),
          ([Ev (PrivateMulxSend a1) s], as_ s (AShrTy field))).
Proof.
  intros Hn Hz Tp Sp a0 a1 b s r. subst a0 a1 b s r.
  unfold MulA1BV.proc, SPU_ENFORCE.
  cbn [shape eltype as_Priv2kTy getRank party]. rewrite Tp, Sp, Shape_eqb_refl.
  cbn [as_Priv2kTy].
  unfold numel. cbn [shape]. rewrite Hn.
  replace (Z.of_nat n =? 0) with false by (symmetry; apply Z.eqb_neq; lia).
  cbn [Z.eqb Pos.eqb negb].
  unfold DispatchUnaryFunc, DispatchBinaryFunc.
  cbn [views bind call joint].
  rewrite !same_len_tab. cbn [andb].
  unfold ideal_PrivateMulx, field_of.
  cbn [eltype data Ty_field shares_of].
  rewrite !zipWith_map_seq, share_split_tab.
  cbn [views bind call joint fst snd shares_of shape].
  reflexivity.
Qed.

(** The views of the two parties in [MulAV], the private operand owned by
    rank 1: rank 0 returns its OLE share, rank 1 adds the local product of
    its share and the private operand to its OLE share. *)
Lemma MulAV_views_owner_1 (field : FieldType) (rnd : Rnd) (k : nat)
  (batch : Z) (env0 env1 : option string) (shp : list Z) (n : nat)
  (X0 X1 Y : nat -> Z) (ph : NdArrayRef) :
  calcNumel shp = Z.of_nat n -> n <> 0%nat ->
  eltype ph = Priv2kTy field 1 -> shape ph = shp ->
  let x0 := tab (AShrTy field) shp n X0 in
  let x1 := tab (AShrTy field) shp n X1 in
  let y := tab (Priv2kTy field 1) shp n Y in
  let fx0 := reshape x0 [Z.of_nat n] in
  let fx1 := reshape x1 [Z.of_nat n] in
  let fy := reshape y [Z.of_nat n] in
  let s := tab (RingTy field) [Z.of_nat n] n
             (fun i => wrap field (rnd k 0%nat i)) in
  let r := tab (RingTy field) [Z.of_nat n] n
             (fun i => wrap field (X0 i * Y i
                                   - wrap field (rnd k 0%nat i))) in
  views rnd k (MulAV.proc (party 0 field batch env0) x0 ph)
              (MulAV.proc (party 1 field batch env1) x1 y)
  = Some (([Ev (MulOLE fx0 Primary true) s],
           as_ (reshape s shp) (AShrTy field)),
          ([Ev (MulOLE fy Primary false) r],
           as_ (reshape (ring_add r (ring_mul fx1 fy)) shp) (AShrTy field))).
Proof.
  intros Hn Hz Tp Sp x0 x1 y fx0 fx1 fy s r. subst x0 x1 y fx0 fx1 fy s r.
  unfold MulAV.proc, SPU_ENFORCE.
  cbn [shape eltype as_Priv2kTy getRank party]. rewrite Tp, Sp, Shape_eqb_refl.
  cbn [as_Priv2kTy].
  unfold numel. cbn [shape]. rewrite Hn.
  replace (Z.of_nat n =? 0) with false by (symmetry; apply Z.eqb_neq; lia).
  cbn [Z.eqb Pos.eqb negb].
  unfold reshape; cbn [eltype data shape].
  cbn [views bind call joint Conn_eqb xorb andb].
  rewrite same_len_tab.
  unfold ideal_MulOLE, field_of; cbn [eltype data Ty_field shares_of].
  rewrite zipWith_map_seq, share_split_tab.
  cbn [views bind call joint fst snd shares_of shape eltype data].
  reflexivity.
Qed.

(** Likewise with the private operand owned by rank 0. *)
Lemma MulAV_views_owner_0 (field : FieldType) (rnd : Rnd) (k : nat)
  (batch : Z) (env0 env1 : option string) (shp : list Z) (n : nat)
  (X0 X1 Y : nat -> Z) (ph : NdArrayRef) :
  calcNumel shp = Z.of_nat n -> n <> 0%nat ->
  eltype ph = Priv2kTy field 0 -> shape ph = shp ->
  let x0 := tab (AShrTy field) shp n X0 in
  let x1 := tab (AShrTy field) shp n X1 in
  let y := tab (Priv2kTy field 0) shp n Y in
  let fx0 := reshape x0 [Z.of_nat n] in
  let fx1 := reshape x1 [Z.of_nat n] in
  let fy := reshape y [Z.of_nat n] in
  let s := tab (RingTy field) [Z.of_nat n] n
             (fun i => wrap field (rnd k 0%nat i)) in
  let r := tab (RingTy field) [Z.of_nat n] n
             (fun i => wrap field (Y i * X1 i
                                   - wrap field (rnd k 0%nat i))) in
  views rnd k (MulAV.proc (party 0 field batch env0) x0 y)
              (MulAV.proc (party 1 field batch env1) x1 ph)
  = Some (([Ev (MulOLE fy Primary false) s],
           as_ (reshape (ring_add s (ring_mul fx0 fy)) shp) (AShrTy field)),
          ([Ev (MulOLE fx1 Primary true) r],
           as_ (reshape r shp) (AShrTy field))).
Proof.
  intros Hn Hz Tp Sp x0 x1 y fx0 fx1 fy s r. subst x0 x1 y fx0 fx1 fy s r.
  unfold MulAV.proc, SPU_ENFORCE.
  cbn [shape eltype as_Priv2kTy getRank party]. rewrite Tp, Sp, Shape_eqb_refl.
  cbn [as_Priv2kTy].
  unfold numel. cbn [shape]. rewrite Hn.
  replace (Z.of_nat n =? 0) with false by (symmetry; apply Z.eqb_neq; lia).
  cbn [Z.eqb Pos.eqb negb].
  unfold reshape; cbn [eltype data shape].
  cbn [views bind call joint Conn_eqb xorb andb].
  rewrite same_len_tab.
  unfold ideal_MulOLE, field_of; cbn [eltype data Ty_field shares_of].
  rewrite zipWith_map_seq, share_split_tab.
  cbn [views bind call joint fst snd shares_of shape eltype data].
  reflexivity.
Qed.

(** On an empty input neither party issues a call. *)
Lemma private_views_empty (field : FieldType) (rnd : Rnd) (k : nat)
  (ctx0 ctx1 : KernelEvalContext) (owner : Z) (shp : list Z)
  (x0 x1 y0 y1 : NdArrayRef) :
  calcNumel shp = 0 ->
  shape x0 = shp -> shape x1 = shp -> shape y0 = shp -> shape y1 = shp ->
  eltype x0 = AShrTy field -> eltype x1 = AShrTy field ->
  eltype y0 = Priv2kTy field owner -> eltype y1 = Priv2kTy field owner ->
  let e := mkNdArrayRef (AShrTy field) shp [] in
  views rnd k (MulA1BV.proc ctx0 x0 y0) (MulA1BV.proc ctx1 x1 y1)
  = Some (([], e), ([], e))
  /\ views rnd k (MulAV.proc ctx0 x0 y0) (MulAV.proc ctx1 x1 y1)
     = Some (([], e), ([], e)).
Proof.
  intros Hn S0 S1 Sy0 Sy1 T0 T1 Ty0 Ty1 e. subst e.
  unfold MulA1BV.proc, MulAV.proc, SPU_ENFORCE, NdArrayRef_new, numel.
  rewrite S0, S1, Sy0, Sy1, T0, T1, Ty0, Ty1, Shape_eqb_refl, Hn.
  cbn [as_Priv2kTy Z.eqb Z.to_nat repeat views]. split; reflexivity.
Qed.

(** C8: in the kernels mixing a share with a private operand the work is
    routed by the owner's rank and the owner's plaintext does not reach the
    other party.  For either owner, every sharing (x0, x1), and any two
    private operands y and y2 of the owner, the joint runs of [MulA1BV] and
    of [MulAV] on y and on y2 return, and the view of the other party (the
    calls it issues, the answers it receives and the value it returns) is
    the same in the two runs once the randomness of the sub-protocol is
    moved element by element by a fixed amount; this is a bijection of the
    randomness, so for a uniform choice the view has the same distribution
    whatever the private operand.  The returned shares sum to
    (x0 + x1) * y mod 2^k.  On an input that is not empty each party issues
    exactly one call: in [MulA1BV] the other party the private-multiply
    send call on its share, returning the answer, and the owner the receive
    call; in [MulAV] the other party the OLE call on its own share as
    evaluator, returning the answer, and the owner the OLE call on y, to
    whose answer it adds the local product of its share and y.  [ph] is
    what the other party holds in place of the private operand.  The
    private-multiply and OLE primitives are outside the sources; the runs
    are over their ideal functionalities in [joint]. *)
Theorem private_operand_hidden :
  forall (field : FieldType) (k : nat) (batch : Z)
         (env0 env1 : option string) (owner : Z)
         (x0 x1 y y2 ph : NdArrayRef),
    sharing field x0 x1 -> owner = 0 \/ owner = 1 ->
    eltype y = Priv2kTy field owner -> shape y = shape x0 -> wf y ->
    eltype y2 = Priv2kTy field owner -> shape y2 = shape x0 -> wf y2 ->
    eltype ph = Priv2kTy field owner -> shape ph = shape x0 ->
    let other := 1 - owner in
    let P0 := party 0 field batch env0 in
    let P1 := party 1 field batch env1 in
    let x_of (r : Z) := if r =? 0 then x0 else x1 in
    let held (r : Z) (v : NdArrayRef) := if r =? owner then v else ph in
    let fx (r : Z) := reshape (x_of r) [numel x0] in
    let fy := reshape y [numel x0] in
    let xy := zipWith (fun a b => wrap field (a * b)) (plain field x0 x1)
                (data y) in
    (exists shift : nat -> Z, forall rnd : Rnd, exists v v2,
        views rnd k (MulA1BV.proc P0 x0 (held 0 y))
                    (MulA1BV.proc P1 x1 (held 1 y)) = Some v
        /\ views (reshuffle rnd shift) k (MulA1BV.proc P0 x0 (held 0 y2))
                    (MulA1BV.proc P1 x1 (held 1 y2)) = Some v2
        /\ seen_by other v = seen_by other v2
        /\ reconstruct field (outputs v) = xy
        /\ (numel x0 <> 0 ->
            exists a b : NdArrayRef,
              seen_by other v
              = ([Ev (PrivateMulxSend (x_of other)) a], as_ a (eltype x0))
              /\ seen_by owner v
                 = ([Ev (PrivateMulxRecv (x_of owner) y) b],
                    as_ b (eltype x0))))
    /\ (exists shift : nat -> Z, forall rnd : Rnd, exists v v2,
        views rnd k (MulAV.proc P0 x0 (held 0 y))
                    (MulAV.proc P1 x1 (held 1 y)) = Some v
        /\ views (reshuffle rnd shift) k (MulAV.proc P0 x0 (held 0 y2))
                    (MulAV.proc P1 x1 (held 1 y2)) = Some v2
        /\ seen_by other v = seen_by other v2
        /\ reconstruct field (outputs v) = xy
        /\ (numel x0 <> 0 ->
            exists a b : NdArrayRef,
              seen_by other v
              = ([Ev (MulOLE (fx other) Primary true) a],
                 as_ (reshape a (shape x0)) (eltype x0))
              /\ seen_by owner v
                 = ([Ev (MulOLE fy Primary false) b],
                    as_ (reshape (ring_add b (ring_mul (fx owner) fy))
                           (shape x0)) (eltype x0)))).
Proof.
  intros field k batch env0 env1 owner x0 x1 y y2 ph Hx Ho Ty Sy Wy
    Ty2 Sy2 Wy2 Tp Sp other P0 P1 x_of held fx fy xy.
  destruct (sharing_tab field x0 x1 Hx) as (n & X0 & X1 & Hn & E0 & E1).
  destruct (private_tab field owner y (shape x0) n Ty Wy Sy Hn) as (Y & EY).
  destruct (private_tab field owner y2 (shape x0) n Ty2 Wy2 Sy2 Hn)
    as (Y2 & EY2).
  set (shp := shape x0) in *. clearbody shp. subst x0 x1 y y2.
  clear Hx Wy Wy2 Ty Ty2 Sy Sy2.
  subst xy fx fy x_of held other P0 P1. cbn beta.
  unfold numel. cbn [shape eltype]. rewrite Hn.
  rewrite plain_tab. cbn [data]. rewrite zipWith_map_seq.
  destruct (Nat.eq_dec n 0) as [Z0|NZ].
  - subst n.
    destruct Ho as [-> | ->]; change (1 - 0) with 1; change (1 - 1) with 0;
      cbn [Z.eqb Pos.eqb];
      (split; exists (fun _ => 0); intros rnd; do 2 eexists;
       (split;
        [ first [ eapply proj1; eapply private_views_empty
                | eapply proj2; eapply private_views_empty ];
          first [ exact Hn | exact Tp | exact Sp | reflexivity ] |]);
       (split;
        [ first [ eapply proj1; eapply private_views_empty
                | eapply proj2; eapply private_views_empty ];
          first [ exact Hn | exact Tp | exact Sp | reflexivity ] |]);
       (split; [reflexivity|]); (split; [reflexivity|]);
       intros H; exfalso; apply H; reflexivity).
  - destruct Ho as [-> | ->]; change (1 - 0) with 1; change (1 - 1) with 0;
      cbn [Z.eqb Pos.eqb].
    + split.
      * exists (fun _ => 0). intros rnd.
        pose proof (MulA1BV_views_owner_0 field rnd k batch env0 env1 shp n
                      X0 X1 Y ph Hn NZ Tp Sp) as V.
        pose proof (MulA1BV_views_owner_0 field (reshuffle rnd (fun _ => 0))
                      k batch env0 env1 shp n X0 X1 Y2 ph Hn NZ Tp Sp) as V2.
        cbv zeta in V, V2. rewrite V, V2. clear V V2.
        do 2 eexists. split; [reflexivity|]. split; [reflexivity|].
        unfold seen_by, outputs. cbn [Z.eqb Pos.eqb fst snd].
        rewrite (map_ext
                   (fun i => wrap field (reshuffle rnd (fun _ => 0) k 0%nat i))
                   (fun i => wrap field (rnd k 0%nat i)))
          by (intros i; unfold reshuffle; now rewrite Z.add_0_r).
        split; [reflexivity|]. split.
        -- tabs. rewrite reconstruct_tab. apply map_ext; intros i. wrap_ring.
        -- intros _. do 2 eexists. split; reflexivity.
      * exists (fun i => (Y2 i - Y i) * X1 i). intros rnd.
        pose proof (MulAV_views_owner_0 field rnd k batch env0 env1 shp n
                      X0 X1 Y ph Hn NZ Tp Sp) as V.
        pose proof (MulAV_views_owner_0 field
                      (reshuffle rnd (fun i => (Y2 i - Y i) * X1 i))
                      k batch env0 env1 shp n X0 X1 Y2 ph Hn NZ Tp Sp) as V2.
        cbv zeta in V, V2. rewrite V, V2. clear V V2.
        do 2 eexists. split; [reflexivity|]. split; [reflexivity|].
        unfold seen_by, outputs. cbn [Z.eqb Pos.eqb fst snd].
        rewrite (map_ext
                   (fun i => wrap field
                      (Y2 i * X1 i
                       - wrap field
                           (reshuffle rnd (fun i => (Y2 i - Y i) * X1 i)
                              k 0%nat i)))
                   (fun i => wrap field
                      (Y i * X1 i - wrap field (rnd k 0%nat i))))
          by (intros i; unfold reshuffle; wrap_ring).
        split; [reflexivity|]. split.
        -- tabs. rewrite reconstruct_tab. apply map_ext; intros i. wrap_ring.
        -- intros _. do 2 eexists. split; reflexivity.
    + split.
      * exists (fun _ => 0). intros rnd.
        pose proof (MulA1BV_views_owner_1 field rnd k batch env0 env1 shp n
                      X0 X1 Y ph Hn NZ Tp Sp) as V.
        pose proof (MulA1BV_views_owner_1 field (reshuffle rnd (fun _ => 0))
                      k batch env0 env1 shp n X0 X1 Y2 ph Hn NZ Tp Sp) as V2.
        cbv zeta in V, V2. rewrite V, V2. clear V V2.
        do 2 eexists. split; [reflexivity|]. split; [reflexivity|].
        unfold seen_by, outputs. cbn [Z.eqb Pos.eqb fst snd].
        rewrite (map_ext
                   (fun i => wrap field (reshuffle rnd (fun _ => 0) k 0%nat i))
                   (fun i => wrap field (rnd k 0%nat i)))
          by (intros i; unfold reshuffle; now rewrite Z.add_0_r).
        split; [reflexivity|]. split.
        -- tabs. rewrite reconstruct_tab. apply map_ext; intros i. wrap_ring.
        -- intros _. do 2 eexists. split; reflexivity.
      * exists (fun _ => 0). intros rnd.
        pose proof (MulAV_views_owner_1 field rnd k batch env0 env1 shp n
                      X0 X1 Y ph Hn NZ Tp Sp) as V.
        pose proof (MulAV_views_owner_1 field (reshuffle rnd (fun _ => 0))
                      k batch env0 env1 shp n X0 X1 Y2 ph Hn NZ Tp Sp) as V2.
        cbv zeta in V, V2. rewrite V, V2. clear V V2.
        do 2 eexists. split; [reflexivity|]. split; [reflexivity|].
        unfold seen_by, outputs. cbn [Z.eqb Pos.eqb fst snd].
        rewrite (map_ext
                   (fun i => wrap field (reshuffle rnd (fun _ => 0) k 0%nat i))
                   (fun i => wrap field (rnd k 0%nat i)))
          by (intros i; unfold reshuffle; now rewrite Z.add_0_r).
        split; [reflexivity|]. split.
        -- tabs. rewrite reconstruct_tab. apply map_ext; intros i. wrap_ring.
        -- intros _. do 2 eexists. split; reflexivity.
Qed.

Lemma private_operand_hidden_witness :
  let x0 := vec (AShrTy FM64) [3; 4] in
  let x1 := vec (AShrTy FM64) [5; 6] in
  let y := vec (Priv2kTy FM64 0) [1; 0] in
  let y2 := vec (Priv2kTy FM64 0) [0; 1] in
  let ph := vec (Priv2kTy FM64 0) [0; 0] in
  let P0 := party 0 FM64 8192 None in
  let P1 := party 1 FM64 8192 None in
  exists shift : nat -> Z, forall rnd : Rnd, exists v v2,
    views rnd 0 (MulAV.proc P0 x0 y) (MulAV.proc P1 x1 ph) = Some v
    /\ views (reshuffle rnd shift) 0 (MulAV.proc P0 x0 y2)
         (MulAV.proc P1 x1 ph) = Some v2
    /\ snd v = snd v2
    /\ reconstruct FM64 (outputs v) = [8; 0].
Proof.
  intros x0 x1 y y2 ph P0 P1.
  assert (S : sharing FM64 x0 x1)
    by (unfold sharing, wf; repeat split; reflexivity).
  pose proof (private_operand_hidden FM64 0 8192 None None 0 x0 x1 y y2 ph
                S (or_introl eq_refl) eq_refl eq_refl eq_refl
                eq_refl eq_refl eq_refl eq_refl eq_refl) as H.
  cbv zeta in H. destruct H as [_ (shift & H)].
  exists shift. intros rnd.
  destruct (H rnd) as (v & v2 & V & V2 & P & R & _).
  exists v, v2. repeat split; [exact V | exact V2 | exact P |].
  rewrite R. reflexivity.
Defined.
